(** * Audit-pack reconciliation scripts: a shallow embedding

    The three scripts under [reconciliations/2026-02-07] are embedded as
    Rocq functions, one module per script:

    - [Legacy]  : [verify_legacy_funding_and_conversions.py]
    - [Payout]  : [verify_payout_totals.py]
    - [Usdc]    : [verify_usdc_treasury.py]

    The Python primitives they rely on ([str] methods, [int(s, 16)],
    [decimal.Decimal]) are embedded in [Py] and [PyDecimal].  Text is a list
    of ASCII characters; code points above 127 are outside the model.
    Exceptions are values of [exn]; only [RuntimeError] carries its message,
    because that is the only message the scripts inspect or compose. *)

From Stdlib Require Import ZArith Ascii String List Bool Lia QArith Qabs Qpower Qfield.
From Stdlib Require Import DecimalString.
Import ListNotations.
Local Open Scope Z_scope.

(* ================================================================== *)
(** * Python primitives *)

Module Py.

Definition str := list ascii.

Definition txt (s : string) : str := list_ascii_of_string s.

Definition code (c : ascii) : Z := Z.of_N (N_of_ascii c).

Inductive exn : Type :=
| RuntimeError (msg : str)
| ValueError
| InvalidOperation
| DivisionByZero
| Overflow
| OverflowError
| KeyError
| IndexError.

Inductive result (A : Type) : Type :=
| Ok (a : A)
| Raise (e : exn).

Arguments Ok {A} a.
Arguments Raise {A} e.

Definition bind {A B : Type} (r : result A) (k : A -> result B) : result B :=
  match r with
  | Ok a => k a
  | Raise e => Raise e
  end.

Definition raised {A : Type} (r : result A) : bool :=
  match r with
  | Ok _ => false
  | Raise _ => true
  end.

(** [for x in xs: ys.append(f x)], stopping at the first exception. *)
Fixpoint mapM {A B : Type} (f : A -> result B) (xs : list A) : result (list B) :=
  match xs with
  | [] => Ok []
  | x :: r =>
      bind (f x) (fun y => bind (mapM f r) (fun ys => Ok (y :: ys)))
  end.

(** [str.strip()] white space among ASCII characters: TAB, LF, VT, FF, CR,
    the separators 0x1c-0x1f and the space. *)
Definition is_space (c : ascii) : bool :=
  let n := code c in
  ((9 <=? n) && (n <=? 13)) || ((28 <=? n) && (n <=? 31)) || (n =? 32).

(** White space skipped by [int()] around an ASCII literal. *)
Definition is_cspace (c : ascii) : bool :=
  let n := code c in
  ((9 <=? n) && (n <=? 13)) || (n =? 32).

Definition lower_char (c : ascii) : ascii :=
  let n := code c in
  if (65 <=? n) && (n <=? 90) then ascii_of_N (Z.to_N (n + 32)) else c.

(** [s.lower()] *)
Definition lower (s : str) : str := map lower_char s.

Fixpoint lstrip (s : str) : str :=
  match s with
  | [] => []
  | c :: r => if is_space c then lstrip r else s
  end.

Definition rstrip (s : str) : str := rev (lstrip (rev s)).

(** [s.strip()] *)
Definition strip (s : str) : str := rstrip (lstrip s).

Fixpoint lstrip_c (s : str) : str :=
  match s with
  | [] => []
  | c :: r => if is_cspace c then lstrip_c r else s
  end.

(** [s.startswith(p)] *)
Fixpoint startswith (p s : str) : bool :=
  match p, s with
  | [], _ => true
  | _ :: _, [] => false
  | a :: p', b :: s' => Ascii.eqb a b && startswith p' s'
  end.

(** [a == b] on text *)
Fixpoint str_eqb (a b : str) : bool :=
  match a, b with
  | [], [] => true
  | x :: a', y :: b' => Ascii.eqb x y && str_eqb a' b'
  | _, _ => false
  end.

(** [s[i:j]] for [0 <= i <= j] *)
Definition slice (i j : nat) (s : str) : str := firstn (j - i) (skipn i s).

(** [s[-n:]] for [n > 0]; the whole text when it is shorter than [n] *)
Definition last_n (n : nat) (s : str) : str := skipn (length s - n) s.

(** [p in s] on text *)
Fixpoint contains (p s : str) : bool :=
  startswith p s ||
  match s with
  | [] => false
  | _ :: r => contains p r
  end.

Definition hex_digit (c : ascii) : option Z :=
  let n := code c in
  if (48 <=? n) && (n <=? 57) then Some (n - 48)
  else if (97 <=? n) && (n <=? 102) then Some (n - 87)
  else if (65 <=? n) && (n <=? 70) then Some (n - 55)
  else None.

Definition is_hex (c : ascii) : bool :=
  match hex_digit c with
  | Some _ => true
  | None => false
  end.

Definition is_underscore (c : ascii) : bool := code c =? 95.

(** The digit scan of [int(s, 16)]: hexadecimal digits with single
    underscores between them.  Returns the value read, the number of digits
    and the unread rest; [None] on a doubled or trailing underscore. *)
Fixpoint scan16 (s : str) (prev_us : bool) (ndig : nat) (acc : Z)
  : option (Z * nat * str) :=
  match s with
  | [] => if prev_us then None else Some (acc, ndig, [])
  | c :: r =>
      if is_underscore c then
        if prev_us then None else scan16 r true ndig acc
      else
        match hex_digit c with
        | Some d => scan16 r false (S ndig) (acc * 16 + d)
        | None => if prev_us then None else Some (acc, ndig, s)
        end
  end.

Definition split_sign (s : str) : bool * str :=
  match s with
  | c :: r =>
      if code c =? 43 then (false, r)
      else if code c =? 45 then (true, r)
      else (false, s)
  | [] => (false, [])
  end.

Definition skip_0x (s : str) : str :=
  match s with
  | z :: x :: r =>
      if (code z =? 48) && ((code x =? 120) || (code x =? 88)) then
        match r with
        | u :: r' => if is_underscore u then r' else r
        | [] => r
        end
      else s
  | _ => s
  end.

(** [int(s, 16)] on text: optional white space, sign and [0x] prefix, then
    at least one digit; [ValueError] otherwise. *)
Definition int16 (s : str) : result Z :=
  let '(neg, s2) := split_sign (lstrip_c s) in
  let s3 := skip_0x s2 in
  match s3 with
  | u :: _ =>
      if is_underscore u then Raise ValueError
      else
        match scan16 s3 false 0 0 with
        | Some (v, n, rest) =>
            if (n =? 0)%nat then Raise ValueError
            else if forallb is_cspace rest then Ok (if neg then - v else v)
            else Raise ValueError
        | None => Raise ValueError
        end
  | [] => Raise ValueError
  end.

(** [x or d] where [x] is a text that may be missing ([None]) or empty. *)
Definition or_default (x : option str) (d : str) : str :=
  match x with
  | Some (c :: r) => c :: r
  | _ => d
  end.

Definition hex_step (acc : Z) (c : ascii) : Z :=
  acc * 16 + match hex_digit c with Some d => d | None => 0 end.

(** Value of a run of hexadecimal digits, most significant first. *)
Definition hex_value (s : str) : Z := fold_left hex_step s 0.

(** Bytes encoded by a run of hexadecimal digits, two digits per byte. *)
Fixpoint hex_bytes (s : str) : list Z :=
  match s with
  | a :: b :: r =>
      (match hex_digit a with Some d => d | None => 0 end) * 16
      + (match hex_digit b with Some d => d | None => 0 end) :: hex_bytes r
  | _ => []
  end.

(** A byte sequence read as a big-endian unsigned integer. *)
Definition be_uint (bs : list Z) : Z := fold_left (fun acc b => acc * 256 + b) bs 0.

(** [str(n)] for an integer [n], as an f-string prints it *)
Definition str_of_Z (n : Z) : str :=
  list_ascii_of_string (NilZero.string_of_int (Z.to_int n)).

End Py.

(* ================================================================== *)
(** * [decimal.Decimal] under the default context with a chosen precision

    A finite decimal is a sign, a non-negative coefficient and an exponent;
    its value is [(-1)^sign * coeff * 10^exp].  The operations follow the
    arithmetic of the [decimal] module: exact construction, then rounding of
    arithmetic results to the context precision, half-to-even, with the
    [Overflow], [InvalidOperation] and [DivisionByZero] traps enabled. *)

Module PyDecimal.

Import Py.

Inductive decimal : Type :=
| Finite (neg : bool) (coeff : Z) (e : Z)
| Infinity (neg : bool)
| NaN (signaling : bool).

Record context : Type := Context { prec : Z; Emax : Z; Emin : Z }.

(** [getcontext().prec = p] on the default context. *)
Definition default_context (p : Z) : context := Context p 999999 (-999999).

Definition Etiny (ctx : context) : Z := Emin ctx - prec ctx + 1.
Definition Etop (ctx : context) : Z := Emax ctx - prec ctx + 1.

Fixpoint ndigits_aux (fuel : nat) (c : Z) : Z :=
  match fuel with
  | O => 1
  | S f => if c <? 10 then 1 else 1 + ndigits_aux f (c / 10)
  end.

(** [len(str(c))] for [c >= 0] *)
Definition ndigits (c : Z) : Z := ndigits_aux (S (Z.to_nat (Z.log2 c))) c.

(** Drop the last [k >= 1] digits of [c], rounding half to even. *)
Definition round_half_even (c k : Z) : Z :=
  let q := c / 10 ^ k in
  let r := c mod 10 ^ k in
  let h := 5 * 10 ^ (k - 1) in
  if (h <? r) || ((r =? h) && Z.odd q) then q + 1 else q.

(** [Decimal._fix]: round a finite result to the context. *)
Definition fix_ (ctx : context) (neg : bool) (c e : Z) : result decimal :=
  if c =? 0 then Ok (Finite neg 0 (Z.min (Z.max e (Etiny ctx)) (Emax ctx)))
  else
    let exp_min0 := ndigits c + e - prec ctx in
    if Etop ctx <? exp_min0 then Raise Overflow
    else
      let exp_min := Z.max exp_min0 (Etiny ctx) in
      if e <? exp_min then
        let c1 := round_half_even c (exp_min - e) in
        let '(c2, exp_min2) :=
          if prec ctx <? ndigits c1 then (c1 / 10, exp_min + 1) else (c1, exp_min) in
        if Etop ctx <? exp_min2 then Raise Overflow else Ok (Finite neg c2 exp_min2)
      else Ok (Finite neg c e).

(** [Decimal(n)] for an integer [n] *)
Definition of_Z (n : Z) : decimal := Finite (n <? 0) (Z.abs n) 0.

(** [a * b] *)
Definition mul (ctx : context) (a b : decimal) : result decimal :=
  match a, b with
  | NaN true, _ => Raise InvalidOperation
  | _, NaN true => Raise InvalidOperation
  | NaN false, _ => Ok (NaN false)
  | _, NaN false => Ok (NaN false)
  | Infinity s, Infinity s' => Ok (Infinity (xorb s s'))
  | Infinity s, Finite s' c _ =>
      if c =? 0 then Raise InvalidOperation else Ok (Infinity (xorb s s'))
  | Finite s c _, Infinity s' =>
      if c =? 0 then Raise InvalidOperation else Ok (Infinity (xorb s s'))
  | Finite s1 c1 e1, Finite s2 c2 e2 => fix_ ctx (xorb s1 s2) (c1 * c2) (e1 + e2)
  end.

(** The loop of [__truediv__] that strips trailing zeros of an exact
    quotient up to the ideal exponent; at most [n] iterations. *)
Fixpoint strip_zeros (n : nat) (coeff e ideal : Z) : Z * Z :=
  match n with
  | O => (coeff, e)
  | S m =>
      if (e <? ideal) && (coeff mod 10 =? 0) then strip_zeros m (coeff / 10) (e + 1) ideal
      else (coeff, e)
  end.

(** [a / b] on finite operands (the only use in the scripts) *)
Definition div (ctx : context) (a b : decimal) : result decimal :=
  match a, b with
  | Finite s1 c1 e1, Finite s2 c2 e2 =>
      let sign := xorb s1 s2 in
      if c2 =? 0 then
        if c1 =? 0 then Raise InvalidOperation else Raise DivisionByZero
      else if c1 =? 0 then fix_ ctx sign 0 (e1 - e2)
      else
        let shift := ndigits c2 - ndigits c1 + prec ctx + 1 in
        let e := e1 - e2 - shift in
        let '(q, r) :=
          if 0 <=? shift then ((c1 * 10 ^ shift) / c2, (c1 * 10 ^ shift) mod c2)
          else (c1 / (c2 * 10 ^ (- shift)), c1 mod (c2 * 10 ^ (- shift))) in
        let '(q', e') :=
          if r =? 0 then strip_zeros (Z.to_nat (e1 - e2 - e)) q e (e1 - e2)
          else ((if q mod 5 =? 0 then q + 1 else q), e) in
        fix_ ctx sign q' e'
  | _, _ => Raise InvalidOperation
  end.

(** [_normalize(op1, op2, prec)] of two non-zero operands: the two
    coefficients brought to a common exponent, in the order of the
    operands, and that exponent.  An operand too small to matter to a
    result of [prec] digits is replaced by a one at a place just below. *)
Definition normalize (prec c1 e1 c2 e2 : Z) : Z * Z * Z :=
  let '(tc, te, oc, oe) := if e1 <? e2 then (c2, e2, c1, e1) else (c1, e1, c2, e2) in
  let exp := te + Z.min (-1) (ndigits tc - prec - 2) in
  let '(oc', oe') := if ndigits oc + oe - 1 <? exp then (1, exp) else (oc, oe) in
  let tc' := tc * 10 ^ (te - oe') in
  if e1 <? e2 then (oc', tc', oe') else (tc', oc', oe').

(** [a + b] under a context that rounds half to even *)
Definition add (ctx : context) (a b : decimal) : result decimal :=
  match a, b with
  | NaN true, _ => Raise InvalidOperation
  | _, NaN true => Raise InvalidOperation
  | NaN false, _ => Ok (NaN false)
  | _, NaN false => Ok (NaN false)
  | Infinity s, Infinity s' =>
      if Bool.eqb s s' then Ok (Infinity s) else Raise InvalidOperation
  | Infinity s, Finite _ _ _ => Ok (Infinity s)
  | Finite _ _ _, Infinity s => Ok (Infinity s)
  | Finite s1 c1 e1, Finite s2 c2 e2 =>
      let exp := Z.min e1 e2 in
      if (c1 =? 0) && (c2 =? 0) then fix_ ctx (s1 && s2) 0 exp
      else if c1 =? 0 then
        let exp := Z.max exp (e2 - prec ctx - 1) in
        fix_ ctx s2 (c2 * 10 ^ (e2 - exp)) exp
      else if c2 =? 0 then
        let exp := Z.max exp (e1 - prec ctx - 1) in
        fix_ ctx s1 (c1 * 10 ^ (e1 - exp)) exp
      else
        let '(n1, n2, e) := normalize (prec ctx) c1 e1 c2 e2 in
        if xorb s1 s2 then
          if n1 =? n2 then fix_ ctx false 0 exp
          else if n1 <? n2 then fix_ ctx s2 (n2 - n1) e
          else fix_ ctx s1 (n1 - n2) e
        else fix_ ctx s1 (n1 + n2) e
  end.

(** [d.to_integral_value()] with the context rounding (half to even) *)
Definition to_integral_value (d : decimal) : result decimal :=
  match d with
  | Finite s c e =>
      if 0 <=? e then Ok d
      else if c =? 0 then Ok (Finite s 0 0)
      else Ok (Finite s (round_half_even c (- e)) 0)
  | NaN true => Raise InvalidOperation
  | _ => Ok d
  end.

(** [int(d)]: truncation toward zero *)
Definition to_int (d : decimal) : result Z :=
  match d with
  | Finite s c e =>
      let m := if 0 <=? e then c * 10 ^ e else c / 10 ^ (- e) in
      Ok (if s then - m else m)
  | Infinity _ => Raise OverflowError
  | NaN _ => Raise ValueError
  end.

(** Signed coefficient of a finite decimal rescaled to exponent [m <= e]. *)
Definition scaled (neg : bool) (c e m : Z) : Z :=
  (if neg then - c else c) * 10 ^ (e - m).

(** [a == b]: exact numeric comparison; a quiet NaN equals nothing and a
    signaling NaN raises. *)
Definition eq (a b : decimal) : result bool :=
  match a, b with
  | NaN true, _ => Raise InvalidOperation
  | _, NaN true => Raise InvalidOperation
  | Finite s1 c1 e1, Finite s2 c2 e2 =>
      let m := Z.min e1 e2 in Ok (scaled s1 c1 e1 m =? scaled s2 c2 e2 m)
  | Infinity s1, Infinity s2 => Ok (Bool.eqb s1 s2)
  | _, _ => Ok false
  end.

(** [a != b] *)
Definition ne (a b : decimal) : result bool := bind (eq a b) (fun r => Ok (negb r)).

Definition is_digit (c : ascii) : bool := (48 <=? code c) && (code c <=? 57).

Fixpoint span_digits (s : str) : str * str :=
  match s with
  | c :: r =>
      if is_digit c then let '(d, rest) := span_digits r in (c :: d, rest)
      else ([], s)
  | [] => ([], [])
  end.

Definition dec_value (ds : str) : Z :=
  fold_left (fun acc c => acc * 10 + (code c - 48)) ds 0.

(** The exponent part [E[+-]digits] of a numeric string, or its absence. *)
Definition parse_exponent (s : str) : option Z :=
  match s with
  | [] => Some 0
  | c :: r =>
      if (code c =? 101) || (code c =? 69) then
        let '(eneg, r1) := split_sign r in
        match span_digits r1 with
        | ((_ :: _) as ed, []) => Some (if eneg then - dec_value ed else dec_value ed)
        | _ => None
        end
      else None
  end.

(** [Inf], [Infinity], [NaN] and [sNaN] with diagnostic digits, in any case *)
Definition parse_special (neg : bool) (s : str) : result decimal :=
  let l := lower s in
  if str_eqb l (txt "inf") || str_eqb l (txt "infinity") then Ok (Infinity neg)
  else if startswith (txt "nan") l then
    match span_digits (skipn 3 l) with
    | (_, []) => Ok (NaN false)
    | _ => Raise InvalidOperation
    end
  else if startswith (txt "snan") l then
    match span_digits (skipn 4 l) with
    | (_, []) => Ok (NaN true)
    | _ => Raise InvalidOperation
    end
  else Raise InvalidOperation.

(** [Decimal(s)] for a text [s]: exact, whatever the context precision *)
Definition of_str (s : str) : result decimal :=
  let s0 := filter (fun c => negb (is_underscore c)) (strip s) in
  let '(neg, s1) := split_sign s0 in
  let '(ip, s2) := span_digits s1 in
  let '(fp, s3) :=
    match s2 with
    | c :: r => if code c =? 46 then span_digits r else ([], s2)
    | [] => ([], [])
    end in
  match ip ++ fp with
  | [] => parse_special neg s1
  | ds =>
      match parse_exponent s3 with
      | Some x => Ok (Finite neg (dec_value ds) (x - Z.of_nat (length fp)))
      | None => Raise InvalidOperation
      end
  end.

(** The rational a finite decimal denotes. *)
Definition value (neg : bool) (c e : Z) : Q :=
  inject_Z (if neg then - c else c) * Qpower (inject_Z 10) e.

End PyDecimal.

Declare Scope py_scope.
Notation "x <- e ;; k" := (Py.bind e (fun x => k))
  (at level 61, e at next level, right associativity) : py_scope.

(* ================================================================== *)
(** * verify_legacy_funding_and_conversions.py *)

Module Legacy.

Import Py PyDecimal.
Local Open Scope py_scope.

(** [getcontext().prec = 60] *)
Definition ctx : context := default_context 60.

Definition TREASURY : str := txt "0x04e334ff13c71488094e24f4fab53a8fafe2f9bb".
Definition GATEWAY : str := txt "0x8a8053c21696f27ed305a03bd1efc5d068d91d0e".
Definition TESTING_WALLET : str := txt "0xa03113bab8d4ebe5695591f60011741233e8b82f".
Definition SAFE_WALLET : str := txt "0xc34b3753c164fbc3fc066fc1a46b3eee8adb33e6".

Definition LPT : str := txt "0x289ba1701c2f088cf0faf8b3705246331cb8a839".
Definition USDC : str := txt "0xaf88d065e77c8cc2239327c5edb3a432268e5831".
Definition WETH : str := txt "0x82af49447d8a07e3bd95bd0d56f35241523fbab1".

Definition TRANSFER_TOPIC0 : str :=
  txt "0xddf252ad1be2c89b69c2b068fc378daa952ba7f163c4a11628f55a4df523b3ef".
Definition ZERO_ADDR : str := txt "0x" ++ repeat "0"%char 40.

Definition _lower_addr (addr : str) : str :=
  let a := lower (strip addr) in
  match a with
  | [] => a
  | _ :: _ =>
      if startswith (txt "0x") a && (length a =? 42)%nat then a
      else if startswith (txt "0x") a then txt "0x" ++ skipn 2 a
      else txt "0x" ++ a
  end.

Definition _decode_topic_addr (topic : str) : result str :=
  let t := lower topic in
  if negb (startswith (txt "0x") t) || negb (length t =? 66)%nat then Raise ValueError
  else Ok (txt "0x" ++ last_n 40 t).

(** [Decimal(value) / (Decimal(10) ** Decimal(decimals))]; the power of ten
    is exact for the decimals the script uses (6 and 18). *)
Definition _dec (v : Z) (decimals : Z) : result decimal :=
  div ctx (of_Z v) (of_Z (10 ^ decimals)).

(** A JSON scalar, as the [status] entry of a receipt may hold it. *)
Inductive json : Type :=
| JNull
| JBool (b : bool)
| JInt (n : Z)
| JStr (s : str).

(** A receipt log; a missing or null entry is [None], a missing list of
    topics is the empty list. *)
Record Log : Type := mkLog {
  log_address : option str;
  log_topics : list str;
  log_data : option str
}.

Record Receipt : Type := mkReceipt {
  rc_status : json;
  rc_gasUsed : option str;
  rc_effectiveGasPrice : option str;
  rc_blockNumber : option str;
  rc_logs : list Log
}.

Record Tx : Type := mkTx {
  tx_from : option str;
  tx_to : option str;
  tx_value : option str;
  tx_input : option str;
  tx_blockNumber : option str
}.

Definition _receipt_ok (receipt : Receipt) : result bool :=
  match rc_status receipt with
  | JNull => Ok false
  | JStr s => v <- int16 s ;; Ok (v =? 1)
  | JInt n => Ok (n =? 1)
  | JBool b => Ok b
  end.

Definition _receipt_gas_fee_eth (receipt : Receipt) : result decimal :=
  gas_used <- int16 (or_default (rc_gasUsed receipt) (txt "0x0")) ;;
  eff_price <- int16 (or_default (rc_effectiveGasPrice receipt) (txt "0x0")) ;;
  div ctx (of_Z (gas_used * eff_price)) (of_Z (10 ^ 18)).

(** A quantity entry of a receipt as JSON-RPC gives it - missing, empty, or
    [0x] and hexadecimal digits - with the number it stands for. *)
Inductive quantity : option str -> Z -> Prop :=
| quantity_missing : quantity None 0
| quantity_empty : quantity (Some []) 0
| quantity_hex (s : str) :
    s <> [] -> forallb is_hex s = true -> quantity (Some (txt "0x" ++ s)) (hex_value s).

Record Erc20Transfer : Type := mkTransfer {
  t_from : str;
  t_to : str;
  t_value : Z
}.

(** The body of the loop of [_erc20_transfers_in_receipt] once a log has
    passed the three [continue] guards. *)
Definition decode_transfer (log : Log) : result Erc20Transfer :=
  f <- _decode_topic_addr (nth 1 (log_topics log) []) ;;
  t <- _decode_topic_addr (nth 2 (log_topics log) []) ;;
  v <- int16 (or_default (log_data log) (txt "0x0")) ;;
  Ok (mkTransfer f t v).

(** The three [continue] guards of the loop, as one test. *)
Definition selected (token : str) (log : Log) : bool :=
  str_eqb (_lower_addr (or_default (log_address log) [])) (_lower_addr token)
  && match log_topics log with
     | [] => false
     | t0 :: _ => str_eqb (lower t0) TRANSFER_TOPIC0
     end
  && (3 <=? length (log_topics log))%nat.

Fixpoint erc20_loop (token : str) (logs : list Log) (out : list Erc20Transfer)
  : result (list Erc20Transfer) :=
  match logs with
  | [] => Ok out
  | log :: rest =>
      if negb (str_eqb (_lower_addr (or_default (log_address log) []))
                       (_lower_addr token))
      then erc20_loop token rest out
      else
        match log_topics log with
        | [] => erc20_loop token rest out
        | t0 :: _ =>
            if negb (str_eqb (lower t0) TRANSFER_TOPIC0) then erc20_loop token rest out
            else if (length (log_topics log) <? 3)%nat then erc20_loop token rest out
            else
              e <- decode_transfer log ;;
              erc20_loop token rest (out ++ [e])
        end
  end.

Definition _erc20_transfers_in_receipt (receipt : Receipt) (token : str)
  : result (list Erc20Transfer) :=
  erc20_loop token (rc_logs receipt) [].

Record SafeExec : Type := mkSafeExec { se_to : str; se_value_wei : Z }.

Definition _decode_safe_exec_transaction (input_hex : str) : result SafeExec :=
  let h := lower (strip input_hex) in
  let h := if startswith (txt "0x") h then skipn 2 h else h in
  if (length h <? 8 + 64 + 64)%nat then
    Raise (RuntimeError (txt "unexpected execTransaction calldata length"))
  else
    let to_word := slice 8 (8 + 64) h in
    let value_word := slice (8 + 64) (8 + 64 + 64) h in
    let to_addr := txt "0x" ++ last_n 40 to_word in
    value_wei <- int16 value_word ;;
    Ok (mkSafeExec (_lower_addr to_addr) value_wei).

(** One row of [legacy_funding_flows.csv].  The script stores [str()] of the
    two decimals; the rows keep the decimals themselves. *)
Record FlowRow : Type := mkFlowRow {
  chain : str;
  kind : str;
  tx_hash : str;
  block_number : Z;
  from_addr : str;
  to_addr : str;
  asset : str;
  amount_raw : Z;
  decimals : Z;
  amount : decimal;
  gas_fee_eth : decimal;
  status : str;
  note : str
}.

(** [int((exp_amt * Decimal(10**18)).to_integral_value())] *)
Definition raw_of_decimal (exp_amt : decimal) : result Z :=
  scaled_amt <- mul ctx exp_amt (of_Z (10 ^ 18)) ;;
  rounded <- to_integral_value scaled_amt ;;
  to_int rounded.

(** [exp_amt = Decimal(row[...])] and the conversion to raw units *)
Definition exp_raw_of (amount_text : str) : result Z :=
  exp_amt <- of_str amount_text ;;
  raw_of_decimal exp_amt.

(** What the specification describes instead: the product with [10^18]
    truncated toward zero. *)
Definition spec_truncated_raw (amount_text : str) : result Z :=
  exp_amt <- of_str amount_text ;;
  match exp_amt with
  | Finite neg c e =>
      let m := if 0 <=? e + 18 then c * 10 ^ (e + 18) else c / 10 ^ (- (e + 18)) in
      Ok (if neg then - m else m)
  | Infinity _ => Raise OverflowError
  | NaN _ => Raise ValueError
  end.

(** [sum(t["value"] for t in ts if keep t)] *)
Definition sum_values (keep : Erc20Transfer -> bool) (ts : list Erc20Transfer) : Z :=
  fold_left Z.add (map t_value (filter keep ts)) 0.

Section Flows.

(** The chain as the RPC endpoint serves it: [_get_tx] and [_get_receipt]
    either return the record or raise [RuntimeError]. *)
Variable _get_tx : str -> result Tx.
Variable _get_receipt : str -> result Receipt.

(** 1) Phase 1 testing wallet returns: one pass of the loop body *)
Definition verify_testing_return (row_tx_hash row_amount_eth : str) : result FlowRow :=
  let txh := lower (strip row_tx_hash) in
  exp_wei <- exp_raw_of row_amount_eth ;;
  tx <- _get_tx txh ;;
  rec <- _get_receipt txh ;;
  ok <- _receipt_ok rec ;;
  let got_from := _lower_addr (or_default (tx_from tx) []) in
  let got_to := _lower_addr (or_default (tx_to tx) []) in
  got_val <- int16 (or_default (tx_value tx) (txt "0x0")) ;;
  if negb (str_eqb got_from TESTING_WALLET) || negb (str_eqb got_to GATEWAY)
     || negb (got_val =? exp_wei) || negb ok
  then Raise (RuntimeError (txt "testing return mismatch: " ++ txh))
  else
    bn <- int16 (or_default (tx_blockNumber tx) (txt "0x0")) ;;
    amt <- _dec got_val 18 ;;
    fee <- _receipt_gas_fee_eth rec ;;
    Ok (mkFlowRow (txt "arbitrum-one") (txt "testing_wallet_return") txh bn
          got_from got_to (txt "ETH") got_val 18 amt fee (txt "success")
          (txt "Phase 1 testing wallet return to gateway")).

(** 2) Safe wallet ETH transfers *)
Definition verify_safe_eth (row_tx_hash row_amount_eth : str) : result FlowRow :=
  let txh := lower (strip row_tx_hash) in
  exp_wei <- exp_raw_of row_amount_eth ;;
  tx <- _get_tx txh ;;
  rec <- _get_receipt txh ;;
  ok <- _receipt_ok rec ;;
  if negb (str_eqb (_lower_addr (or_default (tx_to tx) [])) SAFE_WALLET) || negb ok
  then Raise (RuntimeError (txt "safe eth tx mismatch (to/status): " ++ txh))
  else
    decoded <- _decode_safe_exec_transaction (or_default (tx_input tx) (txt "0x")) ;;
    if negb (str_eqb (se_to decoded) GATEWAY) || negb (se_value_wei decoded =? exp_wei)
    then Raise (RuntimeError (txt "safe execTransaction mismatch: " ++ txh))
    else
      bn <- int16 (or_default (tx_blockNumber tx) (txt "0x0")) ;;
      amt <- _dec exp_wei 18 ;;
      fee <- _receipt_gas_fee_eth rec ;;
      Ok (mkFlowRow (txt "arbitrum-one") (txt "safe_exec_eth_transfer") txh bn
            SAFE_WALLET GATEWAY (txt "ETH") exp_wei 18 amt fee (txt "success")
            (txt "Safe execTransaction ETH transfer to gateway")).

(** 3) Phase 3 treasury disbursements *)
Definition verify_treasury_disbursement
  (t_transaction_hash t_recipient t_amount_eth : str) : result FlowRow :=
  let txh := lower (strip t_transaction_hash) in
  let exp_to := _lower_addr t_recipient in
  exp_wei <- exp_raw_of t_amount_eth ;;
  tx <- _get_tx txh ;;
  rec <- _get_receipt txh ;;
  ok <- _receipt_ok rec ;;
  let got_from := _lower_addr (or_default (tx_from tx) []) in
  let got_to := _lower_addr (or_default (tx_to tx) []) in
  got_val <- int16 (or_default (tx_value tx) (txt "0x0")) ;;
  if negb (str_eqb got_from TREASURY) || negb (str_eqb got_to exp_to)
     || negb (got_val =? exp_wei) || negb ok
  then Raise (RuntimeError (txt "treasury disbursement mismatch: " ++ txh))
  else
    bn <- int16 (or_default (tx_blockNumber tx) (txt "0x0")) ;;
    amt <- _dec got_val 18 ;;
    fee <- _receipt_gas_fee_eth rec ;;
    Ok (mkFlowRow (txt "arbitrum-one") (txt "treasury_eth_disbursement") txh bn
          got_from got_to (txt "ETH") got_val 18 amt fee (txt "success")
          (txt "Phase 3 treasury disbursement")).

(** 4) Safe wallet LPT transfers *)
Definition verify_safe_lpt (row_tx_hash row_amount_lpt : str) : result FlowRow :=
  let txh := lower (strip row_tx_hash) in
  exp_raw <- exp_raw_of row_amount_lpt ;;
  rec <- _get_receipt txh ;;
  ok <- _receipt_ok rec ;;
  if negb ok then Raise (RuntimeError (txt "safe lpt tx failed: " ++ txh))
  else
    transfers <- _erc20_transfers_in_receipt rec LPT ;;
    let got :=
      sum_values (fun t => str_eqb (_lower_addr (t_from t)) SAFE_WALLET
                           && str_eqb (_lower_addr (t_to t)) GATEWAY) transfers in
    if negb (got =? exp_raw)
    then Raise (RuntimeError (txt "safe lpt transfer mismatch: " ++ txh
                              ++ txt ": got " ++ str_of_Z got
                              ++ txt " expected " ++ str_of_Z exp_raw))
    else
      bn <- int16 (or_default (rc_blockNumber rec) (txt "0x0")) ;;
      amt <- _dec got 18 ;;
      fee <- _receipt_gas_fee_eth rec ;;
      Ok (mkFlowRow (txt "arbitrum-one") (txt "safe_lpt_transfer") txh bn
            SAFE_WALLET GATEWAY (txt "LPT") got 18 amt fee (txt "success")
            (txt "Safe LPT transfer to gateway")).

(** The four loops of [main] over their input rows: the first exception
    ends the run, so no later row is looked at. *)
Definition run_testing_returns (rows : list (str * str)) : result (list FlowRow) :=
  mapM (fun r => verify_testing_return (fst r) (snd r)) rows.

Definition run_safe_eth (rows : list (str * str)) : result (list FlowRow) :=
  mapM (fun r => verify_safe_eth (fst r) (snd r)) rows.

Definition run_treasury_disbursements (rows : list (str * str * str))
  : result (list FlowRow) :=
  mapM (fun r => verify_treasury_disbursement (fst (fst r)) (snd (fst r)) (snd r)) rows.

Definition run_safe_lpt (rows : list (str * str)) : result (list FlowRow) :=
  mapM (fun r => verify_safe_lpt (fst r) (snd r)) rows.

Definition router : str := txt "0x2905d7e4d048d29954f81b02171dd313f457a4a4".

(** One row of [lpt_conversions_onchain.csv] *)
Record ConversionRow : Type := mkConversionRow {
  cv_date_utc : str;
  cv_tx_hash : str;
  cv_to : str;
  cv_conversion_type : str;
  cv_lpt_out : decimal;
  cv_usdc_in : decimal;
  cv_weth_gross_in : decimal;
  cv_weth_burn : decimal;
  cv_weth_other_out : decimal;
  cv_gas_fee_eth : decimal;
  cv_status : str
}.

Definition lpt_out_of (lpt_transfers : list Erc20Transfer) : Z :=
  sum_values (fun t => str_eqb (_lower_addr (t_from t)) TREASURY
                       && str_eqb (_lower_addr (t_to t)) router) lpt_transfers.

Definition usdc_in_of (usdc_transfers : list Erc20Transfer) : Z :=
  sum_values (fun t => str_eqb (_lower_addr (t_to t)) TREASURY) usdc_transfers.

Definition weth_gross_in_of (weth_transfers : list Erc20Transfer) : Z :=
  sum_values (fun t => str_eqb (_lower_addr (t_to t)) router
                       && negb (str_eqb (_lower_addr (t_from t)) router)) weth_transfers.

Definition weth_burn_of (weth_transfers : list Erc20Transfer) : Z :=
  sum_values (fun t => str_eqb (_lower_addr (t_from t)) router
                       && str_eqb (_lower_addr (t_to t)) ZERO_ADDR) weth_transfers.

Definition weth_other_out_of (weth_transfers : list Erc20Transfer) : Z :=
  sum_values (fun t => str_eqb (_lower_addr (t_from t)) router
                       && negb (str_eqb (_lower_addr (t_to t)) router
                                || str_eqb (_lower_addr (t_to t)) ZERO_ADDR))
             weth_transfers.

(** The tag chosen at lines 427-431, from the sums. *)
Definition conv_type_of (lpt_out usdc_in weth_gross_in : Z) : str :=
  if (0 <? lpt_out) && (0 <? usdc_in) then txt "LPT_to_USDC"
  else if (0 <? lpt_out) && (0 <? weth_gross_in) then txt "LPT_to_ETH_like"
  else txt "unknown".

(** One pass of the conversion loop: [None] is the [continue] of line 425,
    which appends no row. *)
Definition conversion_row (row_iso_utc row_tx_hash : str)
  : result (option ConversionRow) :=
  let txh := lower (strip row_tx_hash) in
  tx <- _get_tx txh ;;
  rec <- _get_receipt txh ;;
  lpt_transfers <- _erc20_transfers_in_receipt rec LPT ;;
  usdc_transfers <- _erc20_transfers_in_receipt rec USDC ;;
  weth_transfers <- _erc20_transfers_in_receipt rec WETH ;;
  let lpt_out := lpt_out_of lpt_transfers in
  let usdc_in := usdc_in_of usdc_transfers in
  let weth_gross_in := weth_gross_in_of weth_transfers in
  let weth_burn := weth_burn_of weth_transfers in
  let weth_other_out := weth_other_out_of weth_transfers in
  if (lpt_out =? 0) && (usdc_in =? 0) && (weth_gross_in =? 0) && (weth_burn =? 0)
  then Ok None
  else
    let conv_type := conv_type_of lpt_out usdc_in weth_gross_in in
    d_lpt <- _dec lpt_out 18 ;;
    d_usdc <- _dec usdc_in 6 ;;
    d_gross <- _dec weth_gross_in 18 ;;
    d_burn <- _dec weth_burn 18 ;;
    d_other <- _dec weth_other_out 18 ;;
    fee <- _receipt_gas_fee_eth rec ;;
    ok <- _receipt_ok rec ;;
    Ok (Some (mkConversionRow row_iso_utc txh
                (_lower_addr (or_default (tx_to tx) [])) conv_type
                d_lpt d_usdc d_gross d_burn d_other fee
                (if ok then txt "success" else txt "failed"))).

End Flows.

(** The hexadecimal digits of a calldata text: what
    [_decode_safe_exec_transaction] slices, after [strip], [lower] and the
    removal of a [0x] prefix. *)
Definition calldata_digits (input_hex : str) : str :=
  let h := lower (strip input_hex) in
  if startswith (txt "0x") h then skipn 2 h else h.

(** [_sum_dec(rows, key)], that is
    [sum((Decimal(r.get(key) or "0") for r in rows), Decimal("0"))], on
    the decimals the rows hold under the key. *)
Definition _sum_dec (values : list decimal) : result decimal :=
  fold_left (fun acc d => a <- acc ;; add ctx a d) values (Ok (Finite false 0 0)).

(** The four totals of [funding_flows] in the summary: the sum of the
    amounts of the rows of a kind. *)
Definition funding_total (k : str) (funding_rows : list FlowRow) : result decimal :=
  _sum_dec (map amount (filter (fun r => str_eqb (kind r) k) funding_rows)).

End Legacy.

(* ================================================================== *)
(** * verify_payout_totals.py *)

Module Payout.

Import Py PyDecimal.
Local Open Scope py_scope.

Definition TICKETBROKER : str := txt "0xa8bb618b1520e284046f3dfc448851a1ff26e41b".

Definition WINNING_TICKET_REDEEMED_TOPIC0 : str :=
  txt "0x8b87351a208c06e3ceee59d80725fd77a23b4129e1b51ca231fc89b40712649c".

Definition GATEWAY_SENDER : str := txt "0x8a8053c21696f27ed305a03bd1efc5d068d91d0e".

Definition _topic_addr (addr : str) : result str :=
  let a := lower addr in
  if negb (startswith (txt "0x") a) || negb (length a =? 42)%nat then Raise ValueError
  else Ok (txt "0x" ++ repeat "0"%char 24 ++ skipn 2 a).

Definition _lower_addr (addr : str) : str := lower (strip addr).

(** A log returned by [eth_getLogs]; the scan reads its [data] only. *)
Record ScanLog : Type := mkScanLog { sl_data : option str }.

(** The [for log in logs] loop of the scan. *)
Fixpoint add_logs (logs : list ScanLog) (total_wei count : Z) : result (Z * Z) :=
  match logs with
  | [] => Ok (total_wei, count)
  | log :: rest =>
      amount_wei <- int16 (or_default (sl_data log) (txt "0x0")) ;;
      add_logs rest (total_wei + amount_wei) (count + 1)
  end.

Definition oversized (msg : str) : bool :=
  contains (txt "more than") msg || contains (txt "limit") msg
  || contains (txt "response size") msg.

Record ScanState : Type := mkScanState {
  cur : Z;
  chunk_size : Z;
  total_wei : Z;
  count : Z;
  chunks : Z;
  calls : nat
}.

Section Scanner.

(** [_eth_get_logs address topics from_block to_block] as the provider
    answers the [n]-th query of the scan: the logs, or the exception
    [_curl_rpc] ends with once its retries are used up. *)
Variable _eth_get_logs : nat -> str -> list str -> Z -> Z -> result (list ScanLog).

(** What one pass of the [while] loop does: leave the loop with a value or
    an exception, or go on from a new state. *)
Inductive pass : Type :=
| Return (r : result (Z * Z))
| Next (st : ScanState).

(** One pass of [while cur <= end], the test included. *)
Definition scan_pass (sender_topic : str) (end_ : Z) (st : ScanState) : pass :=
  if cur st <=? end_ then
    let hi := Z.min (cur st + chunk_size st - 1) end_ in
    match _eth_get_logs (calls st) TICKETBROKER
            [WINNING_TICKET_REDEEMED_TOPIC0; sender_topic] (cur st) hi with
    | Raise (RuntimeError e) =>
        if oversized (lower e) then
          if chunk_size st <=? 10000 then Return (Raise (RuntimeError e))
          else
            Next (mkScanState (cur st) (Z.max 10000 (chunk_size st / 2))
                    (total_wei st) (count st) (chunks st) (S (calls st)))
        else Return (Raise (RuntimeError e))
    | Raise e => Return (Raise e)
    | Ok logs =>
        match add_logs logs (total_wei st) (count st) with
        | Raise e => Return (Raise e)
        | Ok (total', count') =>
            Next (mkScanState (hi + 1) (chunk_size st) total' count'
                    (chunks st + 1) (S (calls st)))
        end
    end
  else Return (Ok (count st, total_wei st)).

(** The loop, at most [fuel] passes; [None] when the passes are used up
    before the loop has returned or raised. *)
Fixpoint scan_loop (fuel : nat) (sender_topic : str) (end_ : Z) (st : ScanState)
  : option (result (Z * Z)) :=
  match fuel with
  | O => None
  | S fuel' =>
      match scan_pass sender_topic end_ st with
      | Return r => Some r
      | Next st' => scan_loop fuel' sender_topic end_ st'
      end
  end.

(** [_sum_ticketbroker_sender_logs]; returns [(count, total_wei)]. *)
Definition _sum_ticketbroker_sender_logs
  (fuel : nat) (sender : str) (from_block to_block chunk_size : Z)
  : option (result (Z * Z)) :=
  match _topic_addr sender with
  | Raise e => Some (Raise e)
  | Ok sender_topic =>
      scan_loop fuel sender_topic to_block
        (mkScanState from_block chunk_size 0 0 0 0)
  end.

End Scanner.

(** The default [chunk_size] of the scan. *)
Definition default_chunk_size : Z := 2000000.

(** Passes that are enough for the scan of a range, whatever the provider
    answers. *)
Definition scan_fuel (from_block to_block chunk_size : Z) : nat :=
  S (Z.to_nat (to_block - from_block + 1) + Z.to_nat chunk_size).

(** What is left to do in a state: the blocks not yet scanned and the room
    the chunk size has to shrink. *)
Definition scan_measure (end_ : Z) (st : ScanState) : nat :=
  Z.to_nat (end_ - cur st + 1) + Z.to_nat (chunk_size st).

(** Number of chunks of a scan that never has to shrink its chunk size. *)
Definition chunk_count (from_block to_block chunk_size : Z) : nat :=
  Z.to_nat ((to_block - from_block + chunk_size) / chunk_size).

(** The [i]-th chunk of a scan that never has to shrink its chunk size. *)
Definition chunk_range (from_block to_block chunk_size : Z) (i : nat) : Z * Z :=
  (from_block + Z.of_nat i * chunk_size,
   Z.min (from_block + Z.of_nat i * chunk_size + chunk_size - 1) to_block).

(** A mapping loaded from a JSON object, in key order of the file. *)
Definition dict (V : Type) : Type := list (str * V).

Fixpoint get {V : Type} (k : str) (d : dict V) : option V :=
  match d with
  | [] => None
  | (k', v) :: r => if str_eqb k k' then Some v else get k r
  end.

Definition compared_keys : list str :=
  [txt "phase1+2_ticket_eth"; txt "phase3_transfer_eth"; txt "manual_ticket_eth";
   txt "dec31_ticket_eth"; txt "jan22_ticket_eth"; txt "total_eth"].

Definition mismatch_line (k ev ov : str) : str :=
  k ++ txt ": expected " ++ ev ++ txt " got " ++ ov.

(** [Decimal(str(expected[k])) != Decimal(str(out[k]))] on the texts *)
Definition differs (ev ov : str) : result bool :=
  a <- of_str ev ;;
  b <- of_str ov ;;
  ne a b.

(** The comparison loop of [main] over the six keys; [expected] and [out]
    hold the text [str()] gives for each value. *)
Fixpoint compare_loop (expected out : dict str) (keys : list str) (mismatches : list str)
  : result (list str) :=
  match keys with
  | [] => Ok mismatches
  | k :: rest =>
      match get k expected with
      | None => compare_loop expected out rest mismatches
      | Some ev =>
          match get k out with
          | None => Raise KeyError
          | Some ov =>
              d <- differs ev ov ;;
              if d then compare_loop expected out rest (mismatches ++ [mismatch_line k ev ov])
              else compare_loop expected out rest mismatches
          end
      end
  end.

(** The end of [main]: the lines written to stderr and the value returned. *)
Definition compare_totals (expected out : dict str) : result (list str * Z) :=
  match expected with
  | [] => Ok ([], 0)
  | _ :: _ =>
      mismatches <- compare_loop expected out compared_keys [] ;;
      match mismatches with
      | [] => Ok ([], 0)
      | _ :: _ => Ok (mismatches, 2)
      end
  end.

(** The rational a text denotes as a finite decimal literal. *)
Definition number_of (s : str) : option Q :=
  match of_str s with
  | Ok (Finite neg c e) => Some (value neg c e)
  | _ => None
  end.

(** The line a key contributes to the report when the two texts are
    compared as the numbers they denote. *)
Definition report_line (expected out : dict str) (k : str) : list str :=
  match get k expected, get k out with
  | Some ev, Some ov =>
      match number_of ev, number_of ov with
      | Some a, Some b => if Qeq_bool a b then [] else [mismatch_line k ev ov]
      | _, _ => []
      end
  | _, _ => []
  end.

Definition report (expected out : dict str) : list str :=
  flat_map (report_line expected out) compared_keys.

(** The block ranges of the queries that succeeded, in the order the scan
    made them, with the logs each returned: [covers lo end_ segs] when the
    ranges follow one another from [lo] up to [end_], none longer than
    [chunk] blocks, each answered by the provider with its logs. *)
Inductive covers
  (provider : nat -> str -> list str -> Z -> Z -> result (list ScanLog))
  (sender_topic : str) (chunk : Z) (end_ : Z) : Z -> list (list ScanLog) -> Prop :=
| covers_done (lo : Z) : end_ < lo -> covers provider sender_topic chunk end_ lo []
| covers_range (lo hi : Z) (n : nat) (logs : list ScanLog) (rest : list (list ScanLog)) :
    lo <= hi <= end_ -> hi - lo < chunk ->
    provider n TICKETBROKER [WINNING_TICKET_REDEEMED_TOPIC0; sender_topic] lo hi = Ok logs ->
    covers provider sender_topic chunk end_ (hi + 1) rest ->
    covers provider sender_topic chunk end_ lo (logs :: rest).

Definition BACKEND_PAYOUT_WALLET : str := txt "0x0c7ca5da3b10fa345c5713c5a14479a3af65ac37".
Definition TICKET_SENDER_DEC31_JAN22 : str :=
  txt "0xf2f5fccddf50c9e86c1bb171c07041ff0c612f2d".

Definition MANUAL_TICKETBROKER_TXS : list str :=
  [txt "0x21378158d6bf9602fbffa0c296ef509aa30c2718f5ac91c781af8d9afa78ee89"].

Definition DEC31_TICKETBROKER_TXS : list str :=
  [txt "0x7f1fe966e79a4123309c1bc292a31e3f53a2bd4b60140eb26a8be34bd7f03281";
   txt "0x4a6ec583e2eb6d96b55cf569df5c721728852993a6b86b7a025d05755d2bdfa2";
   txt "0x7a5f0413c7791b67d6a36e12d5bf976001945b8a520cbb5a9cd7932861d39719"].

Definition JAN22_TICKETBROKER_TXS : list str :=
  [txt "0xbe47de7eb060393386b9edfd8aec9e2f02ec0fe6931e2df7faa205bc700459bf";
   txt "0x2ab0fb8b9009821c6173803e661376ce93db665d660a0b9fd5e9fd88ca68c463";
   txt "0xbefc71900f41af96674643d1bf807f5d6bae7ba6eb5a20012b9da19b75fec868"].

(** [getcontext().prec = 80] *)
Definition ctx : context := default_context 80.

(** [Decimal(value_wei) / Decimal(10**18)] *)
Definition _dec_wei_to_eth (value_wei : Z) : result decimal :=
  div ctx (of_Z value_wei) (of_Z (10 ^ 18)).

(** [total_eth] of [main], from the five totals in wei. *)
Definition total_eth
  (gateway_total_wei manual_total_wei dec31_total_wei jan22_total_wei phase3_total_wei : Z)
  : result decimal :=
  phase12_eth <- _dec_wei_to_eth gateway_total_wei ;;
  manual_eth <- _dec_wei_to_eth manual_total_wei ;;
  dec31_eth <- _dec_wei_to_eth dec31_total_wei ;;
  jan22_eth <- _dec_wei_to_eth jan22_total_wei ;;
  phase3_eth <- _dec_wei_to_eth phase3_total_wei ;;
  s1 <- add ctx phase12_eth manual_eth ;;
  s2 <- add ctx s1 dec31_eth ;;
  s3 <- add ctx s2 jan22_eth ;;
  add ctx s3 phase3_eth.

(** [_receipt_ok] of this script, the same code as in the legacy script;
    receipts and their logs have the shape of [Legacy.Receipt]. *)
Definition _receipt_ok (receipt : Legacy.Receipt) : result bool :=
  match Legacy.rc_status receipt with
  | Legacy.JNull => Ok false
  | Legacy.JStr s => v <- int16 s ;; Ok (v =? 1)
  | Legacy.JInt n => Ok (n =? 1)
  | Legacy.JBool b => Ok b
  end.

(** A row of [_sum_ticketbroker_redeems_in_receipt]: sender, recipient and
    amount of one [WinningTicketRedeemed] log. *)
Definition Redeem : Type := (str * str * Z)%type.

(** The three [continue] guards of the redeem loop, as one test. *)
Definition redeem_selected (log : Legacy.Log) : bool :=
  str_eqb (_lower_addr (or_default (Legacy.log_address log) []))
          (_lower_addr TICKETBROKER)
  && match Legacy.log_topics log with
     | [] => false
     | t0 :: _ => str_eqb (_lower_addr t0) (_lower_addr WINNING_TICKET_REDEEMED_TOPIC0)
     end
  && (3 <=? length (Legacy.log_topics log))%nat.

(** The body of the redeem loop once a log has passed the guards. *)
Definition decode_redeem (log : Legacy.Log) : result Redeem :=
  let sender := txt "0x" ++ lower (last_n 40 (nth 1 (Legacy.log_topics log) [])) in
  let recipient := txt "0x" ++ lower (last_n 40 (nth 2 (Legacy.log_topics log) [])) in
  amount_wei <- int16 (or_default (Legacy.log_data log) (txt "0x0")) ;;
  Ok (sender, recipient, amount_wei).

Fixpoint redeems_loop (logs : list Legacy.Log) (total : Z) (rows : list Redeem)
  : result (Z * list Redeem) :=
  match logs with
  | [] => Ok (total, rows)
  | log :: rest =>
      if negb (str_eqb (_lower_addr (or_default (Legacy.log_address log) []))
                       (_lower_addr TICKETBROKER))
      then redeems_loop rest total rows
      else
        match Legacy.log_topics log with
        | [] => redeems_loop rest total rows
        | t0 :: _ =>
            if negb (str_eqb (_lower_addr t0)
                             (_lower_addr WINNING_TICKET_REDEEMED_TOPIC0))
            then redeems_loop rest total rows
            else if (length (Legacy.log_topics log) <? 3)%nat
            then redeems_loop rest total rows
            else
              r <- decode_redeem log ;;
              redeems_loop rest (total + snd r) (rows ++ [r])
        end
  end.

Definition _sum_ticketbroker_redeems_in_receipt (receipt : Legacy.Receipt)
  : result (Z * list Redeem) :=
  redeems_loop (Legacy.rc_logs receipt) 0 [].

(** [for sender, _recipient, _amt in rows: if ... : raise] of [main] *)
Fixpoint check_senders (label tx_hash expected : str) (rows : list Redeem)
  : result unit :=
  match rows with
  | [] => Ok tt
  | (sender, _, _) :: rest =>
      if negb (str_eqb (_lower_addr sender) (_lower_addr expected)) then
        Raise (RuntimeError (txt "unexpected sender in " ++ label
                             ++ txt " TicketBroker tx " ++ tx_hash ++ txt ": " ++ sender))
      else check_senders label tx_hash expected rest
  end.

Section TicketRuns.

Variable _get_receipt : str -> result Legacy.Receipt.

(** The loops 2), 3) and 4) of [main] over a list of ticket transactions;
    [label] is [manual], [Dec31] or [Jan22] as the messages spell it. *)
Fixpoint ticket_total (label expected : str) (tx_hashes : list str) (total_wei : Z)
  : result Z :=
  match tx_hashes with
  | [] => Ok total_wei
  | tx_hash :: rest =>
      rec <- _get_receipt tx_hash ;;
      ok <- _receipt_ok rec ;;
      if negb ok then
        Raise (RuntimeError (label ++ txt " TicketBroker tx failed: " ++ tx_hash))
      else
        sr <- _sum_ticketbroker_redeems_in_receipt rec ;;
        _ <- check_senders label tx_hash expected (snd sr) ;;
        ticket_total label expected rest (total_wei + fst sr)
  end.

Definition manual_total_wei : result Z :=
  ticket_total (txt "manual") BACKEND_PAYOUT_WALLET MANUAL_TICKETBROKER_TXS 0.

Definition dec31_total_wei : result Z :=
  ticket_total (txt "Dec31") TICKET_SENDER_DEC31_JAN22 DEC31_TICKETBROKER_TXS 0.

Definition jan22_total_wei : result Z :=
  ticket_total (txt "Jan22") TICKET_SENDER_DEC31_JAN22 JAN22_TICKETBROKER_TXS 0.

End TicketRuns.

(** The hashes read by [_load_phase3_direct_transfer_txhashes]: the
    [tx_hash] cell of each row ([None] when the row has none), stripped,
    the empty ones left out. *)
Fixpoint read_hashes (cells : list (option str)) : list str :=
  match cells with
  | [] => []
  | c :: rest =>
      match strip (or_default c []) with
      | [] => read_hashes rest
      | h => h :: read_hashes rest
      end
  end.

(** "De-dupe while preserving order": [seen] holds the lower-cased hashes
    met so far. *)
Fixpoint dedupe_loop (txs seen out : list str) : list str :=
  match txs with
  | [] => out
  | h :: rest =>
      let k := lower h in
      if existsb (str_eqb k) seen then dedupe_loop rest seen out
      else dedupe_loop rest (k :: seen) (out ++ [h])
  end.

(** [fieldnames] is the header of the CSV file ([None] for an empty file),
    [cells] the [tx_hash] column. *)
Definition _load_phase3_direct_transfer_txhashes
  (path : str) (fieldnames : option (list str)) (cells : list (option str))
  : result (list str) :=
  if existsb (str_eqb (txt "tx_hash"))
       (match fieldnames with Some f => f | None => [] end)
  then Ok (dedupe_loop (read_hashes cells) [] [])
  else Raise (RuntimeError (txt "missing tx_hash column: " ++ path)).

(** A JSON object of a batch response, with the entries the script reads
    of it: [status] where it stands for a receipt, [from] and [value] where
    it stands for a transaction. *)
Record Obj : Type := mkObj {
  o_status : Legacy.json;
  o_from : option str;
  o_value : option str
}.

(** An item of a batch response: [int(item["id"])] and its [result], [None]
    when it is null or missing.  An item without an integer id is outside
    the model. *)
Record Item : Type := mkItem {
  item_id : Z;
  item_result : option Obj
}.

Definition as_receipt (o : Obj) : Legacy.Receipt :=
  Legacy.mkReceipt (o_status o) None None None [].

(** [by_id.get(k)] after [for item in resp_items: by_id[int(item["id"])] = item]:
    the last item with the id. *)
Fixpoint by_id_get (k : Z) (resp_items : list Item) : option Item :=
  match resp_items with
  | [] => None
  | item :: rest =>
      match by_id_get k rest with
      | Some later => Some later
      | None => if item_id item =? k then Some item else None
      end
  end.

Record DirectTransferResult : Type := mkDirectTransferResult {
  tx_count : Z;
  dt_total_wei : Z
}.

(** The second [for j, tx_hash in enumerate(chunk)] loop, from position [j]. *)
Fixpoint check_chunk (resp_items : list Item) (j : nat) (chunk : list str)
  (total_wei ok_count : Z) : result (Z * Z) :=
  match chunk with
  | [] => Ok (total_wei, ok_count)
  | tx_hash :: rest =>
      let tx_id := Z.of_nat j * 2 in
      let rec_id := Z.of_nat j * 2 + 1 in
      let tx_item := by_id_get tx_id resp_items in
      let rec_item := by_id_get rec_id resp_items in
      match match tx_item with Some i => item_result i | None => None end with
      | None => Raise (RuntimeError (txt "tx not found: " ++ tx_hash))
      | Some tx =>
          match match rec_item with Some i => item_result i | None => None end with
          | None => Raise (RuntimeError (txt "receipt not found: " ++ tx_hash))
          | Some receipt =>
              ok <- _receipt_ok (as_receipt receipt) ;;
              if negb ok then
                Raise (RuntimeError (txt "tx failed (status!=1): " ++ tx_hash))
              else
                let from_addr := _lower_addr (or_default (o_from tx) []) in
                if negb (str_eqb from_addr (_lower_addr BACKEND_PAYOUT_WALLET)) then
                  Raise (RuntimeError (txt "unexpected from for direct payout tx: "
                                       ++ tx_hash ++ txt ": " ++ from_addr))
                else
                  value_wei <- int16 (or_default (o_value tx) (txt "0x0")) ;;
                  check_chunk resp_items (S j) rest (total_wei + value_wei) (ok_count + 1)
          end
      end
  end.

Definition batch_size : nat := 75.

(** [tx_hashes[start : start + batch_size]] for [start] in
    [range(0, len(tx_hashes), batch_size)]; [fuel] bounds the number of
    slices, and the length of the list is enough. *)
Fixpoint batches (fuel : nat) (tx_hashes : list str) : list (list str) :=
  match fuel with
  | O => []
  | S fuel' =>
      match tx_hashes with
      | [] => []
      | _ :: _ =>
          firstn batch_size tx_hashes :: batches fuel' (skipn batch_size tx_hashes)
      end
  end.

Section Direct.

(** [_curl_rpc_batch] as the provider answers the [n]-th batch, whose
    payloads ask for the transaction and the receipt of each hash of the
    chunk under the ids [2j] and [2j + 1]. *)
Variable _curl_rpc_batch : nat -> list str -> result (list Item).

Fixpoint direct_loop (n : nat) (chunks : list (list str)) (total_wei ok_count : Z)
  : result (Z * Z) :=
  match chunks with
  | [] => Ok (total_wei, ok_count)
  | chunk :: rest =>
      resp_items <- _curl_rpc_batch n chunk ;;
      r <- check_chunk resp_items 0 chunk total_wei ok_count ;;
      direct_loop (S n) rest (fst r) (snd r)
  end.

Definition _sum_direct_eth_transfers_from_txhashes (tx_hashes : list str)
  : result DirectTransferResult :=
  r <- direct_loop 0 (batches (length tx_hashes) tx_hashes) 0 0 ;;
  Ok (mkDirectTransferResult (snd r) (fst r)).

End Direct.

(** What the loop has checked of the hash at position [j] of a batch before
    it adds [value_wei]: both results are there, the receipt succeeded and
    the sender is the backend wallet. *)
Definition direct_ok (resp_items : list Item) (j : nat) (value_wei : Z) : Prop :=
  exists tx_item tx rec_item receipt,
    by_id_get (Z.of_nat j * 2) resp_items = Some tx_item
    /\ item_result tx_item = Some tx
    /\ by_id_get (Z.of_nat j * 2 + 1) resp_items = Some rec_item
    /\ item_result rec_item = Some receipt
    /\ _receipt_ok (as_receipt receipt) = Ok true
    /\ _lower_addr (or_default (o_from tx) []) = BACKEND_PAYOUT_WALLET
    /\ int16 (or_default (o_value tx) (txt "0x0")) = Ok value_wei.

(** [l] with some elements left out, the others in their order. *)
Inductive subseq : list str -> list str -> Prop :=
| subseq_nil : subseq [] []
| subseq_skip (x : str) (l l' : list str) : subseq l l' -> subseq l (x :: l')
| subseq_keep (x : str) (l l' : list str) : subseq l l' -> subseq (x :: l) (x :: l').

End Payout.

(* ================================================================== *)
(** * verify_usdc_treasury.py *)

Module Usdc.

Import Py PyDecimal.
Local Open Scope py_scope.

(** [getcontext().prec = 60] *)
Definition ctx : context := default_context 60.

Definition TREASURY : str := txt "0x04e334ff13c71488094e24f4fab53a8fafe2f9bb".

Record Token : Type := mkToken {
  symbol : str;
  address : str;
  token_decimals : Z
}.

Definition USDC : Token :=
  mkToken (txt "USDC") (txt "0xaf88d065e77c8cc2239327c5edb3a432268e5831") 6.

Definition USDC_E : Token :=
  mkToken (txt "USDC.e") (txt "0xff970a61a04b1ca14834a43f5de4533ebddb5cc8") 6.

Definition TOKENS : list Token := [USDC; USDC_E].

Definition TRANSFER_TOPIC0 : str :=
  txt "0xddf252ad1be2c89b69c2b068fc378daa952ba7f163c4a11628f55a4df523b3ef".

(** [DOC_SNAPSHOT_UTC], 2025-11-07 23:59:59 UTC, in seconds since the epoch *)
Definition DOC_SNAPSHOT_UTC : Z := 1762559999.

Definition _topic_addr (addr : str) : result str :=
  let a := lower addr in
  if negb (startswith (txt "0x") a) || negb (length a =? 42)%nat then Raise ValueError
  else Ok (txt "0x" ++ repeat "0"%char 24 ++ skipn 2 a).

Definition _decode_topic_addr (topic : str) : result str :=
  let t := lower topic in
  if negb (startswith (txt "0x") t) || negb (length t =? 66)%nat then Raise ValueError
  else Ok (txt "0x" ++ last_n 40 t).

Definition _dec (v : Z) (decimals : Z) : result decimal :=
  div ctx (of_Z v) (of_Z (10 ^ decimals)).

(** A log as [eth_getLogs] returns it, with the entries the script reads. *)
Record RawLog : Type := mkRawLog {
  transactionHash : str;
  logIndex : str;
  blockNumber : str;
  topics : list str;
  data : str
}.

Definition log_key (l : RawLog) : str * str :=
  (lower (transactionHash l), lower (logIndex l)).

Definition key_eqb (a b : str * str) : bool :=
  str_eqb (fst a) (fst b) && str_eqb (snd a) (snd b).

(** [d[k] = v] on a Python dict, which keeps the position of a key that is
    already present and appends a new one. *)
Fixpoint dict_set (k : str * str) (v : RawLog) (d : list ((str * str) * RawLog))
  : list ((str * str) * RawLog) :=
  match d with
  | [] => [(k, v)]
  | (k', v') :: r => if key_eqb k k' then (k, v) :: r else (k', v') :: dict_set k v r
  end.

(** What holds of the dict while logs are merged into it: the keys are
    pairwise different, every entry sits under the key of its log, and
    every log comes from the lists merged so far. *)
Definition merged_ok (src : list RawLog) (d : list ((str * str) * RawLog)) : Prop :=
  NoDup (map fst d)
  /\ (forall e, In e d -> fst e = log_key (snd e) /\ In (snd e) src).

(** The de-duplication at the end of [_fetch_token_transfers]. *)
Definition merge_logs (out_logs in_logs : list RawLog) : list RawLog :=
  let merged := fold_left (fun m l => dict_set (log_key l) l m) out_logs [] in
  let merged := fold_left (fun m l => dict_set (log_key l) l m) in_logs merged in
  map snd merged.

Record Transfer : Type := mkTransfer {
  token_symbol : str;
  token_address : str;
  tx_hash : str;
  block_number : Z;
  timestamp_utc : Z;
  log_index : Z;
  from_addr : str;
  to_addr : str;
  direction : str;
  amount_raw : Z;
  amount : decimal
}.

Definition direction_of (from_addr to_addr : str) : str :=
  if str_eqb from_addr TREASURY && str_eqb to_addr TREASURY then txt "self"
  else if str_eqb from_addr TREASURY then txt "out"
  else if str_eqb to_addr TREASURY then txt "in"
  else txt "other".

Section Chain.

(** [eth_getLogs] for an address and a topic filter ([None] is a wildcard),
    and the timestamp of a block. *)
Variable eth_getLogs : str -> list (option str) -> result (list RawLog).
Variable _eth_get_block_timestamp : Z -> result Z.

Definition _fetch_token_transfers (token : Token) (treasury : str)
  : result (list RawLog) :=
  let addr := address token in
  from_topic <- _topic_addr treasury ;;
  to_topic <- _topic_addr treasury ;;
  out_logs <- eth_getLogs addr [Some TRANSFER_TOPIC0; Some from_topic] ;;
  in_logs <- eth_getLogs addr [Some TRANSFER_TOPIC0; None; Some to_topic] ;;
  Ok (merge_logs out_logs in_logs).

(** The body of the loop of [main] that turns a raw log into a [Transfer].
    The timestamp is kept in seconds; the script carries it as ISO text. *)
Definition transfer_of_log (token : Token) (l : RawLog) : result Transfer :=
  bn <- int16 (blockNumber l) ;;
  ts <- _eth_get_block_timestamp bn ;;
  let txh := lower (transactionHash l) in
  li <- int16 (logIndex l) ;;
  f <- match topics l with
       | _ :: t1 :: _ => _decode_topic_addr t1
       | _ => Raise IndexError
       end ;;
  t <- match topics l with
       | _ :: _ :: t2 :: _ => _decode_topic_addr t2
       | _ => Raise IndexError
       end ;;
  amount_raw <- int16 (data l) ;;
  amt <- _dec amount_raw (token_decimals token) ;;
  Ok (mkTransfer (symbol token) (address token) txh bn ts li f t
        (direction_of f t) amount_raw amt).

(** The transfers of a token, as [main] builds them.  [main] first reads
    the timestamps of the blocks of all the logs, in increasing block
    order, and then decodes the logs; here the timestamp of a block is read
    when its log is decoded.  A run that returns gives the same list
    either way; when several steps would raise, the exception that comes
    first may be another one. *)
Definition token_transfers (token : Token) : result (list Transfer) :=
  raw_logs <- _fetch_token_transfers token TREASURY ;;
  mapM (transfer_of_log token) raw_logs.

End Chain.

(** The counters of the per-token loop of [main]. *)
Record Totals : Type := mkTotals {
  tin_raw : Z;
  tout_raw : Z;
  tin_snapshot_raw : Z;
  tout_snapshot_raw : Z;
  out_count : Z;
  out_count_snapshot : Z;
  in_count : Z;
  in_count_snapshot : Z
}.

Definition totals0 : Totals := mkTotals 0 0 0 0 0 0 0 0.

(** One pass of [for t in transfers] for the token [token_symbol]. *)
Definition add_transfer (sym : str) (acc : Totals) (t : Transfer) : Totals :=
  if negb (str_eqb (token_symbol t) sym) then acc
  else
    let is_snapshot := timestamp_utc t <=? DOC_SNAPSHOT_UTC in
    if str_eqb (direction t) (txt "in") then
      mkTotals (tin_raw acc + amount_raw t) (tout_raw acc)
        (if is_snapshot then tin_snapshot_raw acc + amount_raw t else tin_snapshot_raw acc)
        (tout_snapshot_raw acc) (out_count acc) (out_count_snapshot acc)
        (in_count acc + 1)
        (if is_snapshot then in_count_snapshot acc + 1 else in_count_snapshot acc)
    else if str_eqb (direction t) (txt "out") then
      mkTotals (tin_raw acc) (tout_raw acc + amount_raw t)
        (tin_snapshot_raw acc)
        (if is_snapshot then tout_snapshot_raw acc + amount_raw t else tout_snapshot_raw acc)
        (out_count acc + 1)
        (if is_snapshot then out_count_snapshot acc + 1 else out_count_snapshot acc)
        (in_count acc) (in_count_snapshot acc)
    else acc.

Definition token_totals (sym : str) (transfers : list Transfer) : Totals :=
  fold_left (add_transfer sym) transfers totals0.




(** A row of [outflows_by_recipient]; the key of the dict is
    [(token_symbol, recipient)]. *)
Record Outflow : Type := mkOutflow {
  of_token_symbol : str;
  of_token_address : str;
  recipient : str;
  tx_count_total : Z;
  amount_total_raw : Z;
  tx_count_upto_doc_snapshot : Z;
  amount_upto_doc_snapshot_raw : Z
}.

(** [r = d.setdefault(key, fresh)] followed by updates of [r] in place:
    the row under [key] is updated where it stands, a new key is appended. *)
Fixpoint bump (key : str * str) (fresh : Outflow) (upd : Outflow -> Outflow)
  (d : list ((str * str) * Outflow)) : list ((str * str) * Outflow) :=
  match d with
  | [] => [(key, upd fresh)]
  | (k, r) :: rest =>
      if key_eqb key k then (k, upd r) :: rest
      else (k, r) :: bump key fresh upd rest
  end.

(** What one pass of [for t in transfers] does to [outflows_by_recipient]. *)
Definition add_outflow (token : Token) (d : list ((str * str) * Outflow)) (t : Transfer)
  : list ((str * str) * Outflow) :=
  if negb (str_eqb (token_symbol t) (symbol token)) then d
  else
    let is_snapshot := timestamp_utc t <=? DOC_SNAPSHOT_UTC in
    if str_eqb (direction t) (txt "in") then d
    else if str_eqb (direction t) (txt "out") then
      bump (symbol token, to_addr t)
        (mkOutflow (symbol token) (address token) (to_addr t) 0 0 0 0)
        (fun r =>
           mkOutflow (of_token_symbol r) (of_token_address r) (recipient r)
             (tx_count_total r + 1) (amount_total_raw r + amount_raw t)
             (if is_snapshot then tx_count_upto_doc_snapshot r + 1
              else tx_count_upto_doc_snapshot r)
             (if is_snapshot then amount_upto_doc_snapshot_raw r + amount_raw t
              else amount_upto_doc_snapshot_raw r))
        d
    else d.

(** [list(outflows_by_recipient.values())] after the loop over the tokens. *)
Definition outflows_by_recipient (tokens : list Token) (transfers : list Transfer)
  : list Outflow :=
  map snd
    (fold_left (fun d token => fold_left (add_outflow token) transfers d) tokens []).

(** The rows of a token. *)
Definition outflows_of (sym : str) (rows : list Outflow) : list Outflow :=
  filter (fun r => str_eqb (of_token_symbol r) sym) rows.

(** A row sits under the key made of its token symbol and its recipient. *)
Definition keyed (e : (str * str) * Outflow) : Prop :=
  fst e = (of_token_symbol (snd e), recipient (snd e)).

(** Sum of a figure [g] over the rows of the token [sym] in the dict. *)
Definition outflow_sum (g : Outflow -> Z) (sym : str) (d : list ((str * str) * Outflow))
  : Z :=
  fold_right Z.add 0
    (map (fun e => if str_eqb (of_token_symbol (snd e)) sym then g (snd e) else 0) d).

(** Sum of a figure [inc] over the transfers of a token sent out of the
    treasury. *)
Definition sum_out (inc : Transfer -> Z) (sym : str) (transfers : list Transfer) : Z :=
  fold_right Z.add 0
    (map inc
       (filter (fun t => str_eqb (token_symbol t) sym && str_eqb (direction t) (txt "out"))
               transfers)).

End Usdc.

(* ================================================================== *)
(** * [_curl_rpc], the same code in the three scripts *)

Module Rpc.

Import Py.

(** What one pass of the [try] block comes to: an exception that
    [except Exception] catches, with its [str()], or a decoded response
    with its [error] entry as [json.dumps] prints it and its [result]
    entry, each when present. *)
Inductive attempt (A : Type) : Type :=
| Failed (err : str)
| Response (error : option str) (result : option A).

Arguments Failed {A} err.
Arguments Response {A} error result.

(** The seconds of [time.sleep(min(2.0**attempt, 12.0))]; [2.0**attempt]
    is out of the range of a float from 1024 on. *)
Definition backoff (attempt_no : nat) : result Z :=
  if (1024 <=? attempt_no)%nat then Raise OverflowError
  else Ok (Z.min (2 ^ Z.of_nat attempt_no) 12).

(** [str(n)] *)
Definition str_of_nat (n : nat) : str :=
  list_ascii_of_string (NilEmpty.string_of_uint (Nat.to_uint n)).

(** [f"{last_err}"] *)
Definition err_text (last_err : option str) : str :=
  match last_err with
  | Some e => e
  | None => txt "None"
  end.

(** [str(e)] of the exception the [try] block ends with, if any. *)
Definition caught {A : Type} (a : attempt A) : option str :=
  match a with
  | Failed e => Some e
  | Response (Some error) _ => Some error
  | Response None None => Some (txt "'result'")
  | Response None (Some _) => None
  end.

(** The [for attempt in range(retries)] loop with [todo] passes left;
    [reply n] is what the [n]-th request comes to, [slept] the seconds
    slept so far, returned with the outcome. *)
Fixpoint curl_loop {A : Type} (reply : nat -> attempt A) (method : str) (retries : nat)
  (attempt_no todo : nat) (last_err : option str) (slept : list Z)
  : result A * list Z :=
  match todo with
  | O =>
      (Raise (RuntimeError (txt "RPC failed after " ++ str_of_nat retries
                            ++ txt " attempts: " ++ method ++ txt ": "
                            ++ err_text last_err)),
       slept)
  | S todo' =>
      match reply attempt_no with
      | Response None (Some r) => (Ok r, slept)
      | a =>
          match backoff attempt_no with
          | Raise x => (Raise x, slept)
          | Ok seconds =>
              curl_loop reply method retries (S attempt_no) todo'
                (caught a) (slept ++ [seconds])
          end
      end
  end.

Definition _curl_rpc {A : Type} (reply : nat -> attempt A) (method : str) (retries : nat)
  : result A * list Z :=
  curl_loop reply method retries 0 retries None [].

(** The message [_curl_rpc] ends with when every attempt has failed. *)
Definition failure_message (method : str) (retries : nat) (last_err : str) : str :=
  txt "RPC failed after " ++ str_of_nat retries ++ txt " attempts: " ++ method
  ++ txt ": " ++ last_err.

End Rpc.

(* ================================================================== *)
(** * Facts about the Python primitives *)

Import Py PyDecimal.
Local Open Scope py_scope.

Lemma lower_char_idem (c : ascii) : lower_char (lower_char c) = lower_char c.
Proof. destruct c as [[] [] [] [] [] [] [] []]; reflexivity. Qed.

Lemma lower_idem (s : str) : lower (lower s) = lower s.
Proof.
  unfold lower. rewrite map_map. apply map_ext. intro c. apply lower_char_idem.
Qed.

Lemma lower_length (s : str) : length (lower s) = length s.
Proof. unfold lower. apply length_map. Qed.

Lemma lower_app (a b : str) : lower (a ++ b) = lower a ++ lower b.
Proof. unfold lower. apply map_app. Qed.

Lemma str_eqb_eq (a b : str) : str_eqb a b = true <-> a = b.
Proof.
  revert b. induction a as [|x a IH]; intros [|y b]; simpl; split; intro H;
    try reflexivity; try discriminate.
  - apply andb_true_iff in H. destruct H as [H1 H2].
    apply Ascii.eqb_eq in H1. apply IH in H2. now subst.
  - inversion H; subst. rewrite Ascii.eqb_refl. simpl. now apply IH.
Qed.

Lemma str_eqb_refl (a : str) : str_eqb a a = true.
Proof. now apply str_eqb_eq. Qed.

Lemma str_eqb_neq (a b : str) : str_eqb a b = false <-> a <> b.
Proof.
  split; intro H.
  - intro E. apply str_eqb_eq in E. congruence.
  - destruct (str_eqb a b) eqn:E; [apply str_eqb_eq in E; contradiction | reflexivity].
Qed.

Lemma startswith_app (p s : str) : startswith p s = true -> p ++ skipn (length p) s = s.
Proof.
  revert s. induction p as [|a p IH]; intros s H; simpl in *.
  - reflexivity.
  - destruct s as [|b s]; [discriminate|].
    apply andb_true_iff in H. destruct H as [H1 H2].
    apply Ascii.eqb_eq in H1. subst. simpl. f_equal. now apply IH.
Qed.

Lemma startswith_prefix (p s : str) : startswith p (p ++ s) = true.
Proof.
  induction p as [|a p IH]; simpl; [reflexivity|].
  rewrite Ascii.eqb_refl. exact IH.
Qed.

(* ================================================================== *)
(** * Address normalisation *)

(** C8, as stated, fails: the legacy normaliser only adds a missing [0x]
    and never pads, truncates or checks the text, so a three-character
    input gives a five-character result; the normaliser of the payout
    script does not even add the prefix. *)
Lemma lower_addr_not_always_42 :
  txt "abc" <> []
  /\ Legacy._lower_addr (txt "abc") = txt "0xabc"
  /\ length (Legacy._lower_addr (txt "abc")) <> 42%nat
  /\ Payout._lower_addr (txt "ABC") = txt "abc".
Proof. repeat split; try discriminate; reflexivity. Qed.

(** C8, amended: the legacy normaliser returns the stripped, lower-cased
    text, with [0x] put in front when the text is not empty and lacks it;
    the result is lower case, starts with [0x] unless it is empty, and has
    42 characters exactly when the stripped text is a 42-character text with
    the prefix or a 40-character text without it.  The normaliser of the
    payout script returns the stripped, lower-cased text itself. *)
Theorem lower_addr_normal_form (addr : str) :
  let a := lower (strip addr) in
  Legacy._lower_addr addr
    = (if startswith (txt "0x") a then a
       else match a with [] => [] | _ :: _ => txt "0x" ++ a end)
  /\ (a <> [] -> startswith (txt "0x") (Legacy._lower_addr addr) = true)
  /\ lower (Legacy._lower_addr addr) = Legacy._lower_addr addr
  /\ (length (Legacy._lower_addr addr) = 42%nat <->
      (startswith (txt "0x") a = true /\ length a = 42%nat)
      \/ (startswith (txt "0x") a = false /\ length a = 40%nat))
  /\ Payout._lower_addr addr = a.
Proof.
  intro a.
  assert (Hl : lower a = a) by (subst a; apply lower_idem).
  assert (Hform : Legacy._lower_addr addr
                  = (if startswith (txt "0x") a then a
                     else match a with [] => [] | _ :: _ => txt "0x" ++ a end)).
  { unfold Legacy._lower_addr. fold a.
    destruct a as [|c r] eqn:Ea; [reflexivity|].
    destruct (startswith (txt "0x") (c :: r)) eqn:Hs.
    - rewrite andb_true_l.
      destruct (length (c :: r) =? 42)%nat; [reflexivity|].
      apply (startswith_app (txt "0x")) in Hs. exact Hs.
    - reflexivity. }
  rewrite Hform. repeat split.
  - intro Hne. destruct (startswith (txt "0x") a) eqn:Hs; [exact Hs|].
    destruct a; [contradiction|]. apply (startswith_prefix (txt "0x")).
  - destruct (startswith (txt "0x") a); [exact Hl|].
    destruct a as [|c r]; [reflexivity|].
    rewrite lower_app. rewrite Hl. reflexivity.
  - intro H. destruct (startswith (txt "0x") a) eqn:Hs.
    + left. split; [reflexivity | exact H].
    + right. split; [reflexivity|].
      destruct a as [|c r]; [discriminate H|].
      rewrite length_app in H. simpl in H. simpl. lia.
  - intros [[Hs H] | [Hs H]]; rewrite Hs.
    + exact H.
    + destruct a as [|c r]; [discriminate H|].
      rewrite length_app. simpl in *. lia.
Qed.

(* ================================================================== *)
(** * [int(s, 16)] on hexadecimal digits *)

Lemma hex_char_plain (c : ascii) :
  is_hex c = true ->
  is_cspace c = false /\ is_space c = false /\ is_underscore c = false
  /\ (code c =? 43) = false /\ (code c =? 45) = false
  /\ (code c =? 120) = false /\ (code c =? 88) = false.
Proof.
  destruct c as [[] [] [] [] [] [] [] []]; vm_compute; intro H;
    try discriminate H; repeat split.
Qed.

Lemma hex_digit_range (c : ascii) (d : Z) : hex_digit c = Some d -> 0 <= d < 16.
Proof.
  destruct c as [[] [] [] [] [] [] [] []]; intro H; vm_compute in H;
    try discriminate H; inversion H; subst; lia.
Qed.

Lemma scan16_hex (s : str) :
  forallb is_hex s = true ->
  forall (n : nat) (acc : Z),
    scan16 s false n acc = Some (fold_left hex_step s acc, (n + length s)%nat, []).
Proof.
  induction s as [|c s IH]; intros H n acc; simpl.
  - now rewrite Nat.add_0_r.
  - simpl in H. apply andb_true_iff in H. destruct H as [Hc Hs].
    destruct (hex_char_plain c Hc) as (_ & _ & Hu & _). rewrite Hu.
    unfold is_hex in Hc. unfold hex_step at 2.
    destruct (hex_digit c) as [d|]; [|discriminate].
    rewrite (IH Hs). do 2 f_equal. f_equal. lia.
Qed.

(** On a non-empty run of hexadecimal digits [int(s, 16)] is its value. *)
Lemma int16_hex (s : str) :
  s <> [] -> forallb is_hex s = true -> int16 s = Ok (hex_value s).
Proof.
  intros Hne H. destruct s as [|c s]; [contradiction|].
  pose proof H as H0. simpl in H0. apply andb_true_iff in H0. destruct H0 as [Hc Hs].
  destruct (hex_char_plain c Hc) as (Hsp & _ & Hu & Hplus & Hminus & Hx & HX).
  unfold int16. simpl lstrip_c. rewrite Hsp.
  unfold split_sign. rewrite Hplus, Hminus.
  assert (Hskip : skip_0x (c :: s) = c :: s).
  { unfold skip_0x. destruct s as [|x r]; [reflexivity|].
    simpl in Hs. apply andb_true_iff in Hs. destruct Hs as [Hxh _].
    destruct (hex_char_plain x Hxh) as (_ & _ & _ & _ & _ & Hx' & HX').
    rewrite Hx', HX'. rewrite andb_false_r. reflexivity. }
  rewrite Hskip. rewrite Hu. rewrite (scan16_hex _ H). reflexivity.
Qed.

(** The same behind a [0x] prefix, as JSON-RPC quantities and data come. *)
Lemma int16_0x_hex (s : str) :
  s <> [] -> forallb is_hex s = true -> int16 (txt "0x" ++ s) = Ok (hex_value s).
Proof.
  intros Hne H. destruct s as [|c s]; [contradiction|].
  pose proof H as H0. simpl in H0. apply andb_true_iff in H0. destruct H0 as [Hc Hs].
  destruct (hex_char_plain c Hc) as (Hsp & _ & Hu & _).
  unfold int16. cbn [txt list_ascii_of_string app lstrip_c].
  change (is_cspace "0"%char) with false. cbv iota.
  unfold split_sign. change (code "0"%char =? 43) with false.
  change (code "0"%char =? 45) with false. cbv iota.
  unfold skip_0x. change (code "0"%char =? 48) with true.
  change (code "x"%char =? 120) with true. cbv iota. simpl andb. cbv iota.
  rewrite Hu. cbv iota. rewrite Hu. rewrite (scan16_hex _ H). reflexivity.
Qed.

Lemma hex_value_nonneg (s : str) (acc : Z) :
  0 <= acc -> 0 <= fold_left hex_step s acc < (acc + 1) * 16 ^ Z.of_nat (length s).
Proof.
  revert acc. induction s as [|c s IH]; intros acc Hacc.
  - simpl. lia.
  - cbn [fold_left length].
    assert (Hd : 0 <= hex_step acc c < acc * 16 + 16).
    { unfold hex_step. destruct (hex_digit c) as [d|] eqn:E.
      - apply hex_digit_range in E. lia.
      - lia. }
    destruct (IH (hex_step acc c) (proj1 Hd)) as [H1 H2]. split; [exact H1|].
    eapply Z.lt_le_trans; [exact H2|].
    rewrite Nat2Z.inj_succ, Z.pow_succ_r by lia.
    assert (0 < 16 ^ Z.of_nat (length s)) by (apply Z.pow_pos_nonneg; lia).
    nia.
Qed.

Lemma hex_value_range (s : str) : 0 <= hex_value s < 16 ^ Z.of_nat (length s).
Proof.
  pose proof (hex_value_nonneg s 0 (Z.le_refl 0)) as H.
  unfold hex_value. lia.
Qed.

Lemma hex_bytes_value (n : nat) :
  forall (s : str) (acc : Z),
    length s = (2 * n)%nat ->
    fold_left hex_step s acc = fold_left (fun a b => a * 256 + b) (hex_bytes s) acc
    /\ length (hex_bytes s) = n.
Proof.
  induction n as [|n IH]; intros s acc Hlen.
  - destruct s; [split; reflexivity | discriminate].
  - destruct s as [|a [|b r]]; simpl in Hlen; try lia.
    assert (Hr : length r = (2 * n)%nat) by lia.
    cbn [hex_bytes fold_left length].
    destruct (IH r (hex_step (hex_step acc a) b) Hr) as [E L].
    rewrite E, L. split; [|reflexivity]. f_equal. unfold hex_step. lia.
Qed.

(** A run of [2n] hexadecimal digits is the big-endian unsigned integer of
    the [n] bytes it encodes. *)
Lemma hex_value_be_uint (n : nat) (s : str) :
  length s = (2 * n)%nat ->
  hex_value s = be_uint (hex_bytes s) /\ length (hex_bytes s) = n.
Proof.
  intro H. unfold hex_value, be_uint. now apply hex_bytes_value.
Qed.

(** Dropping [2n] digits drops the [n] bytes they encode. *)
Lemma hex_bytes_skipn (n : nat) :
  forall s : str, hex_bytes (skipn (2 * n) s) = skipn n (hex_bytes s).
Proof.
  induction n as [|n IH]; intro s; [reflexivity|].
  replace (2 * S n)%nat with (S (S (2 * n))) by lia.
  destruct s as [|a [|b r]]; cbn [skipn hex_bytes].
  - reflexivity.
  - rewrite ?skipn_nil. reflexivity.
  - apply IH.
Qed.

Lemma hex_digit_lower (c : ascii) : hex_digit (lower_char c) = hex_digit c.
Proof. destruct c as [[] [] [] [] [] [] [] []]; reflexivity. Qed.

(** The bytes a text encodes do not depend on the case of its digits. *)
Lemma hex_bytes_lower (n : nat) :
  forall s : str, (length s <= n)%nat -> hex_bytes (lower s) = hex_bytes s.
Proof.
  induction n as [|n IH]; intros s Hs.
  - destruct s; [reflexivity | simpl in Hs; lia].
  - destruct s as [|a [|b r]]; try reflexivity.
    cbn [lower map hex_bytes]. rewrite !hex_digit_lower. f_equal.
    apply IH. simpl in Hs. lia.
Qed.

Lemma forallb_impl {A : Type} (f g : A -> bool) (l : list A) :
  (forall x, f x = true -> g x = true) -> forallb f l = true -> forallb g l = true.
Proof.
  intros Hfg H. apply forallb_forall. intros x Hx. apply Hfg.
  rewrite forallb_forall in H. now apply H.
Qed.

Lemma forallb_rev {A : Type} (f : A -> bool) (l : list A) :
  forallb f l = true -> forallb f (rev l) = true.
Proof.
  intro H. apply forallb_forall. intros x Hx. apply in_rev in Hx.
  rewrite forallb_forall in H. now apply H.
Qed.

Lemma forallb_firstn {A : Type} (f : A -> bool) (n : nat) (l : list A) :
  forallb f l = true -> forallb f (firstn n l) = true.
Proof.
  intro H. rewrite <- (firstn_skipn n l) in H. rewrite forallb_app in H.
  now apply andb_true_iff in H.
Qed.

Lemma forallb_skipn {A : Type} (f : A -> bool) (n : nat) (l : list A) :
  forallb f l = true -> forallb f (skipn n l) = true.
Proof.
  intro H. rewrite <- (firstn_skipn n l) in H. rewrite forallb_app in H.
  now apply andb_true_iff in H.
Qed.

Lemma lstrip_nospace (s : str) :
  forallb (fun c => negb (is_space c)) s = true -> lstrip s = s.
Proof.
  destruct s as [|c r]; [reflexivity|]. simpl. intro H.
  apply andb_true_iff in H. destruct H as [H _].
  apply negb_true_iff in H. now rewrite H.
Qed.

(** [strip] leaves a text without white space as it is. *)
Lemma strip_nospace (s : str) :
  forallb (fun c => negb (is_space c)) s = true -> strip s = s.
Proof.
  intro H. unfold strip, rstrip. rewrite (lstrip_nospace s H).
  rewrite (lstrip_nospace (rev s)) by now apply forallb_rev.
  apply rev_involutive.
Qed.

Lemma hex_nospace (s : str) :
  forallb is_hex s = true -> forallb (fun c => negb (is_space c)) s = true.
Proof.
  apply forallb_impl. intros c Hc.
  destruct (hex_char_plain c Hc) as (_ & Hsp & _). now rewrite Hsp.
Qed.

Lemma calldata_digits_lower (input_hex : str) :
  lower (Legacy.calldata_digits input_hex) = Legacy.calldata_digits input_hex.
Proof.
  unfold Legacy.calldata_digits.
  destruct (startswith (txt "0x") (lower (strip input_hex))).
  - unfold lower at 1. rewrite <- skipn_map. fold (lower (lower (strip input_hex))).
    now rewrite lower_idem.
  - apply lower_idem.
Qed.

(** The normaliser leaves a lower-case [0x] address of 40 digits alone. *)
Lemma lower_addr_canonical (w : str) :
  forallb is_hex w = true -> lower w = w -> length w = 40%nat ->
  Legacy._lower_addr (txt "0x" ++ w) = txt "0x" ++ w.
Proof.
  intros Hhex Hlow Hlen. unfold Legacy._lower_addr.
  rewrite strip_nospace.
  2:{ rewrite forallb_app. apply andb_true_iff. split; [reflexivity|].
      now apply hex_nospace. }
  rewrite lower_app, Hlow.
  change (lower (txt "0x")) with (txt "0x").
  change (txt "0x") with ["0"%char; "x"%char].
  cbn [app startswith length]. rewrite !Ascii.eqb_refl. cbn [andb].
  rewrite Hlen. reflexivity.
Qed.

(* ================================================================== *)
(** * Safe [execTransaction] calldata *)

Lemma decode_safe_exec_unfold (input_hex : str) :
  Legacy._decode_safe_exec_transaction input_hex =
  let h := Legacy.calldata_digits input_hex in
  if (length h <? 136)%nat then
    Raise (RuntimeError (txt "unexpected execTransaction calldata length"))
  else
    value_wei <- int16 (firstn 64 (skipn 72 h)) ;;
    Ok (Legacy.mkSafeExec
          (Legacy._lower_addr (txt "0x" ++ last_n 40 (firstn 64 (skipn 8 h))))
          value_wei).
Proof. reflexivity. Qed.

(** C7: on calldata (a text of hexadecimal digits behind an optional [0x])
    the decoder raises exactly when fewer than 4+32+32 bytes are there, and
    then it is the length fault; otherwise the destination is [0x] and the
    last 20 bytes of the first word after the selector, and the value is the
    second word read as a big-endian unsigned integer. *)
Theorem decode_safe_exec_transaction_spec (input_hex : str) :
  let h := Legacy.calldata_digits input_hex in
  forallb is_hex h = true ->
  raised (Legacy._decode_safe_exec_transaction input_hex)
    = (length h <? 2 * (4 + 32 + 32))%nat
  /\ ((length h < 2 * (4 + 32 + 32))%nat ->
      Legacy._decode_safe_exec_transaction input_hex
        = Raise (RuntimeError (txt "unexpected execTransaction calldata length")))
  /\ ((2 * (4 + 32 + 32) <= length h)%nat ->
      let to_word := firstn 64 (skipn 8 h) in
      let value_word := firstn 64 (skipn 72 h) in
      Legacy._decode_safe_exec_transaction input_hex
        = Ok (Legacy.mkSafeExec (txt "0x" ++ skipn 24 to_word)
                (be_uint (hex_bytes value_word)))
      /\ hex_bytes (skipn 24 to_word) = skipn 12 (hex_bytes to_word)
      /\ length (hex_bytes to_word) = 32%nat
      /\ length (hex_bytes value_word) = 32%nat
      /\ 0 <= be_uint (hex_bytes value_word) < 2 ^ 256).
Proof.
  intros h Hhex.
  change (2 * (4 + 32 + 32))%nat with 136%nat.
  rewrite decode_safe_exec_unfold. fold h. cbv zeta.
  destruct (length h <? 136)%nat eqn:Hlen.
  - apply Nat.ltb_lt in Hlen. cbn [raised].
    split; [reflexivity|]. split; [intros _; reflexivity|]. intro. lia.
  - apply Nat.ltb_ge in Hlen.
    set (to_word := firstn 64 (skipn 8 h)).
    set (value_word := firstn 64 (skipn 72 h)).
    assert (Lt : length to_word = 64%nat).
    { unfold to_word. rewrite length_firstn, length_skipn. lia. }
    assert (Lv : length value_word = 64%nat).
    { unfold value_word. rewrite length_firstn, length_skipn. lia. }
    assert (Hv : forallb is_hex value_word = true).
    { unfold value_word. now apply forallb_firstn, forallb_skipn. }
    assert (Ht : forallb is_hex (skipn 24 to_word) = true).
    { unfold to_word. now apply forallb_skipn, forallb_firstn, forallb_skipn. }
    assert (Hlow : lower (skipn 24 to_word) = skipn 24 to_word).
    { unfold to_word, lower. rewrite <- skipn_map, <- firstn_map, <- skipn_map.
      fold (lower h). unfold h. now rewrite calldata_digits_lower. }
    assert (Ev : int16 value_word = Ok (be_uint (hex_bytes value_word))).
    { rewrite int16_hex; [|intro E; rewrite E in Lv; discriminate | exact Hv].
      f_equal. now apply (hex_value_be_uint 32). }
    assert (Ea : Legacy._lower_addr (txt "0x" ++ last_n 40 to_word)
                 = txt "0x" ++ skipn 24 to_word).
    { unfold last_n. rewrite Lt. change (64 - 40)%nat with 24%nat.
      apply lower_addr_canonical; [exact Ht | exact Hlow |].
      rewrite length_skipn. lia. }
    rewrite Ev, Ea. cbn [bind raised].
    split; [reflexivity|]. split; [intro; lia|]. intros _.
    split; [reflexivity|]. split; [apply (hex_bytes_skipn 12)|]. split.
    + now apply (hex_value_be_uint 32).
    + split; [now apply (hex_value_be_uint 32)|].
      destruct (hex_value_be_uint 32 value_word Lv) as [E _]. rewrite <- E.
      pose proof (hex_value_range value_word) as R. rewrite Lv in R.
      change (16 ^ Z.of_nat 64) with (2 ^ 256) in R. exact R.
Qed.

(** A Safe call of 68 bytes that sends 1 wei to the gateway. *)
Lemma decode_safe_exec_transaction_witness :
  let input_hex :=
    txt "0x6a761202"
    ++ txt "0000000000000000000000008a8053c21696f27ed305a03bd1efc5d068d91d0e"
    ++ txt "0000000000000000000000000000000000000000000000000000000000000001" in
  forallb is_hex (Legacy.calldata_digits input_hex) = true
  /\ Legacy._decode_safe_exec_transaction input_hex
     = Ok (Legacy.mkSafeExec Legacy.GATEWAY 1).
Proof.
  intro input_hex.
  assert (H : forallb is_hex (Legacy.calldata_digits input_hex) = true)
    by (vm_compute; reflexivity).
  split; [exact H|].
  destruct (decode_safe_exec_transaction_spec input_hex H) as (_ & _ & Hok).
  destruct Hok as (E & _); [vm_compute; lia|].
  rewrite E. vm_compute. reflexivity.
Defined.

(* ================================================================== *)
(** * ERC-20 [Transfer] logs of a receipt *)

(** The loop with its accumulator is the in-order decoding of the selected
    logs, put behind what was collected before. *)
Lemma erc20_loop_filter (token : str) (logs : list Legacy.Log) :
  forall out : list Legacy.Erc20Transfer,
    Legacy.erc20_loop token logs out
    = (es <- mapM Legacy.decode_transfer (filter (Legacy.selected token) logs) ;;
       Ok (out ++ es)).
Proof.
  induction logs as [|log rest IH]; intro out; simpl.
  - now rewrite app_nil_r.
  - unfold Legacy.selected.
    destruct (str_eqb (Legacy._lower_addr (or_default (Legacy.log_address log) []))
                      (Legacy._lower_addr token)); simpl; [|apply IH].
    destruct (Legacy.log_topics log) as [|t0 ts] eqn:Et; simpl; [apply IH|].
    destruct (str_eqb (lower t0) Legacy.TRANSFER_TOPIC0); simpl; [|apply IH].
    destruct ts as [|t1 [|t2 ts]]; simpl; try apply IH.
    destruct (Legacy.decode_transfer log) as [e|x]; simpl; [|reflexivity].
    rewrite IH.
    destruct (mapM Legacy.decode_transfer (filter _ rest)) as [es|x]; simpl;
      [|reflexivity].
    now rewrite <- app_assoc.
Qed.

Lemma decode_topic_addr_0x (w : str) :
  length w = 64%nat ->
  Legacy._decode_topic_addr (txt "0x" ++ w) = Ok (txt "0x" ++ skipn 24 (lower w)).
Proof.
  intro L. unfold Legacy._decode_topic_addr.
  rewrite lower_app. change (lower (txt "0x")) with ["0"%char; "x"%char].
  change (txt "0x") with ["0"%char; "x"%char].
  cbn [app startswith length]. rewrite !Ascii.eqb_refl.
  rewrite lower_length, L. cbn [andb negb orb Nat.eqb].
  unfold last_n. cbn [length]. rewrite lower_length, L.
  reflexivity.
Qed.

(** Every exception of [int(s, 16)] is a [ValueError]. *)
Lemma int16_raises_ValueError (s : str) (e : exn) : int16 s = Raise e -> e = ValueError.
Proof.
  unfold int16. destruct (split_sign (lstrip_c s)) as [neg s2].
  destruct (skip_0x s2) as [|u r]; [intro H; now injection H|].
  destruct (is_underscore u); [intro H; now injection H|].
  destruct (scan16 (u :: r) false 0 0) as [[[v n] rest]|]; [|intro H; now injection H].
  destruct (n =? 0)%nat; [intro H; now injection H|].
  destruct (forallb is_cspace rest); [discriminate | intro H; now injection H].
Qed.

Lemma mapM_raise {A B : Type} (f : A -> result B) (xs : list A) (e : exn) :
  mapM f xs = Raise e -> exists x, In x xs /\ f x = Raise e.
Proof.
  induction xs as [|x xs IH]; cbn [mapM]; [discriminate|].
  destruct (f x) as [y|e0] eqn:Ex; cbn [bind].
  - destruct (mapM f xs) as [ys|e1]; cbn [bind]; [discriminate|].
    intro H. injection H as ->. destruct (IH eq_refl) as (x' & Hin & Hx').
    exists x'. split; [now right | exact Hx'].
  - intro H. injection H as ->. exists x. split; [now left | exact Ex].
Qed.

Lemma mapM_raised {A B : Type} (f : A -> result B) (xs : list A) (x : A) :
  In x xs -> raised (f x) = true -> raised (mapM f xs) = true.
Proof.
  induction xs as [|y ys IH]; intros Hin Hx; [contradiction|].
  simpl. destruct (f y) as [b|e] eqn:Ey; cbn [bind]; [|reflexivity].
  destruct Hin as [-> | Hin]; [rewrite Ey in Hx; discriminate|].
  specialize (IH Hin Hx). destruct (mapM f ys); [discriminate | reflexivity].
Qed.

Lemma decode_topic_addr_raises (topic : str) :
  raised (Legacy._decode_topic_addr topic) = true <->
  ~ (startswith (txt "0x") (lower topic) = true /\ length topic = 66%nat).
Proof.
  unfold Legacy._decode_topic_addr. cbv zeta. rewrite lower_length.
  destruct (startswith (txt "0x") (lower topic)); cbn [negb orb].
  - destruct (length topic =? 66)%nat eqn:E;
      [apply Nat.eqb_eq in E | apply Nat.eqb_neq in E]; cbn [negb raised].
    + split; [discriminate | intro H; elim H; now split].
    + split; [intros _ [_ H]; contradiction | reflexivity].
  - cbn [raised]. split; [intros _ [H _]; discriminate | reflexivity].
Qed.

(** [_decode_topic_addr] looks at the length and the first two characters
    of the topic and at nothing else. *)
Lemma decode_topic_addr_ok (topic a : str) :
  Legacy._decode_topic_addr topic = Ok a <->
  startswith (txt "0x") (lower topic) = true /\ length topic = 66%nat
  /\ a = txt "0x" ++ last_n 40 (lower topic).
Proof.
  unfold Legacy._decode_topic_addr. cbv zeta. rewrite lower_length.
  destruct (startswith (txt "0x") (lower topic)); cbn [negb orb].
  - destruct (length topic =? 66)%nat eqn:E;
      [apply Nat.eqb_eq in E | apply Nat.eqb_neq in E]; cbn [negb].
    + split.
      * intro H. injection H as <-. now repeat split.
      * intros (_ & _ & ->). reflexivity.
    + split; [discriminate | intros (_ & H & _); contradiction].
  - split; [discriminate | intros (H & _); discriminate].
Qed.

Lemma decode_transfer_raises_ValueError (log : Legacy.Log) (e : exn) :
  Legacy.decode_transfer log = Raise e -> e = ValueError.
Proof.
  unfold Legacy.decode_transfer.
  destruct (Legacy._decode_topic_addr (nth 1 (Legacy.log_topics log) [])) as [f|e1] eqn:E1;
    cbn [bind].
  2:{ intro H. injection H as <-. unfold Legacy._decode_topic_addr in E1.
      cbv zeta in E1. destruct (_ || _) in E1; [now injection E1 | discriminate]. }
  destruct (Legacy._decode_topic_addr (nth 2 (Legacy.log_topics log) [])) as [t|e2] eqn:E2;
    cbn [bind].
  2:{ intro H. injection H as <-. unfold Legacy._decode_topic_addr in E2.
      cbv zeta in E2. destruct (_ || _) in E2; [now injection E2 | discriminate]. }
  destruct (int16 _) as [v|e3] eqn:E3; cbn [bind]; [discriminate|].
  intro H. injection H as <-. now apply int16_raises_ValueError in E3.
Qed.

(** C4, as stated, fails: the guard of the loop is [len(topics) < 3], so a
    log of the token with the [Transfer] signature and four topics is
    decoded and returned, not excluded. *)
Lemma erc20_transfers_four_topics_included :
  let log :=
    Legacy.mkLog (Some Legacy.LPT)
      [Legacy.TRANSFER_TOPIC0;
       txt "0x000000000000000000000000c34b3753c164fbc3fc066fc1a46b3eee8adb33e6";
       txt "0x0000000000000000000000008a8053c21696f27ed305a03bd1efc5d068d91d0e";
       txt "0x0000000000000000000000000000000000000000000000000000000000000007"]
      (Some (txt "0x05")) in
  length (Legacy.log_topics log) = 4%nat
  /\ Legacy._erc20_transfers_in_receipt
       (Legacy.mkReceipt (Legacy.JStr (txt "0x1")) None None None [log]) Legacy.LPT
     = Ok [Legacy.mkTransfer Legacy.SAFE_WALLET Legacy.GATEWAY 5].
Proof. split; vm_compute; reflexivity. Qed.

(** C4, amended.  For every receipt and token:
    - the result is the in-order decoding of exactly those logs whose
      normalised emitting address equals the normalised token address,
      whose first topic is the [Transfer] signature in any letter case and
      which carry at least three topics;
    - a log decodes exactly when topics 1 and 2 are 66 characters long and
      start with [0x] or [0X], and [int(data, 16)] accepts the data ([0x0]
      when the data is missing or empty); the entry then holds [0x] and the
      last 40 characters of the lower-cased topics 1 and 2 as [from] and
      [to], and [int(data, 16)] as value;
    - the function raises exactly when a selected log does not decode, and
      the exception is a [ValueError];
    - for topics that are [0x] and 64 characters, [from] and [to] are [0x]
      and the last 20 of the 32 bytes the topic encodes; for data that is
      [0x] and hexadecimal digits, the value is the unsigned number they
      write, which is the big-endian reading of the bytes when the digits
      come in pairs;
    - neither the characters of a topic nor the sign of the data is
      checked: the data [-0x5] gives the value -5. *)
Theorem erc20_transfers_in_receipt_spec (receipt : Legacy.Receipt) (token : str) :
  Legacy._erc20_transfers_in_receipt receipt token
    = mapM Legacy.decode_transfer
        (filter (Legacy.selected token) (Legacy.rc_logs receipt))
  /\ (forall log : Legacy.Log,
        Legacy.selected token log = true <->
        Legacy._lower_addr (or_default (Legacy.log_address log) [])
          = Legacy._lower_addr token
        /\ (exists t0 ts, Legacy.log_topics log = t0 :: ts
                          /\ lower t0 = Legacy.TRANSFER_TOPIC0)
        /\ (3 <= length (Legacy.log_topics log))%nat)
  /\ (forall (log : Legacy.Log) (t0 w1 w2 d : str) (more : list str) (n : nat),
        Legacy.log_topics log = t0 :: (txt "0x" ++ w1) :: (txt "0x" ++ w2) :: more ->
        length w1 = 64%nat -> length w2 = 64%nat ->
        Legacy.log_data log = Some (txt "0x" ++ d) ->
        forallb is_hex d = true -> length d = (2 * S n)%nat ->
        Legacy.decode_transfer log
          = Ok (Legacy.mkTransfer (txt "0x" ++ skipn 24 (lower w1))
                  (txt "0x" ++ skipn 24 (lower w2)) (be_uint (hex_bytes d)))
        /\ hex_bytes (skipn 24 (lower w1)) = skipn 12 (hex_bytes w1)
        /\ hex_bytes (skipn 24 (lower w2)) = skipn 12 (hex_bytes w2)
        /\ 0 <= be_uint (hex_bytes d))
  /\ (forall (log : Legacy.Log) (tr : Legacy.Erc20Transfer),
        Legacy.decode_transfer log = Ok tr <->
        (startswith (txt "0x") (lower (nth 1 (Legacy.log_topics log) [])) = true
         /\ length (nth 1 (Legacy.log_topics log) []) = 66%nat)
        /\ (startswith (txt "0x") (lower (nth 2 (Legacy.log_topics log) [])) = true
            /\ length (nth 2 (Legacy.log_topics log) []) = 66%nat)
        /\ exists v : Z,
             int16 (or_default (Legacy.log_data log) (txt "0x0")) = Ok v
             /\ tr = Legacy.mkTransfer
                       (txt "0x" ++ last_n 40 (lower (nth 1 (Legacy.log_topics log) [])))
                       (txt "0x" ++ last_n 40 (lower (nth 2 (Legacy.log_topics log) [])))
                       v)
  /\ (forall log : Legacy.Log,
        raised (Legacy.decode_transfer log) = true <->
        ~ (startswith (txt "0x") (lower (nth 1 (Legacy.log_topics log) [])) = true
           /\ length (nth 1 (Legacy.log_topics log) []) = 66%nat)
        \/ ~ (startswith (txt "0x") (lower (nth 2 (Legacy.log_topics log) [])) = true
              /\ length (nth 2 (Legacy.log_topics log) []) = 66%nat)
        \/ raised (int16 (or_default (Legacy.log_data log) (txt "0x0"))) = true)
  /\ (raised (Legacy._erc20_transfers_in_receipt receipt token) = true <->
      exists log, In log (Legacy.rc_logs receipt)
                  /\ Legacy.selected token log = true
                  /\ raised (Legacy.decode_transfer log) = true)
  /\ (forall e : exn,
        Legacy._erc20_transfers_in_receipt receipt token = Raise e -> e = ValueError)
  /\ (forall w : str,
        length w = 64%nat ->
        Legacy._decode_topic_addr (txt "0x" ++ w) = Ok (txt "0x" ++ skipn 24 (lower w))
        /\ hex_bytes (skipn 24 (lower w)) = skipn 12 (hex_bytes w))
  /\ (forall (log : Legacy.Log) (d : str),
        Legacy.log_data log = Some (txt "0x" ++ d) ->
        d <> [] -> forallb is_hex d = true ->
        int16 (or_default (Legacy.log_data log) (txt "0x0")) = Ok (hex_value d)
        /\ 0 <= hex_value d < 16 ^ Z.of_nat (length d)
        /\ (forall n : nat, length d = (2 * S n)%nat ->
            hex_value d = be_uint (hex_bytes d)))
  /\ (forall log : Legacy.Log,
        Legacy.log_data log = None \/ Legacy.log_data log = Some [] ->
        int16 (or_default (Legacy.log_data log) (txt "0x0")) = Ok 0)
  /\ Legacy.decode_transfer
       (Legacy.mkLog (Some Legacy.LPT)
          [Legacy.TRANSFER_TOPIC0;
           txt "0Xzzzzzzzzzzzzzzzzzzzzzzzzzzzzzzzzzzzzzzzzzzzzzzzzzzzzzzzzzzzzzzzz";
           txt "0x0000000000000000000000008a8053c21696f27ed305a03bd1efc5d068d91d0e"]
          (Some (txt "-0x5")))
     = Ok (Legacy.mkTransfer (txt "0xzzzzzzzzzzzzzzzzzzzzzzzzzzzzzzzzzzzzzzzz")
             Legacy.GATEWAY (-5)).
Proof.
  assert (E : Legacy._erc20_transfers_in_receipt receipt token
              = mapM Legacy.decode_transfer
                  (filter (Legacy.selected token) (Legacy.rc_logs receipt))).
  { unfold Legacy._erc20_transfers_in_receipt. rewrite erc20_loop_filter.
    destruct (mapM _ _); reflexivity. }
  split; [exact E|].
  split.
  { intro log. unfold Legacy.selected. rewrite !andb_true_iff, str_eqb_eq.
    rewrite Nat.leb_le. split.
    + intros [[Ha Ht] Hn]. repeat split; try assumption.
      destruct (Legacy.log_topics log) as [|t0 ts]; [discriminate|].
      exists t0, ts. split; [reflexivity | now apply str_eqb_eq].
    + intros (Ha & (t0 & ts & Et & Ht) & Hn). repeat split; try assumption.
      rewrite Et. now apply str_eqb_eq. }
  split.
  { intros log t0 w1 w2 d more n Et L1 L2 Ed Hd Ld.
    assert (Hne : d <> []) by (intro E0; rewrite E0 in Ld; discriminate).
    destruct (hex_value_be_uint (S n) d Ld) as [Ev _].
    split; [|split; [|split]].
    + unfold Legacy.decode_transfer. rewrite Et, Ed. cbn [nth].
      rewrite !decode_topic_addr_0x by assumption. cbn [bind].
      change (or_default (Some (txt "0x" ++ d)) (txt "0x0")) with (txt "0x" ++ d).
      rewrite (int16_0x_hex d Hne Hd). cbn [bind]. now rewrite Ev.
    + rewrite (hex_bytes_skipn 12), (hex_bytes_lower 64) by lia. reflexivity.
    + rewrite (hex_bytes_skipn 12), (hex_bytes_lower 64) by lia. reflexivity.
    + rewrite <- Ev. apply hex_value_range. }
  split.
  { intros log tr. unfold Legacy.decode_transfer.
    destruct (Legacy._decode_topic_addr (nth 1 (Legacy.log_topics log) [])) as [f|e1] eqn:E1;
      cbn [bind].
    2:{ split; [discriminate|]. intros (H1 & _).
        apply decode_topic_addr_raises in H1; [contradiction | now rewrite E1]. }
    destruct (Legacy._decode_topic_addr (nth 2 (Legacy.log_topics log) [])) as [t|e2] eqn:E2;
      cbn [bind].
    2:{ split; [discriminate|]. intros (_ & H2 & _).
        apply decode_topic_addr_raises in H2; [contradiction | now rewrite E2]. }
    apply decode_topic_addr_ok in E1. destruct E1 as (P1 & L1 & ->).
    apply decode_topic_addr_ok in E2. destruct E2 as (P2 & L2 & ->).
    destruct (int16 _) as [v|e3]; cbn [bind].
    - split.
      + intro H. injection H as <-. split; [now split|]. split; [now split|].
        exists v. now split.
      + intros (_ & _ & v' & Hv & ->). now injection Hv as ->.
    - split; [discriminate | intros (_ & _ & v' & Hv & _); discriminate]. }
  split.
  { intro log. rewrite <- !decode_topic_addr_raises. unfold Legacy.decode_transfer.
    destruct (Legacy._decode_topic_addr (nth 1 (Legacy.log_topics log) [])) as [f|e1];
      cbn [bind raised]; [|split; [now left | reflexivity]].
    destruct (Legacy._decode_topic_addr (nth 2 (Legacy.log_topics log) [])) as [t|e2];
      cbn [bind raised]; [|split; [right; now left | reflexivity]].
    destruct (int16 _) as [v|e3]; cbn [bind raised].
    + split; [discriminate | intros [H | [H | H]]; discriminate].
    + split; [right; now right | reflexivity]. }
  split.
  { rewrite E. split.
    + destruct (mapM Legacy.decode_transfer _) as [es|e] eqn:Em; cbn [raised];
        [discriminate|].
      intros _. destruct (mapM_raise _ _ _ Em) as (log & Hin & Hd).
      apply filter_In in Hin. destruct Hin as [Hin Hsel].
      exists log. split; [exact Hin|]. split; [exact Hsel|]. now rewrite Hd.
    + intros (log & Hin & Hsel & Hr).
      apply (mapM_raised _ _ log); [apply filter_In; now split | exact Hr]. }
  split.
  { intros e H. rewrite E in H.
    destruct (mapM_raise _ _ _ H) as (log & _ & Hd).
    exact (decode_transfer_raises_ValueError log e Hd). }
  split.
  { intros w L. split; [now apply decode_topic_addr_0x|].
    rewrite (hex_bytes_skipn 12), (hex_bytes_lower 64) by lia. reflexivity. }
  split.
  { intros log d Ed Hne Hd. rewrite Ed.
    assert (Eo : or_default (Some (txt "0x" ++ d)) (txt "0x0") = txt "0x" ++ d)
      by reflexivity.
    rewrite Eo. split; [exact (int16_0x_hex d Hne Hd)|].
    split; [apply hex_value_range|].
    intros n Ld. exact (proj1 (hex_value_be_uint (S n) d Ld)). }
  split.
  { intros log [-> | ->]; vm_compute; reflexivity. }
  vm_compute. reflexivity.
Qed.

(** A receipt with one decodable [Transfer] log of the LPT token. *)
Lemma erc20_transfers_in_receipt_witness :
  let log :=
    Legacy.mkLog (Some Legacy.LPT)
      [Legacy.TRANSFER_TOPIC0;
       txt "0x000000000000000000000000C34B3753C164FBC3FC066FC1A46B3EEE8ADB33E6";
       txt "0x0000000000000000000000008a8053c21696f27ed305a03bd1efc5d068d91d0e"]
      (Some (txt "0x0000000000000000000000000000000000000000000000000000000000000005")) in
  Legacy.decode_transfer log
  = Ok (Legacy.mkTransfer Legacy.SAFE_WALLET Legacy.GATEWAY 5).
Proof.
  intro log.
  destruct (erc20_transfers_in_receipt_spec
              (Legacy.mkReceipt (Legacy.JStr (txt "0x1")) None None None [log])
              Legacy.LPT) as (_ & _ & H & _).
  destruct (H log Legacy.TRANSFER_TOPIC0
              (txt "000000000000000000000000C34B3753C164FBC3FC066FC1A46B3EEE8ADB33E6")
              (txt "0000000000000000000000008a8053c21696f27ed305a03bd1efc5d068d91d0e")
              (txt "0000000000000000000000000000000000000000000000000000000000000005")
              [] 31%nat eq_refl eq_refl eq_refl eq_refl eq_refl eq_refl) as [E _].
  rewrite E. vm_compute. reflexivity.
Defined.

(* ================================================================== *)
(** * Receipt status *)

Ltac step_bind :=
  match goal with
  | |- context [bind ?x _] =>
      let E := fresh "E" in destruct x eqn:E; cbn [bind raised]; try reflexivity
  end.

Ltac not_ok :=
  match goal with
  | H : Ok ?b <> Ok true |- _ => destruct b; [now elim H|]
  end.

Lemma receipt_ok_true_iff (receipt : Legacy.Receipt) :
  Legacy._receipt_ok receipt = Ok true <->
  match Legacy.rc_status receipt with
  | Legacy.JNull => False
  | Legacy.JBool b => b = true
  | Legacy.JInt n => n = 1
  | Legacy.JStr s => int16 s = Ok 1
  end.
Proof.
  unfold Legacy._receipt_ok. destruct (Legacy.rc_status receipt) as [|b|n|s].
  - split; [discriminate | contradiction].
  - split; [now inversion 1 | now intros ->].
  - split; [inversion 1 as [H1]; now apply Z.eqb_eq | intros ->; reflexivity].
  - destruct (int16 s) as [v|e]; cbn [bind].
    + split; [inversion 1 as [H1]; apply Z.eqb_eq in H1; now subst
             | inversion 1; reflexivity].
    + split; discriminate.
Qed.

(** The status check raises only on a status that is text, and then with
    the exception of [int(status, 16)]. *)
Lemma receipt_ok_raises (receipt : Legacy.Receipt) (e : exn) :
  Legacy._receipt_ok receipt = Raise e <->
  exists s : str, Legacy.rc_status receipt = Legacy.JStr s /\ int16 s = Raise e.
Proof.
  unfold Legacy._receipt_ok. destruct (Legacy.rc_status receipt) as [|b|n|s].
  - split; [discriminate | intros (s & H & _); discriminate].
  - split; [discriminate | intros (s & H & _); discriminate].
  - split; [discriminate | intros (s & H & _); discriminate].
  - destruct (int16 s) as [v|e0] eqn:Ei; cbn [bind].
    + split; [discriminate|]. intros (s' & H & H'). congruence.
    + split.
      * intro H. injection H as ->. now exists s.
      * intros (s' & H & H'). congruence.
Qed.

(** The conversion pass reads the status of the receipt once, as the last
    step of building the row. *)
Lemma conversion_row_status_last
  (get_tx : str -> result Legacy.Tx) (get_receipt : str -> result Legacy.Receipt)
  (row_iso_utc row_tx_hash : str) (rec : Legacy.Receipt) :
  get_receipt (lower (strip row_tx_hash)) = Ok rec ->
  let rec1 := Legacy.mkReceipt (Legacy.JInt 1) (Legacy.rc_gasUsed rec)
                (Legacy.rc_effectiveGasPrice rec) (Legacy.rc_blockNumber rec)
                (Legacy.rc_logs rec) in
  match Legacy.conversion_row get_tx (fun _ => Ok rec1) row_iso_utc row_tx_hash with
  | Ok None =>
      Legacy.conversion_row get_tx get_receipt row_iso_utc row_tx_hash = Ok None
  | Raise e =>
      Legacy.conversion_row get_tx get_receipt row_iso_utc row_tx_hash = Raise e
  | Ok (Some row) =>
      Legacy.cv_status row = txt "success"
      /\ Legacy.conversion_row get_tx get_receipt row_iso_utc row_tx_hash
         = (ok <- Legacy._receipt_ok rec ;;
            Ok (Some (Legacy.mkConversionRow
                        (Legacy.cv_date_utc row) (Legacy.cv_tx_hash row)
                        (Legacy.cv_to row) (Legacy.cv_conversion_type row)
                        (Legacy.cv_lpt_out row) (Legacy.cv_usdc_in row)
                        (Legacy.cv_weth_gross_in row) (Legacy.cv_weth_burn row)
                        (Legacy.cv_weth_other_out row) (Legacy.cv_gas_fee_eth row)
                        (if ok then txt "success" else txt "failed"))))
  end.
Proof.
  intros Hrec rec1.
  assert (Hf : Legacy._receipt_gas_fee_eth rec1 = Legacy._receipt_gas_fee_eth rec)
    by reflexivity.
  assert (Ht : forall token, Legacy._erc20_transfers_in_receipt rec1 token
                             = Legacy._erc20_transfers_in_receipt rec token)
    by reflexivity.
  assert (Hk : Legacy._receipt_ok rec1 = Ok true) by reflexivity.
  unfold Legacy.conversion_row. rewrite Hrec.
  destruct (get_tx (lower (strip row_tx_hash))) as [tx|e]; cbn [bind]; [|reflexivity].
  rewrite !Ht, Hf, Hk. clearbody rec1.
  destruct (Legacy._erc20_transfers_in_receipt rec Legacy.LPT) as [lpt|e];
    cbn [bind]; [|reflexivity].
  destruct (Legacy._erc20_transfers_in_receipt rec Legacy.USDC) as [usdc|e];
    cbn [bind]; [|reflexivity].
  destruct (Legacy._erc20_transfers_in_receipt rec Legacy.WETH) as [weth|e];
    cbn [bind]; [|reflexivity].
  destruct ((Legacy.lpt_out_of lpt =? 0) && (Legacy.usdc_in_of usdc =? 0)
            && (Legacy.weth_gross_in_of weth =? 0) && (Legacy.weth_burn_of weth =? 0));
    [reflexivity|].
  destruct (Legacy._dec (Legacy.lpt_out_of lpt) 18) as [d1|e]; cbn [bind]; [|reflexivity].
  destruct (Legacy._dec (Legacy.usdc_in_of usdc) 6) as [d2|e]; cbn [bind]; [|reflexivity].
  destruct (Legacy._dec (Legacy.weth_gross_in_of weth) 18) as [d3|e]; cbn [bind];
    [|reflexivity].
  destruct (Legacy._dec (Legacy.weth_burn_of weth) 18) as [d4|e]; cbn [bind];
    [|reflexivity].
  destruct (Legacy._dec (Legacy.weth_other_out_of weth) 18) as [d5|e]; cbn [bind];
    [|reflexivity].
  destruct (Legacy._receipt_gas_fee_eth rec) as [fee|e]; cbn [bind]; [|reflexivity].
  split; reflexivity.
Qed.

(** C2, as stated, fails for the conversion pass of the verifier: a failed
    receipt raises nothing there.  Without logs (as failed transactions are)
    the candidate is skipped; with logs the row is written with status
    [failed]. *)
Lemma failed_conversion_receipt_does_not_abort :
  let tx := Legacy.mkTx (Some Legacy.TREASURY) (Some Legacy.router)
              (Some (txt "0x0")) (Some (txt "0x")) (Some (txt "0x1")) in
  let log :=
    Legacy.mkLog (Some Legacy.LPT)
      [Legacy.TRANSFER_TOPIC0;
       txt "0x00000000000000000000000004e334ff13c71488094e24f4fab53a8fafe2f9bb";
       txt "0x0000000000000000000000002905d7e4d048d29954f81b02171dd313f457a4a4"]
      (Some (txt "0x0de0b6b3a7640000")) in
  let failed_empty := Legacy.mkReceipt (Legacy.JStr (txt "0x0")) None None None [] in
  let failed_logs := Legacy.mkReceipt (Legacy.JStr (txt "0x0")) None None None [log] in
  Legacy._receipt_ok failed_empty = Ok false
  /\ Legacy._receipt_ok failed_logs = Ok false
  /\ Legacy.conversion_row (fun _ => Ok tx) (fun _ => Ok failed_empty)
       (txt "2025-08-29T10:00:00+00:00") (txt "0xabc") = Ok None
  /\ exists row,
       Legacy.conversion_row (fun _ => Ok tx) (fun _ => Ok failed_logs)
         (txt "2025-08-29T10:00:00+00:00") (txt "0xabc") = Ok (Some row)
       /\ Legacy.cv_status row = txt "failed".
Proof.
  repeat split; try (vm_compute; reflexivity).
  eexists. split; vm_compute; reflexivity.
Qed.

(** C2, amended.  In the four funding-flow checks (testing-wallet return,
    Safe ETH transfer, treasury disbursement, Safe LPT transfer) a receipt
    whose status check does not return true - status null or missing, the
    number 0, false, text that reads as another number than 1, text that
    [int(status, 16)] rejects - always ends in an exception, whatever the
    transaction holds and whatever amount is expected, and that exception
    ends the loop over the rows.  The status check returns true for the
    number 1, for true and for text that reads as 1 in base 16, and for
    nothing else.

    The conversion pass reads the status last, after the skip test, the
    amounts and the gas fee.  With such a receipt it does what it does with
    the same receipt under status 1 where that run skips the candidate or
    raises; where that run writes a row, it writes the same row with status
    [failed] when the status check returns false, and raises the exception
    of the status check, a [ValueError], when the status is text that
    [int(status, 16)] rejects. *)
Theorem failed_receipt_aborts
  (get_tx : str -> result Legacy.Tx) (get_receipt : str -> result Legacy.Receipt)
  (row_tx_hash amount recipient : str) (rec : Legacy.Receipt) :
  get_receipt (lower (strip row_tx_hash)) = Ok rec ->
  Legacy._receipt_ok rec <> Ok true ->
  raised (Legacy.verify_testing_return get_tx get_receipt row_tx_hash amount) = true
  /\ raised (Legacy.verify_safe_eth get_tx get_receipt row_tx_hash amount) = true
  /\ raised (Legacy.verify_treasury_disbursement get_tx get_receipt
               row_tx_hash recipient amount) = true
  /\ raised (Legacy.verify_safe_lpt get_receipt row_tx_hash amount) = true
  /\ (forall rows, In (row_tx_hash, amount) rows ->
        raised (Legacy.run_testing_returns get_tx get_receipt rows) = true
        /\ raised (Legacy.run_safe_eth get_tx get_receipt rows) = true
        /\ raised (Legacy.run_safe_lpt get_receipt rows) = true)
  /\ (forall rows, In (row_tx_hash, recipient, amount) rows ->
        raised (Legacy.run_treasury_disbursements get_tx get_receipt rows) = true)
  /\ (forall r : Legacy.Receipt,
        In (Legacy.rc_status r)
           [Legacy.JNull; Legacy.JInt 0; Legacy.JBool false;
            Legacy.JStr (txt "0x0"); Legacy.JStr (txt "0x2")] ->
        Legacy._receipt_ok r <> Ok true)
  /\ (forall row_iso_utc : str,
        let rec1 := Legacy.mkReceipt (Legacy.JInt 1) (Legacy.rc_gasUsed rec)
                      (Legacy.rc_effectiveGasPrice rec) (Legacy.rc_blockNumber rec)
                      (Legacy.rc_logs rec) in
        match Legacy.conversion_row get_tx (fun _ => Ok rec1) row_iso_utc row_tx_hash with
        | Ok None =>
            Legacy.conversion_row get_tx get_receipt row_iso_utc row_tx_hash = Ok None
        | Raise e =>
            Legacy.conversion_row get_tx get_receipt row_iso_utc row_tx_hash = Raise e
        | Ok (Some row) =>
            Legacy.cv_status row = txt "success"
            /\ match Legacy._receipt_ok rec with
               | Ok _ =>
                   Legacy.conversion_row get_tx get_receipt row_iso_utc row_tx_hash
                   = Ok (Some (Legacy.mkConversionRow
                                 (Legacy.cv_date_utc row) (Legacy.cv_tx_hash row)
                                 (Legacy.cv_to row) (Legacy.cv_conversion_type row)
                                 (Legacy.cv_lpt_out row) (Legacy.cv_usdc_in row)
                                 (Legacy.cv_weth_gross_in row) (Legacy.cv_weth_burn row)
                                 (Legacy.cv_weth_other_out row)
                                 (Legacy.cv_gas_fee_eth row) (txt "failed")))
               | Raise e =>
                   Legacy.conversion_row get_tx get_receipt row_iso_utc row_tx_hash
                   = Raise e
               end
        end)
  /\ (forall e : exn,
        Legacy._receipt_ok rec = Raise e <->
        exists s : str, Legacy.rc_status rec = Legacy.JStr s /\ int16 s = Raise e)
  /\ (forall e : exn, Legacy._receipt_ok rec = Raise e -> e = ValueError)
  /\ (forall r : Legacy.Receipt,
        Legacy._receipt_ok r = Ok true <->
        match Legacy.rc_status r with
        | Legacy.JNull => False
        | Legacy.JBool b => b = true
        | Legacy.JInt n => n = 1
        | Legacy.JStr s => int16 s = Ok 1
        end).
Proof.
  intros Hrec Hbad.
  assert (H1 : raised (Legacy.verify_testing_return get_tx get_receipt
                         row_tx_hash amount) = true).
  { unfold Legacy.verify_testing_return. step_bind. step_bind.
    rewrite Hrec. cbn [bind]. step_bind. not_ok. step_bind.
    cbn [negb]. rewrite !orb_true_r. reflexivity. }
  assert (H2 : raised (Legacy.verify_safe_eth get_tx get_receipt
                         row_tx_hash amount) = true).
  { unfold Legacy.verify_safe_eth. step_bind. step_bind.
    rewrite Hrec. cbn [bind]. step_bind. not_ok.
    cbn [negb]. rewrite !orb_true_r. reflexivity. }
  assert (H3 : raised (Legacy.verify_treasury_disbursement get_tx get_receipt
                         row_tx_hash recipient amount) = true).
  { unfold Legacy.verify_treasury_disbursement. step_bind. step_bind.
    rewrite Hrec. cbn [bind]. step_bind. not_ok. step_bind.
    cbn [negb]. rewrite !orb_true_r. reflexivity. }
  assert (H4 : raised (Legacy.verify_safe_lpt get_receipt row_tx_hash amount) = true).
  { unfold Legacy.verify_safe_lpt. step_bind.
    rewrite Hrec. cbn [bind]. step_bind. not_ok. reflexivity. }
  split; [exact H1|]. split; [exact H2|]. split; [exact H3|]. split; [exact H4|].
  split; [|split; [|split; [|split; [|split; [|split]]]]].
  - intros rows Hin. split; [|split].
    + unfold Legacy.run_testing_returns.
      now apply (mapM_raised _ rows (row_tx_hash, amount)).
    + unfold Legacy.run_safe_eth.
      now apply (mapM_raised _ rows (row_tx_hash, amount)).
    + unfold Legacy.run_safe_lpt.
      now apply (mapM_raised _ rows (row_tx_hash, amount)).
  - intros rows Hin. unfold Legacy.run_treasury_disbursements.
    now apply (mapM_raised _ rows (row_tx_hash, recipient, amount)).
  - intros r Hin E. apply receipt_ok_true_iff in E.
    cbn [In] in Hin. revert E.
    destruct Hin as [<- | [<- | [<- | [<- | [<- | []]]]]]; intro E;
      try contradiction; try discriminate; vm_compute in E; discriminate.
  - intros row_iso_utc rec1.
    pose proof (conversion_row_status_last get_tx get_receipt row_iso_utc
                  row_tx_hash rec Hrec) as K.
    cbv zeta in K. fold rec1 in K.
    destruct (Legacy.conversion_row get_tx (fun _ => Ok rec1) row_iso_utc row_tx_hash)
      as [[row|]|e]; [|exact K|exact K].
    destruct K as [K1 K2]. split; [exact K1|].
    destruct (Legacy._receipt_ok rec) as [[|]|e]; cbn [bind] in K2;
      [now elim Hbad | exact K2 | exact K2].
  - intro e. apply receipt_ok_raises.
  - intros e He. apply receipt_ok_raises in He. destruct He as (s & _ & Hs).
    exact (int16_raises_ValueError s e Hs).
  - intro r. apply receipt_ok_true_iff.
Qed.

(** A testing-wallet return whose transaction matches the expectation in
    sender, recipient and amount, but whose receipt has status [0x0]. *)
Lemma failed_receipt_aborts_witness :
  let tx := Legacy.mkTx (Some Legacy.TESTING_WALLET) (Some Legacy.GATEWAY)
              (Some (txt "0x14d1120d7b160000")) (Some (txt "0x")) (Some (txt "0x10")) in
  let rec := Legacy.mkReceipt (Legacy.JStr (txt "0x0")) (Some (txt "0x5208"))
               (Some (txt "0x989680")) (Some (txt "0x10")) [] in
  Legacy.exp_raw_of (txt "1.5") = int16 (txt "0x14d1120d7b160000")
  /\ raised (Legacy.verify_testing_return (fun _ => Ok tx) (fun _ => Ok rec)
               (txt "0xabc") (txt "1.5")) = true.
Proof.
  intros tx rec. split; [vm_compute; reflexivity|].
  assert (Hrec : (fun _ : str => Ok rec) (lower (strip (txt "0xabc"))) = Ok rec)
    by reflexivity.
  assert (Hbad : Legacy._receipt_ok rec <> Ok true)
    by (vm_compute; discriminate).
  destruct (failed_receipt_aborts (fun _ => Ok tx) (fun _ => Ok rec)
              (txt "0xabc") (txt "1.5") [] rec Hrec Hbad) as [H _].
  exact H.
Defined.

(* ================================================================== *)
(** * Conversion classification *)

Lemma conv_type_of_cases (lpt_out usdc_in weth_gross_in : Z) :
  let tag := Legacy.conv_type_of lpt_out usdc_in weth_gross_in in
  (tag = txt "LPT_to_USDC" \/ tag = txt "LPT_to_ETH_like" \/ tag = txt "unknown")
  /\ (tag = txt "LPT_to_USDC" <-> 0 < lpt_out /\ 0 < usdc_in)
  /\ (tag = txt "LPT_to_ETH_like" <-> 0 < lpt_out /\ usdc_in <= 0 /\ 0 < weth_gross_in)
  /\ (tag = txt "unknown" <-> lpt_out <= 0 \/ (usdc_in <= 0 /\ weth_gross_in <= 0)).
Proof.
  unfold Legacy.conv_type_of.
  destruct (0 <? lpt_out) eqn:A; destruct (0 <? usdc_in) eqn:B;
    destruct (0 <? weth_gross_in) eqn:C; cbn [andb];
    rewrite ?Z.ltb_lt, ?Z.ltb_ge in A, B, C;
    (split; [tauto|]); repeat split; intros; try discriminate; try lia;
      try reflexivity.
Qed.

(** C5, as stated, fails: a candidate whose sums are all zero is not
    classified [unknown]; line 425 skips it and no row is written. *)
Lemma conversion_all_zero_is_skipped :
  let tx := Legacy.mkTx (Some Legacy.TREASURY) (Some Legacy.GATEWAY)
              (Some (txt "0x1")) (Some (txt "0x")) (Some (txt "0x10")) in
  let rec := Legacy.mkReceipt (Legacy.JStr (txt "0x1")) (Some (txt "0x5208"))
               (Some (txt "0x989680")) (Some (txt "0x10")) [] in
  Legacy._erc20_transfers_in_receipt rec Legacy.LPT = Ok []
  /\ Legacy.lpt_out_of [] = 0 /\ Legacy.usdc_in_of [] = 0
  /\ Legacy.weth_gross_in_of [] = 0 /\ Legacy.weth_burn_of [] = 0
  /\ Legacy.weth_other_out_of [] = 0
  /\ Legacy.conversion_row (fun _ => Ok tx) (fun _ => Ok rec)
       (txt "2025-08-29T10:00:00+00:00") (txt "0xabc") = Ok None.
Proof. repeat split. Qed.

(** C5, amended: the tag is a function of the sums [lpt_out], [usdc_in] and
    [weth_gross_in] and is always one of the three; a candidate whose
    [lpt_out], [usdc_in], [weth_gross_in] and [weth_burn] are all zero is
    skipped and gives no row; every other candidate gives a row that carries
    the tag, unless formatting the row raises. *)
Theorem conversion_row_classification
  (get_tx : str -> result Legacy.Tx) (get_receipt : str -> result Legacy.Receipt)
  (row_iso_utc row_tx_hash : str) (tx : Legacy.Tx) (rec : Legacy.Receipt)
  (lpt usdc weth : list Legacy.Erc20Transfer) :
  get_tx (lower (strip row_tx_hash)) = Ok tx ->
  get_receipt (lower (strip row_tx_hash)) = Ok rec ->
  Legacy._erc20_transfers_in_receipt rec Legacy.LPT = Ok lpt ->
  Legacy._erc20_transfers_in_receipt rec Legacy.USDC = Ok usdc ->
  Legacy._erc20_transfers_in_receipt rec Legacy.WETH = Ok weth ->
  let lpt_out := Legacy.lpt_out_of lpt in
  let usdc_in := Legacy.usdc_in_of usdc in
  let weth_gross_in := Legacy.weth_gross_in_of weth in
  let weth_burn := Legacy.weth_burn_of weth in
  let tag := Legacy.conv_type_of lpt_out usdc_in weth_gross_in in
  (tag = txt "LPT_to_USDC" \/ tag = txt "LPT_to_ETH_like" \/ tag = txt "unknown")
  /\ (tag = txt "LPT_to_USDC" <-> 0 < lpt_out /\ 0 < usdc_in)
  /\ (tag = txt "LPT_to_ETH_like" <-> 0 < lpt_out /\ usdc_in <= 0 /\ 0 < weth_gross_in)
  /\ (tag = txt "unknown" <-> lpt_out <= 0 \/ (usdc_in <= 0 /\ weth_gross_in <= 0))
  /\ (lpt_out = 0 /\ usdc_in = 0 /\ weth_gross_in = 0 /\ weth_burn = 0 ->
      Legacy.conversion_row get_tx get_receipt row_iso_utc row_tx_hash = Ok None)
  /\ (~ (lpt_out = 0 /\ usdc_in = 0 /\ weth_gross_in = 0 /\ weth_burn = 0) ->
      match Legacy.conversion_row get_tx get_receipt row_iso_utc row_tx_hash with
      | Ok (Some row) => Legacy.cv_conversion_type row = tag
      | Ok None => False
      | Raise _ => True
      end).
Proof.
  intros Htx Hrec Hl Hu Hw lpt_out usdc_in weth_gross_in weth_burn tag.
  destruct (conv_type_of_cases lpt_out usdc_in weth_gross_in) as (T1 & T2 & T3 & T4).
  split; [exact T1|]. split; [exact T2|]. split; [exact T3|]. split; [exact T4|].
  unfold Legacy.conversion_row. rewrite Htx, Hrec. cbn [bind].
  rewrite Hl, Hu, Hw. cbn [bind].
  fold lpt_out usdc_in weth_gross_in weth_burn.
  split.
  - intros (-> & -> & -> & ->). reflexivity.
  - intro Hnz.
    assert (Hc : (lpt_out =? 0) && (usdc_in =? 0) && (weth_gross_in =? 0)
                 && (weth_burn =? 0) = false).
    { destruct (lpt_out =? 0) eqn:A; [|reflexivity].
      destruct (usdc_in =? 0) eqn:B; [|reflexivity].
      destruct (weth_gross_in =? 0) eqn:C; [|reflexivity].
      destruct (weth_burn =? 0) eqn:D; [|reflexivity].
      rewrite Z.eqb_eq in A, B, C, D. tauto. }
    rewrite Hc.
    repeat match goal with
           | |- context [bind ?x _] => destruct x; cbn [bind]; [|exact I]
           end.
    reflexivity.
Qed.

(** A sale of 10 LPT through the router that brings 5 USDC back. *)
Lemma conversion_row_classification_witness :
  let tx := Legacy.mkTx (Some Legacy.TREASURY) (Some Legacy.router)
              (Some (txt "0x0")) (Some (txt "0x")) (Some (txt "0x10")) in
  let lpt_log :=
    Legacy.mkLog (Some Legacy.LPT)
      [Legacy.TRANSFER_TOPIC0;
       txt "0x00000000000000000000000004e334ff13c71488094e24f4fab53a8fafe2f9bb";
       txt "0x0000000000000000000000002905d7e4d048d29954f81b02171dd313f457a4a4"]
      (Some (txt "0x8ac7230489e80000")) in
  let usdc_log :=
    Legacy.mkLog (Some Legacy.USDC)
      [Legacy.TRANSFER_TOPIC0;
       txt "0x0000000000000000000000002905d7e4d048d29954f81b02171dd313f457a4a4";
       txt "0x00000000000000000000000004e334ff13c71488094e24f4fab53a8fafe2f9bb"]
      (Some (txt "0x4c4b40")) in
  let rec := Legacy.mkReceipt (Legacy.JStr (txt "0x1")) (Some (txt "0x5208"))
               (Some (txt "0x989680")) (Some (txt "0x10")) [lpt_log; usdc_log] in
  Legacy.conv_type_of 10000000000000000000 5000000 0 = txt "LPT_to_USDC"
  /\ match Legacy.conversion_row (fun _ => Ok tx) (fun _ => Ok rec)
             (txt "2025-08-29T10:00:00+00:00") (txt "0xabc") with
     | Ok (Some row) => Legacy.cv_conversion_type row = txt "LPT_to_USDC"
     | _ => False
     end.
Proof.
  intros tx lpt_log usdc_log rec. split; [reflexivity|].
  pose proof (conversion_row_classification (fun _ => Ok tx) (fun _ => Ok rec)
                (txt "2025-08-29T10:00:00+00:00") (txt "0xabc") tx rec
                [Legacy.mkTransfer Legacy.TREASURY Legacy.router 10000000000000000000]
                [Legacy.mkTransfer Legacy.router Legacy.TREASURY 5000000]
                [] eq_refl eq_refl eq_refl eq_refl eq_refl) as H.
  destruct H as (_ & _ & _ & _ & _ & H).
  assert (Hnz : ~ (Legacy.lpt_out_of
                     [Legacy.mkTransfer Legacy.TREASURY Legacy.router 10000000000000000000] = 0
                   /\ Legacy.usdc_in_of
                        [Legacy.mkTransfer Legacy.router Legacy.TREASURY 5000000] = 0
                   /\ Legacy.weth_gross_in_of [] = 0 /\ Legacy.weth_burn_of [] = 0)).
  { intros (A & _). vm_compute in A. discriminate. }
  specialize (H Hnz).
  destruct (Legacy.conversion_row _ _ _ _) as [[row|]|e] eqn:E.
  - rewrite H. reflexivity.
  - exact H.
  - vm_compute in E. discriminate.
Defined.

(* ================================================================== *)
(** * Facts about the decimal arithmetic *)

Lemma ndigits_aux_spec (fuel : nat) :
  forall c : Z,
    0 < c < 10 ^ Z.of_nat fuel ->
    10 ^ (ndigits_aux fuel c - 1) <= c < 10 ^ ndigits_aux fuel c
    /\ 1 <= ndigits_aux fuel c.
Proof.
  induction fuel as [|f IH]; intros c Hc.
  - simpl in Hc. lia.
  - cbn [ndigits_aux]. destruct (c <? 10) eqn:E.
    + apply Z.ltb_lt in E. simpl. lia.
    + apply Z.ltb_ge in E.
      rewrite Nat2Z.inj_succ, Z.pow_succ_r in Hc by lia.
      pose proof (Z.div_mod c 10 ltac:(lia)) as Hdm.
      pose proof (Z.mod_pos_bound c 10 ltac:(lia)) as Hm.
      assert (Hq : 0 < c / 10 < 10 ^ Z.of_nat f) by lia.
      destruct (IH (c / 10) Hq) as [[L U] N].
      replace (1 + ndigits_aux f (c / 10) - 1) with (Z.succ (ndigits_aux f (c / 10) - 1))
        by lia.
      replace (1 + ndigits_aux f (c / 10)) with (Z.succ (ndigits_aux f (c / 10))) by lia.
      rewrite !Z.pow_succ_r by lia. lia.
Qed.

(** [ndigits c] is the number of decimal digits of a positive [c]. *)
Lemma ndigits_spec (c : Z) :
  0 < c -> 10 ^ (ndigits c - 1) <= c < 10 ^ ndigits c /\ 1 <= ndigits c.
Proof.
  intro Hc. unfold ndigits. apply ndigits_aux_spec. split; [exact Hc|].
  destruct (Z.log2_spec c Hc) as [_ U].
  rewrite Nat2Z.inj_succ, Z2Nat.id by apply Z.log2_nonneg.
  eapply Z.lt_le_trans; [exact U|].
  apply Z.pow_le_mono_l. pose proof (Z.log2_nonneg c). lia.
Qed.

Lemma ndigits_le (c p : Z) : 0 < c -> c < 10 ^ p -> ndigits c <= p.
Proof.
  intros Hc Hp. destruct (ndigits_spec c Hc) as [[L _] N].
  destruct (Z.le_gt_cases (ndigits c) p) as [H|H]; [exact H|].
  assert (10 ^ p <= 10 ^ (ndigits c - 1)) by (apply Z.pow_le_mono_r; lia).
  lia.
Qed.

(** A result that already fits the precision and the exponent range is
    returned as it is. *)
Lemma fix_fits (ctx : context) (neg : bool) (c e : Z) :
  0 < c -> c < 10 ^ prec ctx -> Etiny ctx <= e <= Etop ctx ->
  fix_ ctx neg c e = Ok (Finite neg c e).
Proof.
  intros Hc Hp He. unfold fix_.
  assert ((c =? 0) = false) as -> by (apply Z.eqb_neq; lia).
  pose proof (ndigits_le c (prec ctx) Hc Hp) as Hn.
  assert ((Etop ctx <? ndigits c + e - prec ctx) = false) as ->
      by (apply Z.ltb_ge; lia).
  assert ((e <? Z.max (ndigits c + e - prec ctx) (Etiny ctx)) = false) as ->
      by (apply Z.ltb_ge; lia).
  reflexivity.
Qed.

(** Rounding half to even in integers: the kept digits are within half a
    unit of the last kept place, and even when exactly half a unit away. *)
Lemma round_half_even_spec (c k : Z) :
  0 <= c -> 1 <= k ->
  let w := round_half_even c k in
  0 <= w
  /\ 2 * Z.abs (c - w * 10 ^ k) <= 10 ^ k
  /\ (2 * Z.abs (c - w * 10 ^ k) = 10 ^ k -> Z.even w = true).
Proof.
  intros Hc Hk. unfold round_half_even.
  set (P := 10 ^ k). set (h := 5 * 10 ^ (k - 1)).
  assert (HP : P = 2 * h).
  { unfold P, h. replace k with (Z.succ (k - 1)) at 1 by lia.
    rewrite Z.pow_succ_r by lia. lia. }
  assert (Hh : 0 < h) by (unfold h; pose proof (Z.pow_pos_nonneg 10 (k - 1)); lia).
  pose proof (Z.div_mod c P ltac:(lia)) as Hdm.
  pose proof (Z.mod_pos_bound c P ltac:(lia)) as Hm.
  assert (Hq : 0 <= c / P) by (apply Z.div_pos; lia).
  set (q := c / P) in *. set (r := c mod P) in *.
  destruct (h <? r) eqn:E1; cbn [orb].
  - apply Z.ltb_lt in E1. cbv zeta. repeat split; try lia.
  - apply Z.ltb_ge in E1. destruct (r =? h) eqn:E2; cbn [andb].
    + apply Z.eqb_eq in E2. destruct (Z.odd q) eqn:E3; cbv zeta.
      * repeat split; try lia. intros _.
        rewrite Z.even_add. rewrite <- Z.negb_odd, E3. reflexivity.
      * repeat split; try lia. intros _.
        rewrite <- Z.negb_odd, E3. reflexivity.
    + apply Z.eqb_neq in E2. cbv zeta. repeat split; try lia.
Qed.

Lemma inject_Z_10_nonzero : ~ inject_Z 10 == 0.
Proof. intro H. discriminate H. Qed.

Lemma value_nonneg_exp (neg : bool) (c e : Z) :
  0 <= e -> value neg c e == inject_Z ((if neg then - c else c) * 10 ^ e).
Proof.
  intro He. unfold value. rewrite inject_Z_mult.
  rewrite (Zpower_Qpower 10 e He). reflexivity.
Qed.

Lemma value_neg_exp (neg : bool) (c e : Z) :
  e < 0 ->
  value neg c e == inject_Z (if neg then - c else c) / inject_Z (10 ^ (- e)).
Proof.
  intro He. unfold value, Qdiv.
  replace e with (- (- e)) at 1 by lia.
  rewrite Qpower_opp. rewrite (Zpower_Qpower 10 (- e)) by lia. reflexivity.
Qed.

Lemma inject_Z_pos_nonzero (P : Z) : 0 < P -> ~ inject_Z P == 0.
Proof.
  intros HP H. change 0%Q with (inject_Z 0) in H.
  apply (proj1 (inject_Z_injective P 0)) in H. lia.
Qed.

Lemma Qdiv_minus_int (a w P : Z) :
  0 < P ->
  inject_Z a / inject_Z P - inject_Z w == inject_Z (a - w * P) / inject_Z P.
Proof.
  intro HP. pose proof (inject_Z_pos_nonzero P HP) as Hnz.
  unfold Z.sub. rewrite inject_Z_plus, inject_Z_opp, inject_Z_mult.
  field. exact Hnz.
Qed.

(** The distance of a fraction from zero against one half, in integers. *)
Lemma Qabs_fraction_half (a P : Z) :
  0 < P ->
  ((Qabs (inject_Z a / inject_Z P) <= 1 # 2)%Q <-> 2 * Z.abs a <= P)
  /\ (Qabs (inject_Z a / inject_Z P) == 1 # 2 <-> 2 * Z.abs a = P).
Proof.
  intro HP. destruct P as [|p|p]; try lia.
  assert (E : inject_Z a / inject_Z (Z.pos p) == a # p)
    by (symmetry; apply Qmake_Qdiv).
  rewrite E. unfold Qabs, Qle, Qeq. simpl Qnum. simpl Qden.
  split; split; intro H; lia.
Qed.

Lemma mul_finite (ctx : context) (s1 s2 : bool) (c1 c2 e1 e2 : Z) :
  mul ctx (Finite s1 c1 e1) (Finite s2 c2 e2)
  = fix_ ctx (xorb s1 s2) (c1 * c2) (e1 + e2).
Proof. reflexivity. Qed.

Lemma Qabs_zero_half (x : Q) :
  x == 0 -> (Qabs x <= 1 # 2)%Q /\ ~ Qabs x == 1 # 2.
Proof.
  intro H. rewrite H. split; [discriminate | intro E; discriminate E].
Qed.

(* ================================================================== *)
(** * Conversion of an expected amount to raw units *)

(** On a finite amount whose product with [10^18] fits the 60 digits of the
    context, the raw amount is the integer nearest to the product, the even
    one of the two when the product lies half-way. *)
Lemma raw_of_decimal_half_even (neg : bool) (c e : Z) :
  0 <= c -> c < 10 ^ 42 -> -1000058 <= e <= 999940 ->
  exists w : Z,
    Legacy.raw_of_decimal (Finite neg c e) = Ok w
    /\ (Qabs (value neg c e * inject_Z (10 ^ 18) - inject_Z w) <= 1 # 2)%Q
    /\ (Qabs (value neg c e * inject_Z (10 ^ 18) - inject_Z w) == 1 # 2 ->
        Z.even w = true).
Proof.
  intros Hc Hlt He. unfold Legacy.raw_of_decimal.
  change (of_Z (10 ^ 18)) with (Finite false (10 ^ 18) 0).
  rewrite mul_finite, xorb_false_r, Z.add_0_r.
  destruct (Z.eq_dec c 0) as [-> | Hnz].
  - (* a zero amount *)
    exists 0.
    assert (Hx : value neg 0 e * inject_Z (10 ^ 18) - inject_Z 0 == 0).
    { unfold value. destruct neg; simpl Z.opp; ring. }
    destruct (Qabs_zero_half _ Hx) as [H1 H2].
    split; [|split; [exact H1 | intro E; contradiction]].
    unfold fix_. rewrite Z.mul_0_l. cbn [Z.eqb bind].
    unfold to_integral_value.
    match goal with |- context [if ?b then _ else _] => destruct b eqn:E0 end.
    + cbn [bind]. unfold to_int. rewrite E0, Z.mul_0_l. now destruct neg.
    + cbn [Z.eqb bind to_int]. now destruct neg.
  - (* a non-zero amount: the product is exact *)
    set (C := c * 10 ^ 18).
    assert (HC : 0 < C < 10 ^ 60).
    { unfold C. change (10 ^ 60) with (10 ^ 42 * 10 ^ 18). nia. }
    rewrite fix_fits; [| lia | exact (proj2 HC) | exact He].
    cbn [bind]. unfold to_integral_value.
    destruct (0 <=? e) eqn:E0.
    + apply Z.leb_le in E0.
      exists (if neg then - (C * 10 ^ e) else C * 10 ^ e).
      assert (Hx : value neg c e * inject_Z (10 ^ 18)
                   - inject_Z (if neg then - (C * 10 ^ e) else C * 10 ^ e) == 0).
      { rewrite (value_nonneg_exp neg c e E0). rewrite <- inject_Z_mult.
        unfold Qminus. rewrite <- inject_Z_opp, <- inject_Z_plus.
        change 0%Q with (inject_Z 0). apply inject_Z_injective.
        unfold C. destruct neg; ring. }
      destruct (Qabs_zero_half _ Hx) as [H1 H2].
      split; [|split; [exact H1 | intro E; contradiction]].
      cbn [bind]. unfold to_int. apply Z.leb_le in E0. rewrite E0. reflexivity.
    + apply Z.leb_gt in E0.
      assert ((C =? 0) = false) as -> by (apply Z.eqb_neq; lia).
      destruct (round_half_even_spec C (- e) ltac:(lia) ltac:(lia)) as (W0 & W1 & W2).
      set (q := round_half_even C (- e)) in *.
      set (P := 10 ^ (- e)) in *.
      assert (HP : 0 < P) by (apply Z.pow_pos_nonneg; lia).
      exists (if neg then - q else q).
      assert (Hx : value neg c e * inject_Z (10 ^ 18)
                   - inject_Z (if neg then - q else q)
                   == inject_Z ((if neg then - C else C)
                                - (if neg then - q else q) * P) / inject_Z P).
      { rewrite (value_neg_exp neg c e E0). fold P.
        rewrite <- Qdiv_minus_int by exact HP.
        apply Qplus_comp; [|reflexivity].
        unfold Qdiv. rewrite <- Qmult_assoc, (Qmult_comm (/ inject_Z P)), Qmult_assoc.
        rewrite <- inject_Z_mult. unfold C. destruct neg;
          [rewrite Z.mul_opp_l|]; reflexivity. }
      assert (Habs : Z.abs ((if neg then - C else C) - (if neg then - q else q) * P)
                     = Z.abs (C - q * P)) by (destruct neg; lia).
      destruct (Qabs_fraction_half
                  ((if neg then - C else C) - (if neg then - q else q) * P) P HP)
        as [F1 F2].
      rewrite Habs in F1, F2.
      split; [|split].
      * cbn [bind to_int Z.leb]. change (0 ?= 0) with Eq. cbv iota.
        rewrite Z.pow_0_r, Z.mul_1_r. reflexivity.
      * rewrite Hx. apply F1. exact W1.
      * intro E. rewrite Hx in E. apply F2 in E. specialize (W2 E).
        destruct neg; [rewrite Z.even_opp|]; exact W2.
Qed.

Lemma span_digits_digits (s : str) : forallb is_digit (fst (span_digits s)) = true.
Proof.
  induction s as [|c r IH]; simpl; [reflexivity|].
  destruct (is_digit c) eqn:E; [|reflexivity].
  destruct (span_digits r) as [d rest]. simpl in *. now rewrite E, IH.
Qed.

Lemma dec_fold_nonneg (ds : str) :
  forall acc : Z,
    0 <= acc -> forallb is_digit ds = true ->
    0 <= fold_left (fun a c => a * 10 + (code c - 48)) ds acc.
Proof.
  induction ds as [|c r IH]; intros acc Hacc Hd; simpl; [exact Hacc|].
  simpl in Hd. apply andb_true_iff in Hd. destruct Hd as [Hc Hr].
  apply IH; [|exact Hr]. unfold is_digit in Hc. apply andb_true_iff in Hc.
  destruct Hc as [Hc _]. apply Z.leb_le in Hc. lia.
Qed.

Lemma dec_value_nonneg (ds : str) : forallb is_digit ds = true -> 0 <= dec_value ds.
Proof. apply dec_fold_nonneg. lia. Qed.

Lemma parse_special_not_finite (neg neg' : bool) (s : str) (c e : Z) :
  parse_special neg s <> Ok (Finite neg' c e).
Proof.
  unfold parse_special.
  destruct (str_eqb (lower s) (txt "inf") || str_eqb (lower s) (txt "infinity"));
    [discriminate|].
  destruct (startswith (txt "nan") (lower s)).
  - destruct (span_digits (skipn 3 (lower s))) as [d [|x r]]; discriminate.
  - destruct (startswith (txt "snan") (lower s)); [|discriminate].
    destruct (span_digits (skipn 4 (lower s))) as [d [|x r]]; discriminate.
Qed.

(** The coefficient of a parsed number is not negative. *)
Lemma of_str_finite_nonneg (s : str) (neg : bool) (c e : Z) :
  of_str s = Ok (Finite neg c e) -> 0 <= c.
Proof.
  unfold of_str.
  destruct (split_sign _) as [sg s1].
  pose proof (span_digits_digits s1) as Hip.
  destruct (span_digits s1) as [ip s2]. simpl in Hip.
  assert (Hfp : forall fp s3,
             match s2 with
             | [] => ([], [])
             | ch :: r => if code ch =? 46 then span_digits r else ([], s2)
             end = (fp, s3) -> forallb is_digit fp = true).
  { intros fp s3 E. destruct s2 as [|ch r]; [now inversion E|].
    destruct (code ch =? 46).
    - pose proof (span_digits_digits r) as H. rewrite E in H. exact H.
    - now inversion E. }
  destruct (match s2 with [] => _ | _ :: _ => _ end) as [fp s3] eqn:E2.
  specialize (Hfp fp s3 eq_refl).
  destruct (ip ++ fp) as [|a l] eqn:E3.
  - intro H. now apply parse_special_not_finite in H.
  - destruct (parse_exponent s3); [|discriminate].
    intro H. inversion H; subst. apply dec_value_nonneg.
    rewrite <- E3, forallb_app, Hip, Hfp. reflexivity.
Qed.

(** C1, as stated, fails: [to_integral_value()] rounds half to even, so an
    amount of 1.5 wei becomes 2 raw units where truncation gives 1, and the
    check then accepts an on-chain value of 2 and rejects 1. *)
Lemma exp_raw_rounds_up_where_truncation_rounds_down :
  let amount := txt "0.0000000000000000015" in
  let rec := Legacy.mkReceipt (Legacy.JStr (txt "0x1")) (Some (txt "0x5208"))
               (Some (txt "0x989680")) (Some (txt "0x10")) [] in
  let tx v := Legacy.mkTx (Some Legacy.TESTING_WALLET) (Some Legacy.GATEWAY)
                (Some v) (Some (txt "0x")) (Some (txt "0x10")) in
  Legacy.exp_raw_of amount = Ok 2
  /\ Legacy.spec_truncated_raw amount = Ok 1
  /\ raised (Legacy.verify_testing_return (fun _ => Ok (tx (txt "0x2")))
               (fun _ => Ok rec) (txt "0xabc") amount) = false
  /\ Legacy.verify_testing_return (fun _ => Ok (tx (txt "0x1")))
       (fun _ => Ok rec) (txt "0xabc") amount
     = Raise (RuntimeError (txt "testing return mismatch: 0xabc")).
Proof. repeat split; vm_compute; reflexivity. Qed.

Ltac ok_steps H :=
  repeat match type of H with
         | bind ?x _ = Ok _ =>
             let E := fresh "E" in
             destruct x eqn:E; cbn [bind] in H; [|discriminate H]
         | (if ?b then Raise _ else _) = Ok _ =>
             let E := fresh "C" in
             destruct b eqn:E; [discriminate H|]
         end.

(** C1, amended: the expected amount is multiplied by [10^18] and rounded to
    the nearest integer, the even one when the product lies half-way between
    two integers (for every amount whose product fits the 60 digits of the
    context); a flow is accepted only when the on-chain value - the value
    of the transaction, or the sum of the matching [Transfer] values -
    equals that integer. *)
Theorem expected_raw_amount_rounds_half_even
  (get_tx : str -> result Legacy.Tx) (get_receipt : str -> result Legacy.Receipt)
  (row_tx_hash amount_text : str) (neg : bool) (c e : Z) :
  of_str amount_text = Ok (Finite neg c e) ->
  c < 10 ^ 42 -> -1000058 <= e <= 999940 ->
  exists w : Z,
    Legacy.exp_raw_of amount_text = Ok w
    /\ (Qabs (value neg c e * inject_Z (10 ^ 18) - inject_Z w) <= 1 # 2)%Q
    /\ (Qabs (value neg c e * inject_Z (10 ^ 18) - inject_Z w) == 1 # 2 ->
        Z.even w = true)
    /\ (forall row,
          Legacy.verify_testing_return get_tx get_receipt row_tx_hash amount_text
            = Ok row ->
          exists tx,
            get_tx (lower (strip row_tx_hash)) = Ok tx
            /\ int16 (or_default (Legacy.tx_value tx) (txt "0x0")) = Ok w
            /\ Legacy.amount_raw row = w)
    /\ (forall row,
          Legacy.verify_safe_lpt get_receipt row_tx_hash amount_text = Ok row ->
          exists rec transfers,
            get_receipt (lower (strip row_tx_hash)) = Ok rec
            /\ Legacy._erc20_transfers_in_receipt rec Legacy.LPT = Ok transfers
            /\ Legacy.sum_values
                 (fun t => str_eqb (Legacy._lower_addr (Legacy.t_from t))
                             Legacy.SAFE_WALLET
                           && str_eqb (Legacy._lower_addr (Legacy.t_to t))
                                Legacy.GATEWAY) transfers = w
            /\ Legacy.amount_raw row = w).
Proof.
  intros Hparse Hlt He.
  pose proof (of_str_finite_nonneg _ _ _ _ Hparse) as Hc.
  destruct (raw_of_decimal_half_even neg c e Hc Hlt He) as (w & Hw & Q1 & Q2).
  assert (Hexp : Legacy.exp_raw_of amount_text = Ok w).
  { unfold Legacy.exp_raw_of. rewrite Hparse. exact Hw. }
  exists w. split; [exact Hexp|]. split; [exact Q1|]. split; [exact Q2|]. split.
  - intros row H. unfold Legacy.verify_testing_return in H.
    rewrite Hexp in H. cbn [bind] in H. ok_steps H.
    apply orb_false_iff in C. destruct C as [C _].
    apply orb_false_iff in C. destruct C as [_ C].
    apply negb_false_iff, Z.eqb_eq in C. subst.
    inversion H; subst. eexists. split; [reflexivity|]. split; [exact E2|].
    reflexivity.
  - intros row H. unfold Legacy.verify_safe_lpt in H.
    rewrite Hexp in H. cbn [bind] in H. ok_steps H.
    apply negb_false_iff, Z.eqb_eq in C0.
    inversion H; subst. eexists. eexists.
    split; [reflexivity|]. split; [exact E1|]. split; reflexivity.
Qed.

(** An expected 1.5 ETH against a transaction of 1500000000000000000 wei. *)
Lemma expected_raw_amount_rounds_half_even_witness :
  let tx := Legacy.mkTx (Some Legacy.TESTING_WALLET) (Some Legacy.GATEWAY)
              (Some (txt "0x14d1120d7b160000")) (Some (txt "0x")) (Some (txt "0x10")) in
  let rec := Legacy.mkReceipt (Legacy.JStr (txt "0x1")) (Some (txt "0x5208"))
               (Some (txt "0x989680")) (Some (txt "0x10")) [] in
  of_str (txt "1.5") = Ok (Finite false 15 (-1))
  /\ exists w : Z,
       Legacy.exp_raw_of (txt "1.5") = Ok w
       /\ (Qabs (value false 15 (-1) * inject_Z (10 ^ 18) - inject_Z w) <= 1 # 2)%Q.
Proof.
  intros tx rec.
  assert (Hp : of_str (txt "1.5") = Ok (Finite false 15 (-1))) by reflexivity.
  split; [exact Hp|].
  destruct (expected_raw_amount_rounds_half_even (fun _ => Ok tx) (fun _ => Ok rec)
              (txt "0xabc") (txt "1.5") false 15 (-1) Hp ltac:(reflexivity)
              ltac:(split; discriminate)) as (w & H1 & H2 & _).
  exists w. split; [exact H1 | exact H2].
Defined.

(* ================================================================== *)
(** * Exact division by a power of ten *)

Lemma strip_zeros_spec (n : nat) :
  forall q e ideal q' e' : Z,
    0 < q -> strip_zeros n q e ideal = (q', e') ->
    0 < q' /\ e <= e' /\ q = q' * 10 ^ (e' - e) /\ (e <= ideal -> e' <= ideal).
Proof.
  induction n as [|n IH]; intros q e ideal q' e' Hq H; cbn [strip_zeros] in H.
  - inversion H; subst. rewrite Z.sub_diag. simpl. lia.
  - destruct ((e <? ideal) && (q mod 10 =? 0)) eqn:E.
    + apply andb_true_iff in E. destruct E as [E1 E2].
      apply Z.ltb_lt in E1. apply Z.eqb_eq in E2.
      pose proof (Z.div_mod q 10 ltac:(lia)) as Hdm.
      assert (Hq' : 0 < q / 10) by lia.
      destruct (IH _ _ _ _ _ Hq' H) as (A & B & C & D).
      split; [exact A|]. split; [lia|]. split; [|lia].
      replace (e' - e) with (Z.succ (e' - (e + 1))) by lia.
      rewrite Z.pow_succ_r by lia. lia.
    + inversion H; subst. rewrite Z.sub_diag. simpl. lia.
Qed.

(** The zeros a multiplication by [10^j] has put at the end are all
    stripped, as long as the ideal exponent is not passed. *)
Lemma strip_zeros_pow (j : nat) :
  forall (n : nat) (N e ideal : Z),
    (j <= n)%nat -> e + Z.of_nat j <= ideal ->
    strip_zeros n (N * 10 ^ Z.of_nat j) e ideal
    = strip_zeros (n - j) N (e + Z.of_nat j) ideal.
Proof.
  induction j as [|j IH]; intros n N e ideal Hj He.
  - simpl. rewrite Z.mul_1_r, Z.add_0_r, Nat.sub_0_r. reflexivity.
  - destruct n as [|n]; [lia|]. cbn [strip_zeros].
    rewrite Nat2Z.inj_succ in *. rewrite Z.pow_succ_r by lia.
    assert ((e <? ideal) = true) as -> by (apply Z.ltb_lt; lia).
    replace (N * (10 * 10 ^ Z.of_nat j)) with (N * 10 ^ Z.of_nat j * 10) by ring.
    rewrite Z.mod_mul by lia. cbn [Z.eqb andb].
    rewrite Z.div_mul by lia.
    rewrite IH by lia. simpl Nat.sub. f_equal. lia.
Qed.


(* ================================================================== *)
(** * Rounded division by a power of ten *)






(* ================================================================== *)
(** * Gas fee of a receipt *)

Lemma quantity_int16 (f : option str) (v : Z) :
  Legacy.quantity f v -> int16 (or_default f (txt "0x0")) = Ok v /\ 0 <= v.
Proof.
  intros [| |s Hne Hhex].
  - split; [reflexivity | lia].
  - split; [reflexivity | lia].
  - split; [|apply hex_value_range].
    destruct s as [|ch r]; [contradiction|].
    change (or_default (Some (txt "0x" ++ ch :: r)) (txt "0x0"))
      with (txt "0x" ++ ch :: r).
    now apply int16_0x_hex.
Qed.




(* ================================================================== *)
(** * Comparison with the committed totals *)

Lemma value_scaled (neg : bool) (c e m : Z) :
  m <= e -> value neg c e == inject_Z (scaled neg c e m) * inject_Z 10 ^ m.
Proof.
  intro H. unfold value, scaled. rewrite inject_Z_mult.
  rewrite (Zpower_Qpower 10 (e - m)) by lia.
  rewrite <- Qmult_assoc. rewrite <- (Qpower_plus _ _ _ inject_Z_10_nonzero).
  replace (e - m + m) with e by lia. reflexivity.
Qed.

(** [==] on finite decimals is equality of the numbers they denote. *)
Lemma eq_finite_value (s1 s2 : bool) (c1 c2 e1 e2 : Z) :
  eq (Finite s1 c1 e1) (Finite s2 c2 e2)
  = Ok (Qeq_bool (value s1 c1 e1) (value s2 c2 e2)).
Proof.
  cbn [eq]. f_equal. set (m := Z.min e1 e2).
  assert (H1 : m <= e1) by (unfold m; lia).
  assert (H2 : m <= e2) by (unfold m; lia).
  pose proof (value_scaled s1 c1 e1 m H1) as V1.
  pose proof (value_scaled s2 c2 e2 m H2) as V2.
  assert (Hnz : ~ inject_Z 10 ^ m == 0)
    by (apply Qpower_not_0; exact inject_Z_10_nonzero).
  destruct (scaled s1 c1 e1 m =? scaled s2 c2 e2 m) eqn:E.
  - apply Z.eqb_eq in E. symmetry. apply Qeq_bool_iff.
    rewrite V1, V2, E. reflexivity.
  - apply Z.eqb_neq in E. symmetry. apply not_true_iff_false. intro H.
    apply Qeq_bool_iff in H. rewrite V1, V2 in H.
    apply Qmult_inj_r in H; [|exact Hnz].
    apply (proj1 (inject_Z_injective _ _)) in H. contradiction.
Qed.

Lemma differs_numbers (ev ov : str) (a b : Q) :
  Payout.number_of ev = Some a -> Payout.number_of ov = Some b ->
  Payout.differs ev ov = Ok (negb (Qeq_bool a b)).
Proof.
  unfold Payout.number_of, Payout.differs. intros Ha Hb.
  destruct (of_str ev) as [[s1 c1 e1| |]|]; try discriminate.
  destruct (of_str ov) as [[s2 c2 e2| |]|]; try discriminate.
  inversion Ha; inversion Hb; subst. cbn [bind]. unfold ne.
  rewrite eq_finite_value. reflexivity.
Qed.

Lemma compare_loop_report (expected out : Payout.dict str) (keys : list str) :
  (forall k ev, In k keys -> Payout.get k expected = Some ev ->
     exists ov a b, Payout.get k out = Some ov
                    /\ Payout.number_of ev = Some a /\ Payout.number_of ov = Some b) ->
  forall acc : list str,
    Payout.compare_loop expected out keys acc
    = Ok (acc ++ flat_map (Payout.report_line expected out) keys).
Proof.
  induction keys as [|k rest IH]; intros Hnum acc.
  - simpl. now rewrite app_nil_r.
  - assert (Hrest : forall k' ev, In k' rest -> Payout.get k' expected = Some ev ->
              exists ov a b, Payout.get k' out = Some ov
                             /\ Payout.number_of ev = Some a
                             /\ Payout.number_of ov = Some b).
    { intros k' ev Hin. apply Hnum. now right. }
    cbn [Payout.compare_loop flat_map]. unfold Payout.report_line at 1.
    destruct (Payout.get k expected) as [ev|] eqn:Ee; [|now apply IH].
    destruct (Hnum k ev (or_introl eq_refl) Ee) as (ov & a & b & Eo & Ea & Eb).
    rewrite Eo, Ea, Eb, (differs_numbers ev ov a b Ea Eb). cbn [bind].
    destruct (Qeq_bool a b); cbn [negb].
    + now apply IH.
    + rewrite (IH Hrest). now rewrite <- app_assoc.
Qed.

(** C3, as stated, fails on the kind of equality: the totals are compared
    as [Decimal] numbers, not as texts, so a committed [10.50] against a
    recomputed [10.5] is no mismatch although the two strings differ. *)
Lemma compare_totals_is_not_textual :
  let expected := [(txt "total_eth", txt "10.50")] in
  let out := [(txt "total_eth", txt "10.5")] in
  str_eqb (txt "10.50") (txt "10.5") = false
  /\ Payout.compare_totals expected out = Ok ([], 0).
Proof. split; vm_compute; reflexivity. Qed.

(** C3, amended: when the committed totals are there, each of the six keys
    that the committed file holds is compared with the recomputed total as
    exact decimal numbers (no tolerance, and no regard for how the number is
    written); every key whose numbers differ gets its line in the report, in
    key order, and the value returned is 2 exactly when there is such a key
    and 0 otherwise.  [10.5] against [10.500000000000000001] is a
    mismatch. *)
Theorem compare_totals_exact_decimal (expected out : Payout.dict str) :
  (forall k ev, In k Payout.compared_keys -> Payout.get k expected = Some ev ->
     exists ov a b, Payout.get k out = Some ov
                    /\ Payout.number_of ev = Some a /\ Payout.number_of ov = Some b) ->
  let mismatch k line :=
    exists ev ov a b,
      Payout.get k expected = Some ev /\ Payout.get k out = Some ov
      /\ Payout.number_of ev = Some a /\ Payout.number_of ov = Some b
      /\ ~ a == b /\ line = Payout.mismatch_line k ev ov in
  exists lines code,
    Payout.compare_totals expected out = Ok (lines, code)
    /\ lines = Payout.report expected out
    /\ (forall line, In line lines <->
                     exists k, In k Payout.compared_keys /\ mismatch k line)
    /\ (code = 2 <-> exists k line, In k Payout.compared_keys /\ mismatch k line)
    /\ (code = 0 <-> ~ exists k line, In k Payout.compared_keys /\ mismatch k line)
    /\ Payout.compare_totals [(txt "total_eth", txt "10.5")]
         [(txt "total_eth", txt "10.500000000000000001")]
       = Ok ([txt "total_eth: expected 10.5 got 10.500000000000000001"], 2).
Proof.
  intros Hnum mismatch.
  assert (Hin : forall line,
             In line (Payout.report expected out) <->
             exists k, In k Payout.compared_keys /\ mismatch k line).
  { intro line. unfold Payout.report. rewrite in_flat_map. split.
    - intros (k & Hk & Hl). exists k. split; [exact Hk|].
      unfold Payout.report_line in Hl.
      destruct (Payout.get k expected) as [ev|] eqn:Ee; [|contradiction].
      destruct (Payout.get k out) as [ov|] eqn:Eo; [|contradiction].
      destruct (Payout.number_of ev) as [a|] eqn:Ea; [|contradiction].
      destruct (Payout.number_of ov) as [b|] eqn:Eb; [|contradiction].
      destruct (Qeq_bool a b) eqn:Eq; [contradiction|].
      destruct Hl as [<- | []]. exists ev, ov, a, b.
      split; [exact Ee|]. split; [exact Eo|]. split; [exact Ea|].
      split; [exact Eb|]. split; [|reflexivity].
      intro H. apply Qeq_bool_iff in H. congruence.
    - intros (k & Hk & ev & ov & a & b & Ee & Eo & Ea & Eb & Hne & ->).
      exists k. split; [exact Hk|].
      unfold Payout.report_line. rewrite Ee, Eo, Ea, Eb.
      destruct (Qeq_bool a b) eqn:Eq; [|now left].
      apply Qeq_bool_iff in Eq. contradiction. }
  assert (Hrun : Payout.compare_totals expected out
                 = Ok (Payout.report expected out,
                       match Payout.report expected out with [] => 0 | _ :: _ => 2 end)).
  { unfold Payout.compare_totals. destruct expected as [|kv rest] eqn:Ex.
    - reflexivity.
    - rewrite <- Ex in *. rewrite (compare_loop_report expected out _ Hnum []).
      cbn [bind app]. fold (Payout.report expected out).
      destruct (Payout.report expected out); reflexivity. }
  exists (Payout.report expected out),
    (match Payout.report expected out with [] => 0 | _ :: _ => 2 end).
  split; [exact Hrun|]. split; [reflexivity|]. split; [exact Hin|].
  split; [|split].
  - split.
    + intro H. destruct (Payout.report expected out) as [|l ls] eqn:Er;
        [discriminate H|].
      destruct (proj1 (Hin l) (or_introl eq_refl)) as (k & Hk & Hm).
      now exists k, l.
    + intros (k & line & Hk & Hm).
      assert (Hl : In line (Payout.report expected out))
        by (apply Hin; now exists k).
      destruct (Payout.report expected out); [contradiction | reflexivity].
  - split.
    + intros H (k & line & Hk & Hm).
      assert (Hl : In line (Payout.report expected out))
        by (apply Hin; now exists k).
      destruct (Payout.report expected out); [contradiction | discriminate H].
    + intro H. destruct (Payout.report expected out) as [|l ls] eqn:Er;
        [reflexivity|].
      exfalso. apply H.
      destruct (proj1 (Hin l) (or_introl eq_refl)) as (k & Hk & Hm).
      now exists k, l.
  - vm_compute. reflexivity.
Qed.

(** Committed totals that agree with the recomputed ones up to the way the
    numbers are written, and one that does not. *)
Lemma compare_totals_exact_decimal_witness :
  let expected := [(txt "total_eth", txt "10.5"); (txt "manual_ticket_eth", txt "0.0120")] in
  let out := [(txt "phase1+2_ticket_eth", txt "9.5"); (txt "manual_ticket_eth", txt "0.012");
              (txt "dec31_ticket_eth", txt "0"); (txt "jan22_ticket_eth", txt "0");
              (txt "phase3_transfer_eth", txt "1");
              (txt "total_eth", txt "10.500000000000000001")] in
  exists lines : list str,
    Payout.compare_totals expected out = Ok (lines, 2)
    /\ lines = Payout.report expected out.
Proof.
  intros expected out.
  assert (Hnum : forall k ev, In k Payout.compared_keys ->
             Payout.get k expected = Some ev ->
             exists ov a b, Payout.get k out = Some ov
                            /\ Payout.number_of ev = Some a
                            /\ Payout.number_of ov = Some b).
  { intros k ev Hk. cbn [In Payout.compared_keys] in Hk.
    destruct Hk as [<- | [<- | [<- | [<- | [<- | [<- | []]]]]]]; intro H;
      vm_compute in H; try discriminate H; inversion H; subst;
      eexists; eexists; eexists; (split; [|split]); vm_compute; reflexivity. }
  destruct (compare_totals_exact_decimal expected out Hnum)
    as (lines & code & Hrun & Hlines & _ & _ & H0 & _).
  exists lines. split; [|exact Hlines].
  rewrite Hrun. f_equal. f_equal.
  rewrite Hlines in Hrun. vm_compute in Hrun. inversion Hrun. reflexivity.
Defined.

(* ================================================================== *)
(** * The log range scan *)

Section ScanFacts.

Variable provider : nat -> str -> list str -> Z -> Z -> result (list Payout.ScanLog).
Variable sender_topic : str.
Variable end_ : Z.

(** A pass that goes on leaves less to do: it moves the start forward or
    shrinks the chunk size, and the chunk size stays positive. *)
Lemma scan_pass_decreases (st st' : Payout.ScanState) :
  1 <= Payout.chunk_size st ->
  Payout.scan_pass provider sender_topic end_ st = Payout.Next st' ->
  (Payout.scan_measure end_ st' < Payout.scan_measure end_ st)%nat
  /\ 1 <= Payout.chunk_size st'.
Proof.
  intros Hc H. unfold Payout.scan_pass in H.
  destruct (Payout.cur st <=? end_) eqn:Ecur; [|discriminate H].
  apply Z.leb_le in Ecur.
  destruct (provider _ _ _ _ _) as [logs | e].
  - destruct (Payout.add_logs logs _ _) as [[t c] | e]; [|discriminate H].
    inversion H; subst; clear H. unfold Payout.scan_measure. cbn.
    split; [lia | exact Hc].
  - destruct e as [msg | | | | | | |]; try discriminate H.
    destruct (Payout.oversized (lower msg)); [|discriminate H].
    destruct (Payout.chunk_size st <=? 10000) eqn:Ef; [discriminate H|].
    apply Z.leb_gt in Ef. inversion H; subst; clear H.
    unfold Payout.scan_measure. cbn.
    pose proof (Z.div_lt (Payout.chunk_size st) 2 ltac:(lia) ltac:(lia)).
    split; lia.
Qed.

(** The loop ends within [scan_measure] passes and one, whatever the
    provider answers. *)
Lemma scan_loop_terminates (fuel : nat) :
  forall st : Payout.ScanState,
    1 <= Payout.chunk_size st ->
    (Payout.scan_measure end_ st < fuel)%nat ->
    exists r, Payout.scan_loop provider fuel sender_topic end_ st = Some r.
Proof.
  induction fuel as [|f IH]; intros st Hc Hm; [lia|].
  cbn [Payout.scan_loop].
  destruct (Payout.scan_pass provider sender_topic end_ st) as [r | st'] eqn:E.
  - now exists r.
  - destruct (scan_pass_decreases st st' Hc E) as [Hd Hc'].
    apply IH; [exact Hc' | lia].
Qed.

(** More passes than needed change nothing. *)
Lemma scan_loop_mono (fuel : nat) :
  forall (st : Payout.ScanState) (r : result (Z * Z)),
    Payout.scan_loop provider fuel sender_topic end_ st = Some r ->
    forall fuel' : nat, (fuel <= fuel')%nat ->
      Payout.scan_loop provider fuel' sender_topic end_ st = Some r.
Proof.
  induction fuel as [|f IH]; intros st r H fuel' Hle; [discriminate H|].
  destruct fuel' as [|f']; [lia|]. cbn [Payout.scan_loop] in *.
  destruct (Payout.scan_pass provider sender_topic end_ st) as [r0 | st'].
  - exact H.
  - apply (IH st' r H). lia.
Qed.

(** When every query is answered with an oversized-response fault, the
    scan of a non-empty range ends with that fault. *)
Lemma scan_loop_always_oversized (fuel : nat) :
  (forall n lo hi, exists e,
      provider n Payout.TICKETBROKER
        [Payout.WINNING_TICKET_REDEEMED_TOPIC0; sender_topic] lo hi
      = Raise (RuntimeError e) /\ Payout.oversized (lower e) = true) ->
  forall st : Payout.ScanState,
    1 <= Payout.chunk_size st -> Payout.cur st <= end_ ->
    (Payout.scan_measure end_ st < fuel)%nat ->
    exists e, Payout.scan_loop provider fuel sender_topic end_ st
              = Some (Raise (RuntimeError e))
              /\ Payout.oversized (lower e) = true.
Proof.
  intro Hover. induction fuel as [|f IH]; intros st Hc Hcur Hm; [lia|].
  cbn [Payout.scan_loop].
  destruct (Payout.scan_pass provider sender_topic end_ st) as [r | st'] eqn:E.
  - unfold Payout.scan_pass in E.
    assert ((Payout.cur st <=? end_) = true) as Ec by (apply Z.leb_le; exact Hcur).
    rewrite Ec in E.
    destruct (Hover (Payout.calls st) (Payout.cur st)
                (Z.min (Payout.cur st + Payout.chunk_size st - 1) end_))
      as (e & He & Ho).
    rewrite He, Ho in E.
    destruct (Payout.chunk_size st <=? 10000); [|discriminate E].
    inversion E; subst. now exists e.
  - destruct (scan_pass_decreases st st' Hc E) as [Hd Hc'].
    apply IH; [exact Hc' | | lia].
    unfold Payout.scan_pass in E.
    assert ((Payout.cur st <=? end_) = true) as Ec by (apply Z.leb_le; exact Hcur).
    rewrite Ec in E.
    destruct (Hover (Payout.calls st) (Payout.cur st)
                (Z.min (Payout.cur st + Payout.chunk_size st - 1) end_))
      as (e & He & Ho).
    rewrite He, Ho in E.
    destruct (Payout.chunk_size st <=? 10000); [discriminate E|].
    inversion E; subst. exact Hcur.
Qed.

End ScanFacts.

Lemma add_logs_app (a b : list Payout.ScanLog) :
  forall t c : Z,
    Payout.add_logs (a ++ b) t c
    = match Payout.add_logs a t c with
      | Ok (t', c') => Payout.add_logs b t' c'
      | Raise e => Raise e
      end.
Proof.
  induction a as [|l a IH]; intros t c; cbn [app Payout.add_logs].
  - reflexivity.
  - destruct (int16 _) as [v|e]; cbn [bind]; [apply IH | reflexivity].
Qed.

Lemma chunk_count_inside (from_block to_block chunk : Z) (i : nat) :
  1 <= chunk -> (i < Payout.chunk_count from_block to_block chunk)%nat ->
  from_block + Z.of_nat i * chunk <= to_block.
Proof.
  intros Hc Hi. unfold Payout.chunk_count in Hi.
  set (a := to_block - from_block + chunk) in *.
  pose proof (Z.div_mod a chunk ltac:(lia)) as Hdm.
  pose proof (Z.mod_pos_bound a chunk ltac:(lia)) as Hm.
  assert (Hq : Z.of_nat i + 1 <= a / chunk) by lia.
  nia.
Qed.

Lemma chunk_count_covers (from_block to_block chunk : Z) :
  1 <= chunk ->
  to_block
  < from_block + Z.of_nat (Payout.chunk_count from_block to_block chunk) * chunk.
Proof.
  intro Hc. unfold Payout.chunk_count.
  set (a := to_block - from_block + chunk) in *.
  pose proof (Z.div_mod a chunk ltac:(lia)) as Hdm.
  pose proof (Z.mod_pos_bound a chunk ltac:(lia)) as Hm.
  destruct (Z.le_gt_cases 0 (a / chunk)) as [Hq|Hq].
  - rewrite Z2Nat.id by exact Hq. nia.
  - assert (E : Z.to_nat (a / chunk) = 0%nat) by lia. rewrite E. nia.
Qed.

Section ScanSuccess.

Variable provider : nat -> str -> list str -> Z -> Z -> result (list Payout.ScanLog).
Variable sender_topic : str.
Variables from_block to_block chunk : Z.
Variable logs : nat -> list Payout.ScanLog.

Hypothesis chunk_pos : 1 <= chunk.

Hypothesis every_chunk_succeeds :
  forall i : nat,
    (i < Payout.chunk_count from_block to_block chunk)%nat ->
    provider i Payout.TICKETBROKER
      [Payout.WINNING_TICKET_REDEEMED_TOPIC0; sender_topic]
      (fst (Payout.chunk_range from_block to_block chunk i))
      (snd (Payout.chunk_range from_block to_block chunk i))
    = Ok (logs i).

(** With [k] chunks still to scan, the loop adds the logs of these chunks,
    in block order, to the totals it has. *)
Lemma scan_loop_all_succeed (k : nat) :
  forall (i : nat) (st : Payout.ScanState) (fuel : nat),
    Payout.chunk_size st = chunk -> Payout.calls st = i ->
    (i + k = Payout.chunk_count from_block to_block chunk)%nat ->
    (k <> 0%nat -> Payout.cur st = from_block + Z.of_nat i * chunk) ->
    (k = 0%nat -> to_block < Payout.cur st) ->
    (k < fuel)%nat ->
    Payout.scan_loop provider fuel sender_topic to_block st
    = Some match Payout.add_logs (concat (map logs (seq i k)))
                   (Payout.total_wei st) (Payout.count st) with
           | Ok (t, c) => Ok (c, t)
           | Raise e => Raise e
           end.
Proof.
  induction k as [|k IH]; intros i st fuel Hsize Hcalls Hn Hcur Hend Hfuel;
    (destruct fuel as [|f]; [lia|]); cbn [Payout.scan_loop].
  - specialize (Hend eq_refl). unfold Payout.scan_pass.
    assert ((Payout.cur st <=? to_block) = false) as -> by (apply Z.leb_gt; lia).
    reflexivity.
  - specialize (Hcur ltac:(discriminate)).
    assert (Hi : (i < Payout.chunk_count from_block to_block chunk)%nat) by lia.
    pose proof (chunk_count_inside from_block to_block chunk i chunk_pos Hi) as Hin.
    unfold Payout.scan_pass.
    assert ((Payout.cur st <=? to_block) = true) as -> by (apply Z.leb_le; lia).
    pose proof (every_chunk_succeeds i Hi) as Hq.
    unfold Payout.chunk_range in Hq. cbn [fst snd] in Hq.
    rewrite Hcalls, Hsize, Hcur, Hq.
    cbn [seq map concat]. rewrite add_logs_app.
    destruct (Payout.add_logs (logs i) _ _) as [[t c] | e]; [|reflexivity].
    rewrite (IH (S i)); try reflexivity; try lia.
    + intro Hk. cbn [Payout.cur].
      assert (Hi' : (S i < Payout.chunk_count from_block to_block chunk)%nat) by lia.
      pose proof (chunk_count_inside from_block to_block chunk (S i) chunk_pos Hi').
      lia.
    + intro Hk. cbn [Payout.cur].
      pose proof (chunk_count_covers from_block to_block chunk chunk_pos) as Hcov.
      replace (Payout.chunk_count from_block to_block chunk) with (S i) in Hcov by lia.
      lia.
Qed.

End ScanSuccess.

(** C6, as stated, fails on what a successful scan returns: the function
    hands back the number of logs and the sum of their amounts, not the
    logs, so two scans whose logs come in a different order return the
    same value. *)
Lemma scan_returns_count_and_sum_not_logs :
  let l5 := Payout.mkScanLog (Some (txt "0x05")) in
  let l7 := Payout.mkScanLog (Some (txt "0x07")) in
  let p1 := fun (_ : nat) (_ : str) (_ : list str) (_ _ : Z) => Ok [l5; l7] in
  let p2 := fun (_ : nat) (_ : str) (_ : list str) (_ _ : Z) => Ok [l7; l5] in
  [l5; l7] <> [l7; l5]
  /\ Payout._sum_ticketbroker_sender_logs p1 3 Payout.GATEWAY_SENDER
       337000000 337000100 Payout.default_chunk_size = Some (Ok (2, 12))
  /\ Payout._sum_ticketbroker_sender_logs p2 3 Payout.GATEWAY_SENDER
       337000000 337000100 Payout.default_chunk_size = Some (Ok (2, 12)).
Proof.
  repeat split; try (vm_compute; reflexivity).
  intro H. discriminate H.
Qed.

(** C6, amended: for a positive chunk size (the default is 2000000) the
    scan ends on every range and for every behaviour of the provider, within
    [scan_fuel] passes.  On an oversized-response fault the pass raises the
    fault when the chunk size is at most 10000 and otherwise halves the
    chunk size, not below 10000, and queries again from the same start
    block; so a non-empty range whose every query meets that fault ends
    with the fault.  When every chunk succeeds, the scan returns the number
    of logs and the sum of their amounts over the logs of the chunks taken
    in block order. *)
Theorem scan_converges
  (provider : nat -> str -> list str -> Z -> Z -> result (list Payout.ScanLog))
  (sender : str) (from_block to_block chunk : Z) :
  1 <= chunk ->
  let run fuel :=
    Payout._sum_ticketbroker_sender_logs provider fuel sender from_block to_block chunk in
  let fuel0 := Payout.scan_fuel from_block to_block chunk in
  let topics t := [Payout.WINNING_TICKET_REDEEMED_TOPIC0; t] in
  (exists r, forall fuel, (fuel0 <= fuel)%nat -> run fuel = Some r)
  /\ (forall sender_topic,
        Payout._topic_addr sender = Ok sender_topic ->
        from_block <= to_block ->
        (forall n lo hi, exists e,
            provider n Payout.TICKETBROKER (topics sender_topic) lo hi
            = Raise (RuntimeError e) /\ Payout.oversized (lower e) = true) ->
        exists e, run fuel0 = Some (Raise (RuntimeError e))
                  /\ Payout.oversized (lower e) = true)
  /\ (forall sender_topic logs,
        Payout._topic_addr sender = Ok sender_topic ->
        (forall i : nat,
            (i < Payout.chunk_count from_block to_block chunk)%nat ->
            provider i Payout.TICKETBROKER (topics sender_topic)
              (fst (Payout.chunk_range from_block to_block chunk i))
              (snd (Payout.chunk_range from_block to_block chunk i))
            = Ok (logs i)) ->
        run fuel0
        = Some match Payout.add_logs
                       (concat (map logs
                                  (seq 0 (Payout.chunk_count from_block to_block chunk))))
                       0 0 with
               | Ok (t, c) => Ok (c, t)
               | Raise e => Raise e
               end)
  /\ (forall sender_topic st e,
        Payout.cur st <= to_block ->
        provider (Payout.calls st) Payout.TICKETBROKER (topics sender_topic)
          (Payout.cur st)
          (Z.min (Payout.cur st + Payout.chunk_size st - 1) to_block)
        = Raise (RuntimeError e) ->
        Payout.oversized (lower e) = true ->
        Payout.scan_pass provider sender_topic to_block st
        = if Payout.chunk_size st <=? 10000 then Payout.Return (Raise (RuntimeError e))
          else Payout.Next
                 (Payout.mkScanState (Payout.cur st)
                    (Z.max 10000 (Payout.chunk_size st / 2))
                    (Payout.total_wei st) (Payout.count st) (Payout.chunks st)
                    (S (Payout.calls st)))).
Proof.
  intros Hchunk run fuel0 topics.
  set (st0 := Payout.mkScanState from_block chunk 0 0 0 0).
  assert (Hm0 : (Payout.scan_measure to_block st0 < fuel0)%nat).
  { unfold fuel0, Payout.scan_fuel, Payout.scan_measure, st0. cbn. lia. }
  assert (Hrun : forall fuel t, Payout._topic_addr sender = Ok t ->
             run fuel = Payout.scan_loop provider fuel t to_block st0).
  { intros fuel t Ht. unfold run, Payout._sum_ticketbroker_sender_logs.
    now rewrite Ht. }
  split; [|split; [|split]].
  - destruct (Payout._topic_addr sender) as [t|e] eqn:Et.
    + destruct (scan_loop_terminates provider t to_block fuel0 st0 Hchunk Hm0)
        as [r Hr].
      exists r. intros fuel Hle. rewrite (Hrun fuel t eq_refl).
      now apply (scan_loop_mono provider t to_block fuel0).
    + exists (Raise e). intros fuel _.
      unfold run, Payout._sum_ticketbroker_sender_logs. now rewrite Et.
  - intros t Ht Hne Hover. rewrite (Hrun fuel0 t Ht).
    now apply scan_loop_always_oversized.
  - intros t logs Ht Hall. rewrite (Hrun fuel0 t Ht).
    destruct (scan_loop_terminates provider t to_block fuel0 st0 Hchunk Hm0)
      as [r Hr].
    set (n := Payout.chunk_count from_block to_block chunk) in *.
    assert (Hbig : Payout.scan_loop provider (Nat.max fuel0 (S n)) t to_block st0
                   = Some match Payout.add_logs (concat (map logs (seq 0 n))) 0 0 with
                          | Ok (tot, c) => Ok (c, tot)
                          | Raise e => Raise e
                          end).
    { apply (scan_loop_all_succeed provider t from_block to_block chunk logs
               Hchunk Hall n 0%nat st0); try reflexivity; try lia.
      - intros _. cbn. lia.
      - intro Hz. cbn [Payout.cur st0].
        pose proof (chunk_count_covers from_block to_block chunk Hchunk) as Hc.
        fold n in Hc. rewrite Hz in Hc. cbn in Hc. unfold st0. cbn. lia. }
    rewrite (scan_loop_mono provider t to_block fuel0 st0 r Hr
               (Nat.max fuel0 (S n)) ltac:(lia)) in Hbig.
    rewrite Hr. exact Hbig.
  - intros t st e Hcur Hq Ho. unfold Payout.scan_pass.
    assert ((Payout.cur st <=? to_block) = true) as -> by (apply Z.leb_le; lia).
    unfold topics in Hq. rewrite Hq, Ho. reflexivity.
Qed.

(** A scan of six blocks with a chunk size of 20000 against a provider that
    refuses the first query as too large. *)
Lemma scan_converges_witness :
  let provider :=
    fun (n : nat) (_ : str) (_ : list str) (_ _ : Z) =>
      match n with
      | O => Raise (RuntimeError (txt "query returned more than 10000 results"))
      | S _ => Ok [Payout.mkScanLog (Some (txt "0x05"))]
      end in
  1 <= 20000
  /\ exists r, forall fuel : nat,
       (Payout.scan_fuel 0 5 20000 <= fuel)%nat ->
       Payout._sum_ticketbroker_sender_logs provider fuel Payout.GATEWAY_SENDER
         0 5 20000 = Some r.
Proof.
  intro provider.
  assert (H : 1 <= 20000) by lia.
  split; [exact H|].
  destruct (scan_converges provider Payout.GATEWAY_SENDER 0 5 20000 H) as [Hterm _].
  exact Hterm.
Defined.

(* ================================================================== *)
(** * USDC treasury: merged logs and totals *)

Lemma key_eqb_eq (a b : str * str) : Usdc.key_eqb a b = true <-> a = b.
Proof.
  destruct a as [a1 a2], b as [b1 b2]. unfold Usdc.key_eqb. cbn [fst snd].
  rewrite andb_true_iff, !str_eqb_eq. split.
  - now intros [-> ->].
  - intro H. now inversion H.
Qed.

Lemma dict_set_keys (k : str * str) (v : Usdc.RawLog) (d : list ((str * str) * Usdc.RawLog)) :
  forall k', In k' (map fst (Usdc.dict_set k v d)) <-> k' = k \/ In k' (map fst d).
Proof.
  induction d as [|[k0 v0] d IH]; intro k'; cbn [Usdc.dict_set map fst In].
  - split; [intros [<- | []]; now left | intros [-> | []]; now left].
  - destruct (Usdc.key_eqb k k0) eqn:E; cbn [map fst In].
    + apply key_eqb_eq in E. subst k0. intuition congruence.
    + rewrite IH. intuition congruence.
Qed.

Lemma dict_set_NoDup (k : str * str) (v : Usdc.RawLog) (d : list ((str * str) * Usdc.RawLog)) :
  NoDup (map fst d) -> NoDup (map fst (Usdc.dict_set k v d)).
Proof.
  induction d as [|[k0 v0] d IH]; intro H; cbn [Usdc.dict_set map fst].
  - constructor; [intros [] | constructor].
  - cbn [map fst] in H. inversion H as [|? ? Hnin Hnd]; subst.
    destruct (Usdc.key_eqb k k0) eqn:E; cbn [map fst].
    + apply key_eqb_eq in E. subst k0. now constructor.
    + constructor; [|now apply IH].
      rewrite dict_set_keys. intros [-> | Hin]; [|contradiction].
      assert (Usdc.key_eqb k k = true) by now apply key_eqb_eq. congruence.
Qed.

Lemma dict_set_entries (k : str * str) (v : Usdc.RawLog) (d : list ((str * str) * Usdc.RawLog)) :
  forall e, In e (Usdc.dict_set k v d) -> e = (k, v) \/ In e d.
Proof.
  induction d as [|[k0 v0] d IH]; intros e H; cbn [Usdc.dict_set] in H.
  - destruct H as [<- | []]. now left.
  - destruct (Usdc.key_eqb k k0); cbn [In] in *.
    + destruct H as [<- | H]; [now left | right; now right].
    + destruct H as [<- | H]; [right; now left|].
      destruct (IH e H) as [-> | Hin]; [now left | right; now right].
Qed.

Lemma merge_fold_ok (ls : list Usdc.RawLog) :
  forall (src : list Usdc.RawLog) (d : list ((str * str) * Usdc.RawLog)),
    Usdc.merged_ok src d ->
    let d' := fold_left (fun m l => Usdc.dict_set (Usdc.log_key l) l m) ls d in
    Usdc.merged_ok (src ++ ls) d'
    /\ (forall k, In k (map fst d) -> In k (map fst d'))
    /\ (forall l, In l ls -> In (Usdc.log_key l) (map fst d')).
Proof.
  induction ls as [|l ls IH]; intros src d [Hnd Hent]; cbn [fold_left].
  - rewrite app_nil_r. cbv zeta. split; [split; assumption|].
    split; [auto | intros l []].
  - set (d1 := Usdc.dict_set (Usdc.log_key l) l d).
    assert (H1 : Usdc.merged_ok (src ++ [l]) d1).
    { split; [now apply dict_set_NoDup|].
      intros e He. destruct (dict_set_entries _ _ _ e He) as [-> | Hin].
      - cbn [fst snd]. split; [reflexivity|]. apply in_or_app. right. now left.
      - destruct (Hent e Hin) as [A B]. split; [exact A|].
        apply in_or_app. now left. }
    destruct (IH (src ++ [l]) d1 H1) as (A & B & C).
    rewrite <- app_assoc in A. cbn [app] in A.
    split; [exact A|]. split.
    + intros k Hk. apply B. unfold d1. rewrite dict_set_keys. now right.
    + intros l' [<- | Hl'].
      * apply B. unfold d1. rewrite dict_set_keys. now left.
      * now apply C.
Qed.

(** The merged list holds each (transaction hash, log index) once, covers
    both query results and holds nothing else. *)
Lemma merge_logs_dedup (out_logs in_logs : list Usdc.RawLog) :
  let merged := Usdc.merge_logs out_logs in_logs in
  NoDup (map Usdc.log_key merged)
  /\ (forall l, In l (out_logs ++ in_logs) -> In (Usdc.log_key l) (map Usdc.log_key merged))
  /\ (forall l, In l merged -> In l (out_logs ++ in_logs)).
Proof.
  unfold Usdc.merge_logs.
  assert (H0 : Usdc.merged_ok [] []) by (split; [constructor | intros e []]).
  destruct (merge_fold_ok out_logs [] [] H0) as (A1 & _ & C1).
  destruct (merge_fold_ok in_logs _ _ A1) as (A2 & B2 & C2).
  cbn [app] in *. cbv zeta in *.
  set (d := fold_left _ in_logs _) in *.
  destruct A2 as [Hnd Hent].
  assert (Hkeys : map Usdc.log_key (map snd d) = map fst d).
  { rewrite map_map. apply map_ext_in. intros e He.
    destruct (Hent e He) as [E _]. now symmetry. }
  rewrite Hkeys. split; [exact Hnd|]. split.
  - intros l Hl. apply in_app_or in Hl. destruct Hl as [Hl | Hl].
    + apply B2. now apply C1.
    + now apply C2.
  - intros l Hl. apply in_map_iff in Hl. destruct Hl as (e & <- & He).
    now apply Hent.
Qed.




Lemma mapM_Forall {A B : Type} (f : A -> result B) (P : B -> Prop) (xs : list A) :
  (forall x y, f x = Ok y -> P y) ->
  forall ys, mapM f xs = Ok ys -> Forall P ys /\ length ys = length xs.
Proof.
  intro Hf. induction xs as [|x xs IH]; intros ys H; cbn [mapM] in H.
  - inversion H. split; [constructor | reflexivity].
  - destruct (f x) as [y|e] eqn:Ex; cbn [bind] in H; [|discriminate H].
    destruct (mapM f xs) as [ys'|e]; cbn [bind] in H; [|discriminate H].
    inversion H; subst. destruct (IH ys' eq_refl) as [F L].
    split; [constructor; [now apply (Hf x) | exact F] | cbn; now rewrite L].
Qed.




(* ================================================================== *)
(** * Normalisation and topic words, continued *)

Lemma is_space_lower_char (c : ascii) : is_space (lower_char c) = is_space c.
Proof. destruct c as [[] [] [] [] [] [] [] []]; reflexivity. Qed.

Lemma lstrip_lower (s : str) : lstrip (lower s) = lower (lstrip s).
Proof.
  induction s as [|c r IH]; [reflexivity|].
  simpl. rewrite is_space_lower_char. destruct (is_space c); [exact IH | reflexivity].
Qed.

Lemma strip_lower (s : str) : strip (lower s) = lower (strip s).
Proof.
  unfold strip, rstrip, lower. fold (lower s).
  rewrite lstrip_lower. unfold lower.
  rewrite <- map_rev. fold (lower (rev (lstrip s))). rewrite lstrip_lower.
  unfold lower. now rewrite map_rev.
Qed.

(** [lstrip] removes a run of white space and stops at the first other
    character. *)
Lemma lstrip_split (s : str) :
  exists p, s = p ++ lstrip s /\ forallb is_space p = true
            /\ match lstrip s with [] => True | c :: _ => is_space c = false end.
Proof.
  induction s as [|c r (p & E & Hp & Hh)].
  - exists []. now split.
  - simpl. destruct (is_space c) eqn:Ec.
    + exists (c :: p). split; [simpl; now f_equal|]. split; [simpl; now rewrite Ec|exact Hh].
    + exists []. split; [reflexivity|]. split; [reflexivity|exact Ec].
Qed.

Lemma lstrip_head (s : str) :
  match s with [] => True | c :: _ => is_space c = false end -> lstrip s = s.
Proof. destruct s as [|c r]; [reflexivity|]. simpl. now intros ->. Qed.

Lemma lstrip_fixed_head (s : str) :
  lstrip s = s -> match s with [] => True | c :: _ => is_space c = false end.
Proof.
  intro E. destruct (lstrip_split s) as (p & _ & _ & H). now rewrite E in H.
Qed.

(** A stripped text neither starts nor ends with white space. *)
Lemma strip_stripped (s : str) :
  lstrip (strip s) = strip s /\ lstrip (rev (strip s)) = rev (strip s).
Proof.
  unfold strip, rstrip.
  destruct (lstrip_split s) as (p & _ & _ & Hu).
  set (u := lstrip s) in *.
  destruct (lstrip_split (rev u)) as (q & Eq & _ & Hv).
  set (v := lstrip (rev u)) in *.
  rewrite rev_involutive. split.
  - apply lstrip_head.
    assert (Eu : u = rev v ++ rev q).
    { rewrite <- rev_app_distr, <- Eq. now rewrite rev_involutive. }
    destruct (rev v) as [|c w] eqn:Ev; [exact I|].
    rewrite Eu in Hu. exact Hu.
  - apply lstrip_head. exact Hv.
Qed.

Lemma strip_fixed (s : str) :
  lstrip s = s -> lstrip (rev s) = rev s -> strip s = s.
Proof.
  intros H1 H2. unfold strip, rstrip. rewrite H1, H2. apply rev_involutive.
Qed.

Lemma strip_idem (s : str) : strip (strip s) = strip s.
Proof. destruct (strip_stripped s) as [H1 H2]. now apply strip_fixed. Qed.

(** A text that is lower case, stripped, and either empty or with the [0x]
    prefix is left as it is by the legacy normaliser. *)
Lemma lower_addr_fixed (r : str) :
  lower r = r -> strip r = r ->
  r = [] \/ startswith (txt "0x") r = true ->
  Legacy._lower_addr r = r.
Proof.
  intros Hl Hs Hp. unfold Legacy._lower_addr. rewrite Hs, Hl. cbv zeta.
  destruct r as [|c r']; [reflexivity|].
  destruct Hp as [Hp|Hp]; [discriminate|]. rewrite Hp.
  destruct (length (c :: r') =? 42)%nat; simpl andb; cbv iota; [reflexivity|].
  exact (startswith_app (txt "0x") (c :: r') Hp).
Qed.

Lemma strip_0x_app (a : str) :
  a <> [] -> strip a = a -> strip (txt "0x" ++ a) = txt "0x" ++ a.
Proof.
  intros Hne Hs. apply strip_fixed; [reflexivity|].
  rewrite rev_app_distr. apply lstrip_head.
  assert (H : lstrip (rev a) = rev a).
  { rewrite <- Hs. apply strip_stripped. }
  apply lstrip_fixed_head in H.
  destruct (rev a) as [|c w] eqn:E.
  - apply (f_equal (@rev ascii)) in E. rewrite rev_involutive in E. now subst.
  - exact H.
Qed.

(** X1: normalising an address twice gives what normalising it once gives,
    for the normaliser of the legacy script and for the one of the payout
    script, and composing the two in either order gives the result of the
    legacy one: the values the scripts compare are fixed points. *)
Theorem lower_addr_idempotent (addr : str) :
  Legacy._lower_addr (Legacy._lower_addr addr) = Legacy._lower_addr addr
  /\ Payout._lower_addr (Payout._lower_addr addr) = Payout._lower_addr addr
  /\ Payout._lower_addr (Legacy._lower_addr addr) = Legacy._lower_addr addr
  /\ Legacy._lower_addr (Payout._lower_addr addr) = Legacy._lower_addr addr.
Proof.
  assert (Hla : lower (lower (strip addr)) = lower (strip addr)) by apply lower_idem.
  assert (Hsa : strip (lower (strip addr)) = lower (strip addr)).
  { rewrite strip_lower. now rewrite strip_idem. }
  assert (P : Payout._lower_addr (Payout._lower_addr addr) = Payout._lower_addr addr).
  { unfold Payout._lower_addr. now rewrite Hsa, Hla. }
  assert (Hr : lower (Legacy._lower_addr addr) = Legacy._lower_addr addr
               /\ strip (Legacy._lower_addr addr) = Legacy._lower_addr addr
               /\ (Legacy._lower_addr addr = []
                   \/ startswith (txt "0x") (Legacy._lower_addr addr) = true)).
  { unfold Legacy._lower_addr. cbv zeta.
    set (a := lower (strip addr)) in *.
    destruct a as [|c a'] eqn:Ea; [now auto|].
    rewrite <- Ea in *.
    destruct (startswith (txt "0x") a) eqn:Hp.
    - assert (E : txt "0x" ++ skipn 2 a = a) by exact (startswith_app (txt "0x") a Hp).
      destruct (length a =? 42)%nat; simpl andb; cbv iota.
      + now auto.
      + rewrite E. now auto.
    - simpl andb. cbv iota. split; [|split].
      + rewrite lower_app. now rewrite Hla.
      + apply strip_0x_app; [now rewrite Ea | exact Hsa].
      + right. apply startswith_prefix. }
  destruct Hr as (Hl & Hs & Hp).
  split; [now apply lower_addr_fixed|].
  split; [exact P|].
  split.
  - unfold Payout._lower_addr at 1. now rewrite Hs, Hl.
  - unfold Legacy._lower_addr, Payout._lower_addr. now rewrite Hsa, Hla.
Qed.

Lemma lower_skipn (n : nat) (s : str) : lower (skipn n s) = skipn n (lower s).
Proof. unfold lower. symmetry. apply skipn_map. Qed.

Lemma lower_repeat_zero (n : nat) : lower (repeat "0"%char n) = repeat "0"%char n.
Proof. induction n as [|n IH]; [reflexivity|]. simpl. now f_equal. Qed.

(** What [_decode_topic_addr] returns when it returns. *)
Lemma decode_topic_addr_shape (topic a : str) :
  Legacy._decode_topic_addr topic = Ok a ->
  length topic = 66%nat
  /\ a = txt "0x" ++ skipn 26 (lower topic)
  /\ length a = 42%nat /\ startswith (txt "0x") a = true /\ lower a = a.
Proof.
  unfold Legacy._decode_topic_addr. cbv zeta.
  destruct (startswith (txt "0x") (lower topic)) eqn:Hp; [|discriminate].
  destruct (length (lower topic) =? 42 + 24)%nat eqn:Hl; [|simpl; try discriminate].
  - apply Nat.eqb_eq in Hl. change (42 + 24)%nat with 66%nat in Hl.
    assert (Hl' : (length (lower topic) =? 66)%nat = true) by now apply Nat.eqb_eq.
    rewrite Hl'. simpl. intro E. injection E as <-.
    unfold last_n. rewrite Hl. change (42 + 24 - 40)%nat with 26%nat.
    rewrite lower_length in Hl.
    split; [exact Hl|]. split; [reflexivity|]. split.
    + change (length (txt "0x" ++ skipn 26 (lower topic)) = 42%nat).
      rewrite length_app, length_skipn, lower_length, Hl. reflexivity.
    + split; [reflexivity|].
      change (lower (txt "0x" ++ skipn 26 (lower topic))
              = txt "0x" ++ skipn 26 (lower topic)).
      rewrite lower_app, lower_skipn, lower_idem. reflexivity.
  - change (42 + 24)%nat with 66%nat in Hl. rewrite Hl. discriminate.
Qed.

Lemma usdc_decode_topic_addr (topic : str) :
  Usdc._decode_topic_addr topic = Legacy._decode_topic_addr topic.
Proof. reflexivity. Qed.

(** X2: [_topic_addr] accepts exactly the texts of 42 characters that start
    with [0x] once lower-cased; for those it returns a lower-case topic of
    66 characters that [_decode_topic_addr] turns back into the lower-cased
    address.  On every other text it raises [ValueError]. *)
Theorem topic_addr_round_trip (addr : str) :
  if startswith (txt "0x") (lower addr) && (length addr =? 42)%nat
  then exists t,
         Usdc._topic_addr addr = Ok t
         /\ Payout._topic_addr addr = Ok t
         /\ length t = 66%nat
         /\ lower t = t
         /\ Usdc._decode_topic_addr t = Ok (lower addr)
         /\ Legacy._decode_topic_addr t = Ok (lower addr)
  else Usdc._topic_addr addr = Raise ValueError
       /\ Payout._topic_addr addr = Raise ValueError.
Proof.
  unfold Usdc._topic_addr, Payout._topic_addr. cbv zeta.
  rewrite lower_length.
  destruct (startswith (txt "0x") (lower addr)) eqn:Hp;
    [|simpl; now split].
  destruct (length addr =? 42)%nat eqn:Hl; [|simpl; now split].
  simpl negb. simpl orb. simpl andb. cbv iota.
  apply Nat.eqb_eq in Hl.
  set (t := txt "0x" ++ repeat "0"%char 24 ++ skipn 2 (lower addr)).
  assert (Ht : length t = 66%nat).
  { unfold t. rewrite !length_app, repeat_length, length_skipn, lower_length, Hl.
    reflexivity. }
  assert (Hlt : lower t = t).
  { unfold t. rewrite !lower_app, lower_repeat_zero, lower_skipn, lower_idem.
    reflexivity. }
  assert (Hd : Legacy._decode_topic_addr t = Ok (lower addr)).
  { unfold Legacy._decode_topic_addr. cbv zeta. rewrite Hlt.
    replace (startswith (txt "0x") t) with true by reflexivity.
    rewrite Ht. simpl negb. simpl orb. cbv iota.
    unfold last_n. rewrite Ht. change (66 - 40)%nat with 26%nat.
    f_equal. unfold t. simpl.
    exact (startswith_app (txt "0x") (lower addr) Hp). }
  exists t. repeat split; try assumption; reflexivity.
Qed.

(** The addresses of every decoded transfer are well formed. *)
(** X3: every address that comes out of [_decode_topic_addr] - the [from]
    and [to] of each transfer of [_erc20_transfers_in_receipt], and of each
    transfer row of the USDC script - has 42 characters, starts with [0x]
    and is lower case; the transaction hash of a USDC row is lower case. *)
Theorem transfer_addresses_well_formed :
  let wf (a : str) :=
    length a = 42%nat /\ startswith (txt "0x") a = true /\ lower a = a in
  (forall (receipt : Legacy.Receipt) (token : str) (ts : list Legacy.Erc20Transfer),
      Legacy._erc20_transfers_in_receipt receipt token = Ok ts ->
      Forall (fun t => wf (Legacy.t_from t) /\ wf (Legacy.t_to t)) ts)
  /\ (forall (block_timestamp : Z -> result Z) (token : Usdc.Token)
             (l : Usdc.RawLog) (t : Usdc.Transfer),
        Usdc.transfer_of_log block_timestamp token l = Ok t ->
        wf (Usdc.from_addr t) /\ wf (Usdc.to_addr t)
        /\ lower (Usdc.tx_hash t) = Usdc.tx_hash t)
  /\ (forall (getLogs : str -> list (option str) -> result (list Usdc.RawLog))
             (block_timestamp : Z -> result Z) (token : Usdc.Token)
             (ts : list Usdc.Transfer),
        Usdc.token_transfers getLogs block_timestamp token = Ok ts ->
        Forall (fun t => wf (Usdc.from_addr t) /\ wf (Usdc.to_addr t)) ts).
Proof.
  intro wf.
  assert (W : forall topic a, Legacy._decode_topic_addr topic = Ok a -> wf a).
  { intros topic a H. apply decode_topic_addr_shape in H. unfold wf. tauto. }
  assert (U : forall block_timestamp token l t,
             Usdc.transfer_of_log block_timestamp token l = Ok t ->
             wf (Usdc.from_addr t) /\ wf (Usdc.to_addr t)
             /\ lower (Usdc.tx_hash t) = Usdc.tx_hash t).
  { intros bt token l t H. unfold Usdc.transfer_of_log in H.
    ok_steps H. injection H as <-. cbn.
    split; [|split].
    - destruct (Usdc.topics l) as [|t0 [|t1 r]]; try discriminate.
      rewrite usdc_decode_topic_addr in E2. now apply W in E2.
    - destruct (Usdc.topics l) as [|t0 [|t1 [|t2 r]]]; try discriminate.
      rewrite usdc_decode_topic_addr in E3. now apply W in E3.
    - apply lower_idem. }
  split; [|split].
  - intros receipt token ts H.
    unfold Legacy._erc20_transfers_in_receipt in H.
    rewrite erc20_loop_filter in H.
    destruct (mapM Legacy.decode_transfer
                (filter (Legacy.selected token) (Legacy.rc_logs receipt))) as [es|] eqn:E;
      [|discriminate].
    cbn [bind] in H. injection H as <-. simpl.
    refine (proj1 (mapM_Forall Legacy.decode_transfer _ _ _ es E)).
    intros log t Hd. unfold Legacy.decode_transfer in Hd.
    ok_steps Hd. injection Hd as <-. cbn. split; eapply W; eassumption.
  - exact U.
  - intros getLogs bt token ts H. unfold Usdc.token_transfers in H.
    ok_steps H.
    refine (proj1 (mapM_Forall (Usdc.transfer_of_log bt token) _ _ _ ts H)).
    intros l t Ht. apply U in Ht. tauto.
Qed.

(* ================================================================== *)
(** * Exact decimal amounts *)

Lemma ndigits_pow10 (d : Z) : 0 <= d -> ndigits (10 ^ d) = d + 1.
Proof.
  intro Hd.
  assert (Hp : 0 < 10 ^ d) by (apply Z.pow_pos_nonneg; lia).
  destruct (ndigits_spec (10 ^ d) Hp) as [[A B] C].
  apply Z.pow_le_mono_r_iff in A; [|lia|lia].
  apply Z.pow_lt_mono_r_iff in B; [|lia|lia].
  lia.
Qed.

(** Dividing an integer that fits the precision by a power of ten is
    exact: the quotient is a decimal with the sign of the integer whose
    coefficient and exponent give it back. *)
Lemma div_pow10_exact (ctx : context) (v d : Z) :
  0 <= d -> Etiny ctx <= - d -> 0 <= Etop ctx -> 0 <= Emax ctx ->
  Z.abs v < 10 ^ prec ctx ->
  exists c e : Z,
    div ctx (of_Z v) (of_Z (10 ^ d)) = Ok (Finite (v <? 0) c e)
    /\ 0 <= c /\ - d <= e <= 0
    /\ Z.abs v = c * 10 ^ (e + d)
    /\ value (v <? 0) c e == inject_Z v / inject_Z (10 ^ d).
Proof.
  intros Hd Htiny Htop Hmax Hv.
  assert (Hp : 0 < 10 ^ d) by (apply Z.pow_pos_nonneg; lia).
  assert (E10 : of_Z (10 ^ d) = Finite false (10 ^ d) 0).
  { unfold of_Z. rewrite Z.abs_eq by lia.
    assert ((10 ^ d <? 0) = false) as -> by (apply Z.ltb_ge; lia). reflexivity. }
  rewrite E10. unfold of_Z at 1. set (N := Z.abs v) in *. set (s := v <? 0).
  assert (Hsv : (if s then - N else N) = v).
  { unfold s, N. destruct (v <? 0) eqn:E; [apply Z.ltb_lt in E | apply Z.ltb_ge in E]; lia. }
  assert (HQ : forall c e : Z,
             - d <= e <= 0 -> N = c * 10 ^ (e + d) ->
             value s c e == inject_Z v / inject_Z (10 ^ d)).
  { intros c e He EN. unfold value. rewrite <- Hsv, EN.
    replace (if s then - (c * 10 ^ (e + d)) else c * 10 ^ (e + d))
      with ((if s then - c else c) * 10 ^ (e + d)) by (destruct s; ring).
    rewrite inject_Z_mult.
    rewrite Zpower_Qpower by lia. rewrite (Zpower_Qpower 10 d) by lia.
    rewrite (Qpower_plus _ e d inject_Z_10_nonzero).
    field; try (apply Qpower_not_0; exact inject_Z_10_nonzero). }
  unfold div. assert ((10 ^ d =? 0) = false) as -> by (apply Z.eqb_neq; lia).
  cbv iota. rewrite xorb_false_r.
  destruct (Z.eq_dec N 0) as [E0 | Hnz].
  - exists 0, 0. rewrite E0. cbn [Z.eqb]. unfold fix_. cbn [Z.eqb].
    split; [|split; [lia | split; [lia | split; [lia|]]]].
    + do 2 f_equal. lia.
    + apply HQ; [lia | rewrite E0; lia].
  - assert ((N =? 0) = false) as -> by (apply Z.eqb_neq; lia).
    assert (HNpos : 0 < N) by (unfold N in *; lia).
    destruct (ndigits_spec N HNpos) as [_ Hn1].
    pose proof (ndigits_le N (prec ctx) HNpos Hv) as HnP.
    rewrite (ndigits_pow10 d Hd).
    set (shift := d + 1 - ndigits N + prec ctx + 1).
    assert (Hshift : d + 2 <= shift) by (unfold shift; lia).
    assert ((0 <=? shift) = true) as -> by (apply Z.leb_le; lia).
    assert (Epow : 10 ^ shift = 10 ^ (shift - d) * 10 ^ d).
    { rewrite <- Z.pow_add_r by lia. f_equal. lia. }
    assert (Eq : N * 10 ^ shift / 10 ^ d = N * 10 ^ (shift - d)).
    { rewrite Epow, Z.mul_assoc. apply Z.div_mul. lia. }
    assert (Er : (N * 10 ^ shift) mod 10 ^ d = 0).
    { rewrite Epow, Z.mul_assoc. apply Z.mod_mul. lia. }
    rewrite Eq, Er. cbn [Z.eqb].
    replace (0 - 0 - (0 - 0 - shift)) with shift by lia.
    replace (0 - 0 - shift) with (- shift) by lia.
    change (0 - 0) with 0.
    replace (shift - d) with (Z.of_nat (Z.to_nat (shift - d))) by lia.
    rewrite strip_zeros_pow by lia.
    destruct (strip_zeros _ N _ 0) as [q' e'] eqn:Es.
    destruct (strip_zeros_spec _ _ _ _ _ _ HNpos Es) as (A & B & C & D).
    rewrite Z2Nat.id in B, C, D by lia.
    specialize (D ltac:(lia)).
    replace (e' - (- shift + (shift - d))) with (e' + d) in C by lia.
    assert (Hpow : 1 <= 10 ^ (e' + d))
      by (pose proof (Z.pow_pos_nonneg 10 (e' + d)); lia).
    exists q', e'. split; [|split; [lia | split; [lia | split; [exact C|]]]].
    + apply fix_fits; [exact A | nia | lia].
    + apply HQ; [lia | exact C].
Qed.

(** X4: [_dec] and [_dec_wei_to_eth] lose nothing: for an integer of fewer
    than 61 digits, negative or not, the decimal returned for 18 or 6
    decimals has the sign of the integer, an exponent between minus the
    decimals and zero, and denotes the integer divided by the power of
    ten exactly. *)
Theorem dec_is_exact (v : Z) :
  Z.abs v < 10 ^ 60 ->
  let exact (r : result decimal) (d : Z) :=
    exists c e : Z,
      r = Ok (Finite (v <? 0) c e)
      /\ 0 <= c /\ - d <= e <= 0
      /\ Z.abs v = c * 10 ^ (e + d)
      /\ value (v <? 0) c e == inject_Z v / inject_Z (10 ^ d) in
  exact (Legacy._dec v 18) 18
  /\ exact (Legacy._dec v 6) 6
  /\ exact (Usdc._dec v 6) 6
  /\ exact (Payout._dec_wei_to_eth v) 18.
Proof.
  intros Hv exact.
  assert (H80 : Z.abs v < 10 ^ 80).
  { apply (Z.lt_trans _ _ _ Hv). reflexivity. }
  split; [|split; [|split]].
  - exact (div_pow10_exact Legacy.ctx v 18 ltac:(discriminate) ltac:(discriminate)
             ltac:(discriminate) ltac:(discriminate) Hv).
  - exact (div_pow10_exact Legacy.ctx v 6 ltac:(discriminate) ltac:(discriminate)
             ltac:(discriminate) ltac:(discriminate) Hv).
  - exact (div_pow10_exact Usdc.ctx v 6 ltac:(discriminate) ltac:(discriminate)
             ltac:(discriminate) ltac:(discriminate) Hv).
  - exact (div_pow10_exact Payout.ctx v 18 ltac:(discriminate) ltac:(discriminate)
             ltac:(discriminate) ltac:(discriminate) H80).
Qed.

Lemma dec_is_exact_witness :
  Z.abs (-1500000) < 10 ^ 60
  /\ exists c e : Z,
       Usdc._dec (-1500000) 6 = Ok (Finite true c e)
       /\ value true c e == inject_Z (-1500000) / inject_Z (10 ^ 6).
Proof.
  assert (H : Z.abs (-1500000) < 10 ^ 60) by reflexivity.
  split; [exact H|].
  destruct (dec_is_exact (-1500000) H) as (_ & _ & (c & e & E & _ & _ & _ & V) & _).
  exists c, e. split; [exact E | exact V].
Defined.

(** X5: the conversion to raw units undoes [_dec]: for a raw amount of at
    most 42 digits, [_dec raw 18] multiplied by [10^18] and rounded, as the
    expected amounts are, is the raw amount again. *)
Theorem dec_raw_round_trip (raw : Z) :
  0 <= raw < 10 ^ 42 ->
  exists d : decimal,
    Legacy._dec raw 18 = Ok d /\ Legacy.raw_of_decimal d = Ok raw.
Proof.
  intro Hr.
  assert (H60 : Z.abs raw < 10 ^ 60).
  { rewrite Z.abs_eq by lia. apply (Z.lt_trans _ (10 ^ 42)); [lia | reflexivity]. }
  destruct (div_pow10_exact Legacy.ctx raw 18 ltac:(discriminate) ltac:(discriminate)
              ltac:(discriminate) ltac:(discriminate) H60)
    as (c & e & Ed & Hc & He & Ec & Ev).
  assert ((raw <? 0) = false) as Hs by (apply Z.ltb_ge; lia).
  rewrite Hs in Ed, Ev. rewrite Z.abs_eq in Ec by lia.
  exists (Finite false c e). split; [exact Ed|].
  assert (Hp : 1 <= 10 ^ (e + 18))
    by (pose proof (Z.pow_pos_nonneg 10 (e + 18)); lia).
  assert (Hc42 : c < 10 ^ 42).
  { apply (Z.le_lt_trans _ raw); [|lia]. rewrite Ec.
    rewrite <- (Z.mul_1_r c) at 1. apply Z.mul_le_mono_nonneg_l; lia. }
  destruct (raw_of_decimal_half_even false c e Hc Hc42 ltac:(lia))
    as (w & Ew & Hhalf & _).
  rewrite Ew. f_equal.
  assert (E : value false c e * inject_Z (10 ^ 18) - inject_Z w
              == inject_Z (raw - w) / inject_Z 1).
  { rewrite Ev. unfold Z.sub. rewrite inject_Z_plus, inject_Z_opp.
    field. apply inject_Z_pos_nonzero. reflexivity. }
  rewrite E in Hhalf.
  apply (proj1 (Qabs_fraction_half (raw - w) 1 ltac:(lia))) in Hhalf. lia.
Qed.

Lemma dec_raw_round_trip_witness :
  0 <= 1500000000000000000 < 10 ^ 42
  /\ exists d : decimal,
       Legacy._dec 1500000000000000000 18 = Ok d
       /\ Legacy.raw_of_decimal d = Ok 1500000000000000000.
Proof.
  assert (H : 0 <= 1500000000000000000 < 10 ^ 42) by (split; [discriminate | reflexivity]).
  split; [exact H|].
  exact (dec_raw_round_trip 1500000000000000000 H).
Defined.

(* ================================================================== *)
(** * Funding flows and conversions, continued *)

(** The gas fee of a receipt whose two quantities are well formed. *)
Lemma receipt_gas_fee_ok (rec : Legacy.Receipt) (g p : Z) :
  Legacy.quantity (Legacy.rc_gasUsed rec) g ->
  Legacy.quantity (Legacy.rc_effectiveGasPrice rec) p ->
  g * p < 10 ^ 60 ->
  exists fee, Legacy._receipt_gas_fee_eth rec = Ok fee.
Proof.
  intros Hg Hp Hlt.
  destruct (quantity_int16 _ _ Hg) as [Eg Gg].
  destruct (quantity_int16 _ _ Hp) as [Ep Gp].
  assert (HN : Z.abs (g * p) < 10 ^ 60) by (rewrite Z.abs_eq by nia; exact Hlt).
  destruct (div_pow10_exact Legacy.ctx (g * p) 18 ltac:(discriminate) ltac:(discriminate)
              ltac:(discriminate) ltac:(discriminate) HN) as (c & e & D & _).
  unfold Legacy._receipt_gas_fee_eth. rewrite Eg, Ep. cbn [bind]. rewrite D.
  now eexists.
Qed.

(** X6: for a disbursement whose transaction and receipt the endpoint
    returns with well-formed quantities, a row is written exactly when the
    sender is the treasury, the recipient is the normalised expected one,
    the value is the expected raw amount and the receipt succeeded; the row
    then carries the hash, block, addresses and amount checked.  In every
    other case the run stops with the mismatch error naming the hash. *)
Theorem treasury_disbursement_accepted_iff
  (get_tx : str -> result Legacy.Tx) (get_receipt : str -> result Legacy.Receipt)
  (hash recipient amount_text : str) (tx : Legacy.Tx) (rec : Legacy.Receipt)
  (w v bn g p : Z) (ok : bool) :
  get_tx (lower (strip hash)) = Ok tx ->
  get_receipt (lower (strip hash)) = Ok rec ->
  Legacy.exp_raw_of amount_text = Ok w ->
  Legacy._receipt_ok rec = Ok ok ->
  Legacy.quantity (Legacy.tx_value tx) v ->
  Legacy.quantity (Legacy.tx_blockNumber tx) bn ->
  Legacy.quantity (Legacy.rc_gasUsed rec) g ->
  Legacy.quantity (Legacy.rc_effectiveGasPrice rec) p ->
  v < 10 ^ 60 -> g * p < 10 ^ 60 ->
  let run := Legacy.verify_treasury_disbursement get_tx get_receipt
               hash recipient amount_text in
  let agrees :=
    Legacy._lower_addr (or_default (Legacy.tx_from tx) []) = Legacy.TREASURY
    /\ Legacy._lower_addr (or_default (Legacy.tx_to tx) [])
       = Legacy._lower_addr recipient
    /\ v = w /\ ok = true in
  (agrees ->
   exists row,
     run = Ok row
     /\ Legacy.tx_hash row = lower (strip hash)
     /\ Legacy.block_number row = bn
     /\ Legacy.from_addr row = Legacy.TREASURY
     /\ Legacy.to_addr row = Legacy._lower_addr recipient
     /\ Legacy.amount_raw row = w
     /\ Legacy._dec w 18 = Ok (Legacy.amount row)
     /\ Legacy._receipt_gas_fee_eth rec = Ok (Legacy.gas_fee_eth row))
  /\ (~ agrees ->
      run = Raise (RuntimeError (txt "treasury disbursement mismatch: "
                                 ++ lower (strip hash)))).
Proof.
  intros Htx Hrec Hw Hok Qv Qbn Qg Qp Hv Hgp run agrees.
  destruct (quantity_int16 _ _ Qv) as [Ev Gv].
  destruct (quantity_int16 _ _ Qbn) as [Ebn _].
  destruct (receipt_gas_fee_ok rec g p Qg Qp Hgp) as (fee & Efee).
  assert (HN : Z.abs v < 10 ^ 60) by (rewrite Z.abs_eq by lia; exact Hv).
  destruct (div_pow10_exact Legacy.ctx v 18 ltac:(discriminate) ltac:(discriminate)
              ltac:(discriminate) ltac:(discriminate) HN) as (c & e & D & _).
  fold (Legacy._dec v 18) in D.
  unfold run, Legacy.verify_treasury_disbursement. cbv zeta.
  rewrite Hw. cbn [bind]. rewrite Htx. cbn [bind]. rewrite Hrec. cbn [bind].
  rewrite Hok. cbn [bind]. rewrite Ev. cbn [bind].
  destruct (str_eqb (Legacy._lower_addr (or_default (Legacy.tx_from tx) []))
              Legacy.TREASURY) eqn:Ef;
    [apply str_eqb_eq in Ef | apply str_eqb_neq in Ef].
  2:{ cbn [negb orb]. split; [intros (A & _); contradiction | reflexivity]. }
  destruct (str_eqb (Legacy._lower_addr (or_default (Legacy.tx_to tx) []))
              (Legacy._lower_addr recipient)) eqn:Et;
    [apply str_eqb_eq in Et | apply str_eqb_neq in Et].
  2:{ cbn [negb orb]. split; [intros (_ & A & _); contradiction | reflexivity]. }
  destruct (v =? w) eqn:Evw; [apply Z.eqb_eq in Evw | apply Z.eqb_neq in Evw].
  2:{ cbn [negb orb]. split; [intros (_ & _ & A & _); contradiction | reflexivity]. }
  destruct ok.
  2:{ cbn [negb orb]. split; [intros (_ & _ & _ & A); discriminate | reflexivity]. }
  cbn [negb orb]. rewrite Ebn. cbn [bind]. rewrite D. cbn [bind]. rewrite Efee.
  cbn [bind]. split.
  - intros _. eexists. split; [reflexivity|].
    cbn [Legacy.tx_hash Legacy.block_number Legacy.from_addr Legacy.to_addr
         Legacy.amount_raw Legacy.amount Legacy.gas_fee_eth].
    subst w. repeat split; assumption.
  - intro Hn. exfalso. apply Hn. unfold agrees. tauto.
Qed.

Lemma treasury_disbursement_accepted_iff_witness :
  let recipient := txt "0x8A8053c21696f27ed305a03bd1efc5d068d91d0e" in
  let tx := Legacy.mkTx (Some Legacy.TREASURY) (Some (lower recipient))
              (Some (txt "0x14d1120d7b160000")) (Some (txt "0x")) (Some (txt "0x10")) in
  let rec := Legacy.mkReceipt (Legacy.JStr (txt "0x1")) (Some (txt "0x5208"))
               (Some (txt "0x989680")) (Some (txt "0x10")) [] in
  Legacy.exp_raw_of (txt "1.5") = Ok 1500000000000000000
  /\ Legacy._receipt_ok rec = Ok true
  /\ exists row,
       Legacy.verify_treasury_disbursement (fun _ => Ok tx) (fun _ => Ok rec)
         (txt " 0xABC ") recipient (txt "1.5") = Ok row
       /\ Legacy.tx_hash row = txt "0xabc"
       /\ Legacy.amount_raw row = 1500000000000000000.
Proof.
  intros recipient tx rec.
  assert (Hw : Legacy.exp_raw_of (txt "1.5") = Ok 1500000000000000000)
    by (vm_compute; reflexivity).
  assert (Hok : Legacy._receipt_ok rec = Ok true) by reflexivity.
  assert (Qv : Legacy.quantity (Legacy.tx_value tx) 1500000000000000000).
  { apply (Legacy.quantity_hex (txt "14d1120d7b160000")); [discriminate | reflexivity]. }
  assert (Qbn : Legacy.quantity (Legacy.tx_blockNumber tx) 16).
  { apply (Legacy.quantity_hex (txt "10")); [discriminate | reflexivity]. }
  assert (Qg : Legacy.quantity (Legacy.rc_gasUsed rec) 21000).
  { apply (Legacy.quantity_hex (txt "5208")); [discriminate | reflexivity]. }
  assert (Qp : Legacy.quantity (Legacy.rc_effectiveGasPrice rec) 10000000).
  { apply (Legacy.quantity_hex (txt "989680")); [discriminate | reflexivity]. }
  split; [exact Hw|]. split; [exact Hok|].
  destruct (treasury_disbursement_accepted_iff (fun _ => Ok tx) (fun _ => Ok rec)
              (txt " 0xABC ") recipient (txt "1.5") tx rec
              1500000000000000000 1500000000000000000 16 21000 10000000 true
              eq_refl eq_refl Hw Hok Qv Qbn Qg Qp ltac:(reflexivity) ltac:(reflexivity))
    as [Hacc _].
  destruct Hacc as (row & E & Eh & _ & _ & _ & Ea & _).
  { repeat split; reflexivity. }
  exists row. split; [exact E|]. split; [exact Eh | exact Ea].
Defined.

(** X7: the Safe ETH check stops with the to/status error when the
    transaction is not sent to the Safe or its receipt failed, passes on
    the error of a calldata that cannot be decoded, stops with the
    execTransaction error when the decoded recipient or value differs, and
    writes a row only when the calldata decodes to the gateway and the
    expected raw amount. *)
Theorem safe_eth_transfer_checks
  (get_tx : str -> result Legacy.Tx) (get_receipt : str -> result Legacy.Receipt)
  (hash amount_text : str) (tx : Legacy.Tx) (rec : Legacy.Receipt)
  (w : Z) (ok : bool) :
  get_tx (lower (strip hash)) = Ok tx ->
  get_receipt (lower (strip hash)) = Ok rec ->
  Legacy.exp_raw_of amount_text = Ok w ->
  Legacy._receipt_ok rec = Ok ok ->
  let run := Legacy.verify_safe_eth get_tx get_receipt hash amount_text in
  let to_safe :=
    Legacy._lower_addr (or_default (Legacy.tx_to tx) []) = Legacy.SAFE_WALLET in
  let decoded :=
    Legacy._decode_safe_exec_transaction
      (or_default (Legacy.tx_input tx) (txt "0x")) in
  (~ to_safe \/ ok = false ->
   run = Raise (RuntimeError (txt "safe eth tx mismatch (to/status): "
                              ++ lower (strip hash))))
  /\ (forall e, to_safe -> ok = true -> decoded = Raise e -> run = Raise e)
  /\ (forall d, to_safe -> ok = true -> decoded = Ok d ->
        Legacy.se_to d <> Legacy.GATEWAY \/ Legacy.se_value_wei d <> w ->
        run = Raise (RuntimeError (txt "safe execTransaction mismatch: "
                                   ++ lower (strip hash))))
  /\ (forall row, run = Ok row ->
        to_safe /\ ok = true
        /\ decoded = Ok (Legacy.mkSafeExec Legacy.GATEWAY w)
        /\ Legacy.tx_hash row = lower (strip hash)
        /\ Legacy.from_addr row = Legacy.SAFE_WALLET
        /\ Legacy.to_addr row = Legacy.GATEWAY
        /\ Legacy.amount_raw row = w
        /\ Legacy._dec w 18 = Ok (Legacy.amount row)).
Proof.
  intros Htx Hrec Hw Hok run to_safe decoded.
  unfold run, Legacy.verify_safe_eth. cbv zeta.
  rewrite Hw. cbn [bind]. rewrite Htx. cbn [bind]. rewrite Hrec. cbn [bind].
  rewrite Hok. cbn [bind]. fold decoded.
  destruct (str_eqb (Legacy._lower_addr (or_default (Legacy.tx_to tx) []))
              Legacy.SAFE_WALLET) eqn:Et;
    [apply str_eqb_eq in Et | apply str_eqb_neq in Et]; cbn [negb orb].
  2:{ split; [reflexivity|]. split; [intros e A; contradiction|].
      split; [intros d A; contradiction | discriminate]. }
  destruct ok; cbn [negb].
  2:{ split; [reflexivity|]. split; [discriminate|]. split; discriminate. }
  split; [intros [A | A]; [contradiction | discriminate]|].
  destruct decoded as [d|e0]; cbn [bind].
  2:{ split; [intros e _ _ E; now injection E as <-|].
      split; [discriminate | discriminate]. }
  split; [discriminate|].
  destruct (str_eqb (Legacy.se_to d) Legacy.GATEWAY) eqn:Eg;
    [apply str_eqb_eq in Eg | apply str_eqb_neq in Eg]; cbn [negb orb].
  2:{ split; [reflexivity | discriminate]. }
  destruct (Legacy.se_value_wei d =? w) eqn:Evw;
    [apply Z.eqb_eq in Evw | apply Z.eqb_neq in Evw]; cbn [negb].
  2:{ split; [reflexivity | discriminate]. }
  split.
  - intros d' _ _ E [A | A]; injection E as <-; contradiction.
  - intros row H. ok_steps H. injection H as <-.
    cbn [Legacy.tx_hash Legacy.block_number Legacy.from_addr Legacy.to_addr
         Legacy.amount_raw Legacy.amount Legacy.gas_fee_eth].
    destruct d as [dto dv]. cbn [Legacy.se_to Legacy.se_value_wei] in Eg, Evw.
    subst dto dv. repeat split; try assumption; reflexivity.
Qed.

Lemma safe_eth_transfer_checks_witness :
  let tx := Legacy.mkTx (Some Legacy.TESTING_WALLET) (Some Legacy.SAFE_WALLET)
              (Some (txt "0x0")) (Some (txt "0x6a761202")) (Some (txt "0x10")) in
  let rec := Legacy.mkReceipt (Legacy.JStr (txt "0x1")) (Some (txt "0x5208"))
               (Some (txt "0x989680")) (Some (txt "0x10")) [] in
  Legacy.exp_raw_of (txt "1.5") = Ok 1500000000000000000
  /\ Legacy.verify_safe_eth (fun _ => Ok tx) (fun _ => Ok rec) (txt "0xabc") (txt "1.5")
     = Raise (RuntimeError (txt "unexpected execTransaction calldata length")).
Proof.
  intros tx rec.
  assert (Hw : Legacy.exp_raw_of (txt "1.5") = Ok 1500000000000000000)
    by (vm_compute; reflexivity).
  split; [exact Hw|].
  destruct (safe_eth_transfer_checks (fun _ => Ok tx) (fun _ => Ok rec)
              (txt "0xabc") (txt "1.5") tx rec 1500000000000000000 true
              eq_refl eq_refl Hw eq_refl) as (_ & H & _).
  apply H; reflexivity.
Defined.

Lemma fold_left_add_from (l : list Z) :
  forall a : Z, fold_left Z.add l a = a + fold_left Z.add l 0.
Proof.
  induction l as [|x l IH]; intro a; cbn [fold_left]; [lia|].
  rewrite (IH (a + x)), (IH (0 + x)). lia.
Qed.

Lemma sum_values_cons (keep : Legacy.Erc20Transfer -> bool)
  (t : Legacy.Erc20Transfer) (ts : list Legacy.Erc20Transfer) :
  Legacy.sum_values keep (t :: ts)
  = (if keep t then Legacy.t_value t else 0) + Legacy.sum_values keep ts.
Proof.
  unfold Legacy.sum_values. cbn [filter].
  destruct (keep t); cbn [map fold_left]; [|lia].
  now rewrite fold_left_add_from.
Qed.

Lemma sum_values_nonneg (keep : Legacy.Erc20Transfer -> bool)
  (ts : list Legacy.Erc20Transfer) :
  Forall (fun t => 0 <= Legacy.t_value t) ts -> 0 <= Legacy.sum_values keep ts.
Proof.
  induction 1 as [|t ts Ht _ IH]; [unfold Legacy.sum_values; cbn; lia|].
  rewrite sum_values_cons. destruct (keep t); lia.
Qed.

(** X8: the WETH figures of a conversion do not overlap: what the router
    sends splits into the burn, the other outflows and the transfers the
    router sends to itself, and what it receives into the gross inflow and
    those same self-transfers; with non-negative values each figure is
    non-negative and bounded by the sum it is part of. *)
Theorem weth_sums_partition (weth : list Legacy.Erc20Transfer) :
  let from_router t := str_eqb (Legacy._lower_addr (Legacy.t_from t)) Legacy.router in
  let to_router t := str_eqb (Legacy._lower_addr (Legacy.t_to t)) Legacy.router in
  let inside t := from_router t && to_router t in
  Legacy.sum_values from_router weth
  = Legacy.weth_burn_of weth + Legacy.weth_other_out_of weth
    + Legacy.sum_values inside weth
  /\ Legacy.sum_values to_router weth
     = Legacy.weth_gross_in_of weth + Legacy.sum_values inside weth
  /\ (Forall (fun t => 0 <= Legacy.t_value t) weth ->
      0 <= Legacy.weth_gross_in_of weth <= Legacy.sum_values to_router weth
      /\ 0 <= Legacy.weth_burn_of weth
      /\ 0 <= Legacy.weth_other_out_of weth
      /\ Legacy.weth_burn_of weth + Legacy.weth_other_out_of weth
         <= Legacy.sum_values from_router weth).
Proof.
  intros from_router to_router inside.
  assert (P : Legacy.sum_values from_router weth
              = Legacy.weth_burn_of weth + Legacy.weth_other_out_of weth
                + Legacy.sum_values inside weth
              /\ Legacy.sum_values to_router weth
                 = Legacy.weth_gross_in_of weth + Legacy.sum_values inside weth).
  { unfold Legacy.weth_burn_of, Legacy.weth_other_out_of, Legacy.weth_gross_in_of.
    induction weth as [|t ts [IH1 IH2]]; [now split|].
    rewrite !sum_values_cons, IH1, IH2.
    unfold inside, from_router, to_router.
    destruct (str_eqb (Legacy._lower_addr (Legacy.t_from t)) Legacy.router);
      destruct (str_eqb (Legacy._lower_addr (Legacy.t_to t)) Legacy.router) eqn:Et;
      cbn [andb orb negb]; try (split; lia).
    - apply str_eqb_eq in Et. rewrite Et.
      change (str_eqb Legacy.router Legacy.ZERO_ADDR) with false. split; lia.
    - destruct (str_eqb (Legacy._lower_addr (Legacy.t_to t)) Legacy.ZERO_ADDR);
        cbn [negb]; split; lia. }
  destruct P as [P1 P2]. split; [exact P1|]. split; [exact P2|].
  intro F.
  pose proof (sum_values_nonneg inside weth F).
  pose proof (sum_values_nonneg
                (fun t => str_eqb (Legacy._lower_addr (Legacy.t_to t)) Legacy.router
                          && negb (str_eqb (Legacy._lower_addr (Legacy.t_from t))
                                     Legacy.router)) weth F) as G.
  pose proof (sum_values_nonneg
                (fun t => str_eqb (Legacy._lower_addr (Legacy.t_from t)) Legacy.router
                          && str_eqb (Legacy._lower_addr (Legacy.t_to t))
                               Legacy.ZERO_ADDR) weth F) as B.
  pose proof (sum_values_nonneg
                (fun t => str_eqb (Legacy._lower_addr (Legacy.t_from t)) Legacy.router
                          && negb (str_eqb (Legacy._lower_addr (Legacy.t_to t))
                                     Legacy.router
                                   || str_eqb (Legacy._lower_addr (Legacy.t_to t))
                                        Legacy.ZERO_ADDR)) weth F) as O.
  fold (Legacy.weth_gross_in_of weth) in G. fold (Legacy.weth_burn_of weth) in B.
  fold (Legacy.weth_other_out_of weth) in O. lia.
Qed.

(* ================================================================== *)
(** * The scan and the ticket transactions *)

Lemma add_logs_count (logs : list Payout.ScanLog) :
  forall t c t' c' : Z,
    Payout.add_logs logs t c = Ok (t', c') -> c' = c + Z.of_nat (length logs).
Proof.
  induction logs as [|l logs IH]; intros t c t' c' H; cbn [Payout.add_logs] in H.
  - injection H as _ <-. cbn. lia.
  - destruct (int16 _) as [v|e]; cbn [bind] in H; [|discriminate].
    apply IH in H. cbn [length]. lia.
Qed.

(** Whatever the provider answers, a scan that returns has read a chain of
    ranges from the state's start up to the end. *)
Lemma scan_loop_covers
  (provider : nat -> str -> list str -> Z -> Z -> result (list Payout.ScanLog))
  (sender_topic : str) (chunk end_ : Z) (fuel : nat) :
  forall (st : Payout.ScanState) (c t : Z),
    1 <= Payout.chunk_size st <= chunk ->
    Payout.scan_loop provider fuel sender_topic end_ st = Some (Ok (c, t)) ->
    exists segs,
      Payout.covers provider sender_topic chunk end_ (Payout.cur st) segs
      /\ Payout.add_logs (concat segs) (Payout.total_wei st) (Payout.count st)
         = Ok (t, c).
Proof.
  induction fuel as [|fuel IH]; intros st c t Hc H; cbn [Payout.scan_loop] in H;
    [discriminate|].
  unfold Payout.scan_pass in H.
  destruct (Payout.cur st <=? end_) eqn:Hle.
  - apply Z.leb_le in Hle.
    set (hi := Z.min (Payout.cur st + Payout.chunk_size st - 1) end_) in *.
    destruct (provider (Payout.calls st) Payout.TICKETBROKER
                [Payout.WINNING_TICKET_REDEEMED_TOPIC0; sender_topic]
                (Payout.cur st) hi) as [logs|e] eqn:Hp.
    + destruct (Payout.add_logs logs (Payout.total_wei st) (Payout.count st))
        as [[t1 c1]|e] eqn:Ha; [|discriminate].
      apply IH in H; [|exact Hc]. cbn in H. destruct H as (segs & Hcov & Hsum).
      exists (logs :: segs). split.
      * apply (Payout.covers_range provider sender_topic chunk end_
                 (Payout.cur st) hi (Payout.calls st) logs segs);
          [unfold hi; lia | unfold hi; lia | exact Hp | exact Hcov].
      * cbn [concat]. rewrite add_logs_app, Ha. exact Hsum.
    + destruct e as [msg| | | | | | |]; try discriminate.
      destruct (Payout.oversized (lower msg)); [|discriminate].
      destruct (Payout.chunk_size st <=? 10000) eqn:Hs; [discriminate|].
      apply Z.leb_gt in Hs.
      apply IH in H.
      * cbn in H. exact H.
      * cbn. assert (Payout.chunk_size st / 2 <= Payout.chunk_size st)
          by (apply Z.div_le_upper_bound; lia). lia.
  - apply Z.leb_gt in Hle. injection H as <- <-.
    exists []. split; [now constructor | reflexivity].
Qed.

(** X9: when the scan returns, whatever errors and chunk reductions came
    before, the queries that succeeded cover the block range from
    [from_block] to [to_block] once: their ranges follow one another
    without gap or overlap, none is longer than the chunk size, and the
    count and total returned are those of the logs of these queries. *)
Theorem scan_result_covers_range
  (provider : nat -> str -> list str -> Z -> Z -> result (list Payout.ScanLog))
  (fuel : nat) (sender sender_topic : str) (from_block to_block chunk count total : Z) :
  1 <= chunk ->
  Payout._topic_addr sender = Ok sender_topic ->
  Payout._sum_ticketbroker_sender_logs provider fuel sender from_block to_block chunk
    = Some (Ok (count, total)) ->
  exists segs : list (list Payout.ScanLog),
    Payout.covers provider sender_topic chunk to_block from_block segs
    /\ Payout.add_logs (concat segs) 0 0 = Ok (total, count)
    /\ count = Z.of_nat (length (concat segs)).
Proof.
  intros Hc Ht H. unfold Payout._sum_ticketbroker_sender_logs in H. rewrite Ht in H.
  apply (scan_loop_covers provider sender_topic chunk) in H; [|cbn; lia].
  cbn in H. destruct H as (segs & Hcov & Hsum).
  exists segs. split; [exact Hcov|]. split; [exact Hsum|].
  apply add_logs_count in Hsum. lia.
Qed.

Lemma scan_result_covers_range_witness :
  let provider :=
    fun (n : nat) (_ : str) (_ : list str) (_ _ : Z) =>
      match n with
      | O => Raise (RuntimeError (txt "query returned more than 10000 results"))
      | S _ => Ok [Payout.mkScanLog (Some (txt "0x05"))]
      end in
  let topic := txt "0x0000000000000000000000008a8053c21696f27ed305a03bd1efc5d068d91d0e" in
  Payout._sum_ticketbroker_sender_logs provider 10 Payout.GATEWAY_SENDER 0 5 20000
  = Some (Ok (1, 5))
  /\ exists segs,
       Payout.covers provider topic 20000 5 0 segs
       /\ Payout.add_logs (concat segs) 0 0 = Ok (5, 1).
Proof.
  intros provider topic.
  assert (H : Payout._sum_ticketbroker_sender_logs provider 10 Payout.GATEWAY_SENDER
                0 5 20000 = Some (Ok (1, 5))) by (vm_compute; reflexivity).
  split; [exact H|].
  destruct (scan_result_covers_range provider 10 Payout.GATEWAY_SENDER topic 0 5 20000
              1 5 ltac:(lia) eq_refl H) as (segs & A & B & _).
  exists segs. split; [exact A | exact B].
Defined.

Lemma redeems_loop_filter (logs : list Legacy.Log) :
  forall (total : Z) (rows : list Payout.Redeem),
    Payout.redeems_loop logs total rows
    = (rs <- mapM Payout.decode_redeem (filter Payout.redeem_selected logs) ;;
       Ok (total + fold_right Z.add 0 (map snd rs), rows ++ rs)).
Proof.
  induction logs as [|log logs IH]; intros total rows; cbn [Payout.redeems_loop filter].
  - cbn. now rewrite Z.add_0_r, app_nil_r.
  - unfold Payout.redeem_selected at 1.
    destruct (str_eqb (Payout._lower_addr (or_default (Legacy.log_address log) []))
                (Payout._lower_addr Payout.TICKETBROKER)); cbn [negb andb];
      [|apply IH].
    destruct (Legacy.log_topics log) as [|t0 ts] eqn:Et; [apply IH|].
    destruct (str_eqb (Payout._lower_addr t0)
                (Payout._lower_addr Payout.WINNING_TICKET_REDEEMED_TOPIC0));
      cbn [negb andb]; [|apply IH].
    rewrite Nat.ltb_antisym.
    destruct (3 <=? length (t0 :: ts))%nat; cbn [negb]; [|apply IH].
    cbn [mapM]. destruct (Payout.decode_redeem log) as [r|e]; cbn [bind]; [|reflexivity].
    rewrite IH.
    destruct (mapM Payout.decode_redeem (filter Payout.redeem_selected logs)) as [rs|e];
      cbn [bind]; [|reflexivity].
    cbn [map fold_right]. rewrite <- app_assoc. cbn [app]. f_equal. f_equal. lia.
Qed.

Lemma last_n_length (n : nat) (s : str) : (length (last_n n s) <= n)%nat.
Proof. unfold last_n. rewrite length_skipn. lia. Qed.

(** The shape of a decoded row: both addresses are [0x] and at most forty
    lower-case characters, whatever the topics hold. *)
Lemma decode_redeem_shape (log : Legacy.Log) (r : Payout.Redeem) :
  Payout.decode_redeem log = Ok r ->
  let wf (a : str) :=
    startswith (txt "0x") a = true /\ lower a = a /\ (length a <= 42)%nat in
  wf (fst (fst r)) /\ wf (snd (fst r))
  /\ int16 (or_default (Legacy.log_data log) (txt "0x0")) = Ok (snd r).
Proof.
  unfold Payout.decode_redeem. cbv zeta. intro H. ok_steps H. injection H as <-.
  cbn [fst snd].
  assert (W : forall t : str,
             startswith (txt "0x") (txt "0x" ++ lower (last_n 40 t)) = true
             /\ lower (txt "0x" ++ lower (last_n 40 t)) = txt "0x" ++ lower (last_n 40 t)
             /\ (length (txt "0x" ++ lower (last_n 40 t)) <= 42)%nat).
  { intro t. split; [apply startswith_prefix|]. split.
    - rewrite lower_app, lower_idem. reflexivity.
    - rewrite length_app, lower_length. pose proof (last_n_length 40 t). cbn. lia. }
  split; [apply W|]. split; [apply W|reflexivity].
Qed.

(** X10: [_sum_ticketbroker_redeems_in_receipt] returns one row for each
    log of the TicketBroker whose first topic is the redeem event and that
    has at least three topics, in log order, and the sum of the amounts of
    these rows; sender and recipient are [0x] and at most forty lower-case
    characters taken from the end of the topic, whatever the topic holds. *)
Theorem sum_ticketbroker_redeems_spec
  (receipt : Legacy.Receipt) (total : Z) (rows : list Payout.Redeem) :
  Payout._sum_ticketbroker_redeems_in_receipt receipt = Ok (total, rows) ->
  let wf (a : str) :=
    startswith (txt "0x") a = true /\ lower a = a /\ (length a <= 42)%nat in
  mapM Payout.decode_redeem
    (filter Payout.redeem_selected (Legacy.rc_logs receipt)) = Ok rows
  /\ total = fold_right Z.add 0 (map snd rows)
  /\ length rows
     = length (filter Payout.redeem_selected (Legacy.rc_logs receipt))
  /\ Forall (fun r => wf (fst (fst r)) /\ wf (snd (fst r))) rows
  /\ (forall log : Legacy.Log,
        Payout.redeem_selected log = true <->
        Payout._lower_addr (or_default (Legacy.log_address log) [])
          = Payout.TICKETBROKER
        /\ (exists t0 ts, Legacy.log_topics log = t0 :: ts
                          /\ Payout._lower_addr t0
                             = Payout.WINNING_TICKET_REDEEMED_TOPIC0)
        /\ (3 <= length (Legacy.log_topics log))%nat).
Proof.
  intros H wf. unfold Payout._sum_ticketbroker_redeems_in_receipt in H.
  rewrite redeems_loop_filter in H.
  destruct (mapM Payout.decode_redeem
              (filter Payout.redeem_selected (Legacy.rc_logs receipt))) as [rs|e] eqn:E;
    cbn [bind] in H; [|discriminate].
  injection H as <- <-. cbn [app].
  split; [reflexivity|]. split; [lia|].
  destruct (mapM_Forall Payout.decode_redeem
              (fun r => wf (fst (fst r)) /\ wf (snd (fst r)))
              (filter Payout.redeem_selected (Legacy.rc_logs receipt))) with (ys := rs)
    as [F L].
  { intros log r Hd. apply decode_redeem_shape in Hd. cbv zeta in Hd. unfold wf. tauto. }
  { exact E. }
  split; [exact L|]. split; [exact F|].
  intro log. unfold Payout.redeem_selected.
  change (Payout._lower_addr Payout.TICKETBROKER) with Payout.TICKETBROKER.
  change (Payout._lower_addr Payout.WINNING_TICKET_REDEEMED_TOPIC0)
    with Payout.WINNING_TICKET_REDEEMED_TOPIC0.
  rewrite !andb_true_iff, str_eqb_eq, Nat.leb_le.
  destruct (Legacy.log_topics log) as [|t0 ts].
  - split; [intros [[_ F0] _]; discriminate | intros (_ & (t0 & ts & F0 & _) & _); discriminate].
  - rewrite str_eqb_eq. split.
    + intros [[A B] C]. split; [exact A|]. split; [|exact C]. now exists t0, ts.
    + intros (A & (t0' & ts' & E0 & B) & C). injection E0 as <- <-. now repeat split.
Qed.

Lemma sum_ticketbroker_redeems_spec_witness :
  let pad a := txt "0x000000000000000000000000" ++ skipn 2 a in
  let other := txt "0x8a8053c21696f27ed305a03bd1efc5d068d91d0e" in
  let log := Legacy.mkLog (Some Payout.TICKETBROKER)
               [Payout.WINNING_TICKET_REDEEMED_TOPIC0;
                pad Payout.BACKEND_PAYOUT_WALLET; pad other]
               (Some (txt "0x2aa1efb94e0000")) in
  let receipt := Legacy.mkReceipt (Legacy.JStr (txt "0x1")) None None None [log] in
  Payout._sum_ticketbroker_redeems_in_receipt receipt
  = Ok (12000000000000000, [(Payout.BACKEND_PAYOUT_WALLET, other, 12000000000000000)])
  /\ 12000000000000000
     = fold_right Z.add 0
         (map snd [(Payout.BACKEND_PAYOUT_WALLET, other, 12000000000000000)]).
Proof.
  intros pad other log receipt.
  assert (H : Payout._sum_ticketbroker_redeems_in_receipt receipt
              = Ok (12000000000000000,
                    [(Payout.BACKEND_PAYOUT_WALLET, other, 12000000000000000)]))
    by (vm_compute; reflexivity).
  split; [exact H|].
  destruct (sum_ticketbroker_redeems_spec receipt _ _ H) as (_ & E & _).
  exact E.
Defined.

Lemma check_senders_ok (label tx_hash expected : str) (rows : list Payout.Redeem) :
  Payout.check_senders label tx_hash expected rows = Ok tt <->
  Forall (fun r => Payout._lower_addr (fst (fst r)) = Payout._lower_addr expected) rows.
Proof.
  induction rows as [|[[s rc] a] rows IH]; cbn [Payout.check_senders].
  - split; [constructor | reflexivity].
  - destruct (str_eqb (Payout._lower_addr s) (Payout._lower_addr expected)) eqn:E;
      cbn [negb].
    + apply str_eqb_eq in E. rewrite IH. split.
      * intro F. now constructor.
      * intro F. now inversion F.
    + apply str_eqb_neq in E. split; [discriminate|].
      intro F. inversion F as [|? ? H0 _]. now elim E.
Qed.

Lemma ticket_total_sound_from
  (get_receipt : str -> result Legacy.Receipt) (label expected : str)
  (tx_hashes : list str) :
  forall acc total : Z,
    Payout.ticket_total get_receipt label expected tx_hashes acc = Ok total ->
    exists sums : list Z,
      total = acc + fold_right Z.add 0 sums
      /\ Forall2
           (fun tx_hash s =>
              exists rec rows,
                get_receipt tx_hash = Ok rec
                /\ Payout._receipt_ok rec = Ok true
                /\ Payout._sum_ticketbroker_redeems_in_receipt rec = Ok (s, rows)
                /\ Forall (fun r => Payout._lower_addr (fst (fst r))
                                    = Payout._lower_addr expected) rows)
           tx_hashes sums.
Proof.
  induction tx_hashes as [|tx rest IH]; intros acc total H;
    cbn [Payout.ticket_total] in H.
  - injection H as <-. exists []. split; [cbn; lia | constructor].
  - destruct (get_receipt tx) as [rec|] eqn:Er; cbn [bind] in H; [|discriminate].
    destruct (Payout._receipt_ok rec) as [ok|] eqn:Eok; cbn [bind] in H; [|discriminate].
    destruct ok; cbn [negb] in H; [|discriminate].
    destruct (Payout._sum_ticketbroker_redeems_in_receipt rec) as [[s rows]|] eqn:Es;
      cbn [bind fst snd] in H; [|discriminate].
    destruct (Payout.check_senders label tx expected rows) as [[]|] eqn:Ec;
      cbn [bind] in H; [|discriminate].
    apply IH in H. destruct H as (sums & Et & F).
    exists (s :: sums). split; [cbn [fold_right]; lia|].
    constructor; [|exact F].
    exists rec, rows. repeat split; try assumption. now apply check_senders_ok in Ec.
Qed.

(** X11: a total of one of the three ticket loops of [main] is the sum,
    over the listed transactions, of the redeem amounts of each receipt;
    every receipt succeeded and every redeem in it has the expected
    sender. *)
Theorem ticket_total_sound
  (get_receipt : str -> result Legacy.Receipt) (label expected : str)
  (tx_hashes : list str) (total : Z) :
  Payout.ticket_total get_receipt label expected tx_hashes 0 = Ok total ->
  exists sums : list Z,
    total = fold_right Z.add 0 sums
    /\ Forall2
         (fun tx_hash s =>
            exists rec rows,
              get_receipt tx_hash = Ok rec
              /\ Payout._receipt_ok rec = Ok true
              /\ Payout._sum_ticketbroker_redeems_in_receipt rec = Ok (s, rows)
              /\ s = fold_right Z.add 0 (map snd rows)
              /\ Forall (fun r => Payout._lower_addr (fst (fst r))
                                  = Payout._lower_addr expected) rows)
         tx_hashes sums.
Proof.
  intro H. apply ticket_total_sound_from in H. destruct H as (sums & E & F).
  exists sums. split; [lia|].
  eapply Forall2_impl; [|exact F].
  intros tx s (rec & rows & A & B & C & D). exists rec, rows.
  repeat split; try assumption.
  unfold Payout._sum_ticketbroker_redeems_in_receipt in C.
  rewrite redeems_loop_filter in C.
  destruct (mapM _ _) as [rs|]; cbn [bind] in C; [|discriminate].
  injection C as <- <-. cbn [app]. lia.
Qed.

Lemma ticket_total_sound_witness :
  let pad a := txt "0x000000000000000000000000" ++ skipn 2 a in
  let other := txt "0x8a8053c21696f27ed305a03bd1efc5d068d91d0e" in
  let log := Legacy.mkLog (Some Payout.TICKETBROKER)
               [Payout.WINNING_TICKET_REDEEMED_TOPIC0;
                pad Payout.BACKEND_PAYOUT_WALLET; pad other]
               (Some (txt "0x2aa1efb94e0000")) in
  let receipt := Legacy.mkReceipt (Legacy.JStr (txt "0x1")) None None None [log] in
  Payout.manual_total_wei (fun _ => Ok receipt) = Ok 12000000000000000
  /\ exists sums : list Z,
       12000000000000000 = fold_right Z.add 0 sums
       /\ length sums = length Payout.MANUAL_TICKETBROKER_TXS.
Proof.
  intros pad other log receipt.
  assert (H : Payout.ticket_total (fun _ => Ok receipt) (txt "manual")
                Payout.BACKEND_PAYOUT_WALLET Payout.MANUAL_TICKETBROKER_TXS 0
              = Ok 12000000000000000) by (vm_compute; reflexivity).
  split; [exact H|].
  destruct (ticket_total_sound (fun _ => Ok receipt) (txt "manual")
              Payout.BACKEND_PAYOUT_WALLET Payout.MANUAL_TICKETBROKER_TXS _ H)
    as (sums & E & F).
  exists sums. split; [exact E|]. symmetry. exact (Forall2_length F).
Defined.

(** What the loops of [main] raise for a transaction that failed or that
    redeemed a ticket of another sender. *)
(** X12: a listed ticket transaction whose receipt failed stops the run
    with the error naming the label and the hash, and the first redeem of
    another sender stops it with the error naming that sender. *)
Theorem ticket_total_rejects
  (get_receipt : str -> result Legacy.Receipt) (label expected : str)
  (tx_hash : str) (rest : list str) (acc : Z) (rec : Legacy.Receipt) :
  get_receipt tx_hash = Ok rec ->
  (Payout._receipt_ok rec = Ok false ->
   Payout.ticket_total get_receipt label expected (tx_hash :: rest) acc
   = Raise (RuntimeError (label ++ txt " TicketBroker tx failed: " ++ tx_hash)))
  /\ (forall s before sender recipient amount after,
        Payout._receipt_ok rec = Ok true ->
        Payout._sum_ticketbroker_redeems_in_receipt rec
          = Ok (s, before ++ (sender, recipient, amount) :: after) ->
        Forall (fun r => Payout._lower_addr (fst (fst r))
                         = Payout._lower_addr expected) before ->
        Payout._lower_addr sender <> Payout._lower_addr expected ->
        Payout.ticket_total get_receipt label expected (tx_hash :: rest) acc
        = Raise (RuntimeError (txt "unexpected sender in " ++ label
                               ++ txt " TicketBroker tx " ++ tx_hash
                               ++ txt ": " ++ sender))).
Proof.
  intro Hr. split.
  - intro Hok. cbn [Payout.ticket_total]. rewrite Hr. cbn [bind]. rewrite Hok.
    reflexivity.
  - intros s before sender recipient amount after Hok Hs Hb Hne.
    cbn [Payout.ticket_total]. rewrite Hr. cbn [bind]. rewrite Hok. cbn [bind negb].
    rewrite Hs. cbn [bind fst snd].
    assert (E : Payout.check_senders label tx_hash expected
                  (before ++ (sender, recipient, amount) :: after)
                = Raise (RuntimeError (txt "unexpected sender in " ++ label
                                       ++ txt " TicketBroker tx " ++ tx_hash
                                       ++ txt ": " ++ sender))).
    { clear Hs. induction Hb as [|[[s0 r0] a0] before H0 Hb IH]; cbn [app Payout.check_senders].
      - apply str_eqb_neq in Hne. rewrite Hne. reflexivity.
      - cbn [fst] in H0. apply str_eqb_eq in H0. rewrite H0. cbn [negb]. exact IH. }
    rewrite E. reflexivity.
Qed.

Lemma ticket_total_rejects_witness :
  let receipt := Legacy.mkReceipt (Legacy.JStr (txt "0x0")) None None None [] in
  Payout.ticket_total (fun _ => Ok receipt) (txt "Dec31")
    Payout.TICKET_SENDER_DEC31_JAN22 [txt "0x7f"; txt "0x4a"] 0
  = Raise (RuntimeError (txt "Dec31 TicketBroker tx failed: 0x7f")).
Proof.
  intro receipt.
  destruct (ticket_total_rejects (fun _ => Ok receipt) (txt "Dec31")
              Payout.TICKET_SENDER_DEC31_JAN22 (txt "0x7f") [txt "0x4a"] 0 receipt
              eq_refl) as [H _].
  exact (H eq_refl).
Defined.

(* ================================================================== *)
(** * The hash list and the direct transfers *)

Lemma existsb_str_eqb (k : str) (l : list str) :
  existsb (str_eqb k) l = true <-> In k l.
Proof.
  rewrite existsb_exists. split.
  - intros (x & Hx & E). apply str_eqb_eq in E. now subst.
  - intro H. exists k. split; [exact H | apply str_eqb_refl].
Qed.

Lemma read_hashes_In (cells : list (option str)) (h : str) :
  In h (Payout.read_hashes cells) <->
  h <> [] /\ exists c, In c cells /\ h = strip (or_default c []).
Proof.
  induction cells as [|c cells IH]; cbn [Payout.read_hashes].
  - split; [intros [] | intros (_ & c & [] & _)].
  - destruct (strip (or_default c [])) as [|a r] eqn:E.
    + rewrite IH. split.
      * intros (Hn & c' & Hc' & E'). split; [exact Hn|]. exists c'. split; [now right|exact E'].
      * intros (Hn & c' & [<- | Hc'] & E'); [congruence|].
        split; [exact Hn|]. now exists c'.
    + cbn [In]. rewrite IH. split.
      * intros [<- | (Hn & c' & Hc' & E')].
        -- split; [discriminate|]. exists c. split; [now left | now symmetry].
        -- split; [exact Hn|]. exists c'. split; [now right | exact E'].
      * intros (Hn & c' & [<- | Hc'] & E').
        -- left. congruence.
        -- right. split; [exact Hn|]. now exists c'.
Qed.

(** The loop keeps the hashes already chosen, adds a sub-sequence of the
    hashes still to read - the first spelling of each new one - and never
    two that agree up to case. *)
Lemma dedupe_loop_spec (txs : list str) :
  forall seen out : list str,
    (forall k, In k seen <-> In k (map lower out)) ->
    NoDup (map lower out) ->
    exists more,
      Payout.dedupe_loop txs seen out = out ++ more
      /\ Payout.subseq more txs
      /\ NoDup (map lower (out ++ more))
      /\ (forall h, In h txs -> In (lower h) (map lower (out ++ more)))
      /\ (forall pre h post,
            txs = pre ++ h :: post -> ~ In (lower h) (map lower pre) ->
            ~ In (lower h) seen -> In h more).
Proof.
  induction txs as [|h txs IH]; intros seen out Hs Hnd; cbn [Payout.dedupe_loop].
  - exists []. rewrite app_nil_r. split; [reflexivity|]. split; [constructor|].
    split; [exact Hnd|]. split; [intros h []|].
    intros [|? ?] h post E; discriminate.
  - destruct (existsb (str_eqb (lower h)) seen) eqn:Ex.
    + apply existsb_str_eqb in Ex.
      destruct (IH seen out Hs Hnd) as (more & E & Sq & Nd & Cov & First).
      exists more. split; [exact E|]. split; [now constructor|]. split; [exact Nd|].
      split.
      * intros h' [<- | Hh']; [|now apply Cov].
        rewrite map_app. apply in_or_app. left. now apply Hs.
      * intros pre h' post Etx Hpre Hseen.
        destruct pre as [|p pre]; cbn [app] in Etx; injection Etx as -> ->.
        -- contradiction.
        -- apply (First pre h' post eq_refl); [|exact Hseen].
           intro Hin. apply Hpre. cbn [map]. now right.
    + assert (Hn : ~ In (lower h) seen).
      { intro Hin. apply existsb_str_eqb in Hin. congruence. }
      destruct (IH (lower h :: seen) (out ++ [h])) as (more & E & Sq & Nd & Cov & First).
      * intro k. rewrite map_app, in_app_iff. cbn [map In]. rewrite Hs. tauto.
      * rewrite map_app. cbn [map]. apply NoDup_app.
        -- exact Hnd.
        -- constructor; [intros [] | constructor].
        -- intros k Hk [<- | []]. apply Hn. now apply Hs.
      * exists (h :: more). rewrite <- app_assoc in E, Nd, Cov. cbn [app] in E, Nd, Cov.
        split; [exact E|]. split; [now constructor|]. split; [exact Nd|]. split.
        -- intros h' [<- | Hh']; [|now apply Cov].
           rewrite map_app. apply in_or_app. right. now left.
        -- intros pre h' post Etx Hpre Hseen.
           destruct pre as [|p pre]; cbn [app] in Etx; injection Etx as -> ->.
           ++ now left.
           ++ right. apply (First pre h' post eq_refl).
              ** intro Hin. apply Hpre. cbn [map]. now right.
              ** intros [Ek | Hin]; [|contradiction].
                 apply Hpre. cbn [map]. now left.
Qed.

(** X13: when the file has a [tx_hash] column the loader returns the
    stripped, non-empty cells in file order with every hash kept once,
    compared without case: no two results agree up to case, every cell is
    represented, and the spelling kept is the first one in the file. *)
Theorem load_txhashes_dedup
  (path : str) (header : list str) (cells : list (option str)) :
  In (txt "tx_hash") header ->
  exists out,
    Payout._load_phase3_direct_transfer_txhashes path (Some header) cells = Ok out
    /\ NoDup (map lower out)
    /\ Payout.subseq out (Payout.read_hashes cells)
    /\ (forall h, In h out ->
          h <> [] /\ strip h = h
          /\ exists c, In c cells /\ h = strip (or_default c []))
    /\ (forall c, In c cells -> strip (or_default c []) <> [] ->
          In (lower (strip (or_default c []))) (map lower out))
    /\ (forall pre h post,
          Payout.read_hashes cells = pre ++ h :: post ->
          ~ In (lower h) (map lower pre) -> In h out).
Proof.
  intro Hh. unfold Payout._load_phase3_direct_transfer_txhashes.
  replace (existsb (str_eqb (txt "tx_hash")) header) with true
    by (symmetry; now apply existsb_str_eqb).
  destruct (dedupe_loop_spec (Payout.read_hashes cells) [] [])
    as (out & E & Sq & Nd & Cov & First).
  { intro k. cbn. tauto. }
  { constructor. }
  cbn [app] in *. exists out. split; [now rewrite E|]. split; [exact Nd|].
  split; [exact Sq|].
  assert (Hin : forall l l' : list str, Payout.subseq l l' -> forall x, In x l -> In x l').
  { intros l l' S. induction S as [|x l l' S IH|x l l' S IH]; intros y Hy.
    - destruct Hy.
    - right. now apply IH.
    - destruct Hy as [<- | Hy]; [now left | right; now apply IH]. }
  split; [|split].
  - intros h Ho. apply (Hin _ _ Sq) in Ho. apply read_hashes_In in Ho.
    destruct Ho as (Hn & c & Hc & Ec). split; [exact Hn|]. split.
    + rewrite Ec. apply strip_idem.
    + now exists c.
  - intros c Hc Hn. apply Cov. apply read_hashes_In. split; [exact Hn|]. now exists c.
  - intros pre h post Er Hp. apply (First pre h post Er Hp). intros [].
Qed.

Lemma load_txhashes_dedup_witness :
  let cells := [Some (txt " 0xAb "); None; Some (txt "0xab"); Some (txt "0xCD")] in
  In (txt "tx_hash") [txt "tx_hash"; txt "note"]
  /\ exists out,
       Payout._load_phase3_direct_transfer_txhashes (txt "hashes.csv")
         (Some [txt "tx_hash"; txt "note"]) cells = Ok out
       /\ NoDup (map lower out).
Proof.
  intro cells.
  assert (H : In (txt "tx_hash") [txt "tx_hash"; txt "note"]) by (left; reflexivity).
  split; [exact H|].
  destruct (load_txhashes_dedup (txt "hashes.csv") [txt "tx_hash"; txt "note"] cells H)
    as (out & E & Nd & _).
  exists out. split; [exact E | exact Nd].
Defined.

(** Without the column the loader reads no row and names the file. *)
Lemma load_txhashes_missing_column
  (path : str) (fieldnames : option (list str)) (cells : list (option str)) :
  (forall header, fieldnames = Some header -> ~ In (txt "tx_hash") header) ->
  Payout._load_phase3_direct_transfer_txhashes path fieldnames cells
  = Raise (RuntimeError (txt "missing tx_hash column: " ++ path)).
Proof.
  intro H. unfold Payout._load_phase3_direct_transfer_txhashes.
  destruct fieldnames as [header|]; [|reflexivity].
  destruct (existsb (str_eqb (txt "tx_hash")) header) eqn:E; [|reflexivity].
  apply existsb_str_eqb in E. now elim (H header eq_refl).
Qed.

(** The slices of the list, in order, give the list back; none is empty
    and none is longer than the batch size. *)
Lemma batches_spec (fuel : nat) :
  forall l : list str,
    (length l <= fuel)%nat ->
    concat (Payout.batches fuel l) = l
    /\ Forall (fun c => (0 < length c <= Payout.batch_size)%nat) (Payout.batches fuel l)
    /\ (length (Payout.batches fuel l) * Payout.batch_size
        < length l + Payout.batch_size)%nat
    /\ (length l <= length (Payout.batches fuel l) * Payout.batch_size)%nat.
Proof.
  induction fuel as [|fuel IH]; intros l Hl; cbn [Payout.batches].
  - destruct l; [|cbn in Hl; lia].
    split; [reflexivity|]. split; [constructor|]. unfold Payout.batch_size. split; cbn; lia.
  - destruct l as [|x l].
    { split; [reflexivity|]. split; [constructor|]. unfold Payout.batch_size. split; cbn; lia. }
    set (l0 := x :: l) in *.
    assert (Hsk : length (skipn Payout.batch_size l0)
                  = (length l0 - Payout.batch_size)%nat) by apply length_skipn.
    assert (Hfi : length (firstn Payout.batch_size l0)
                  = Nat.min Payout.batch_size (length l0)) by apply length_firstn.
    assert (Hpos : (0 < length l0)%nat) by (unfold l0; cbn; lia).
    assert (Hb : Payout.batch_size = 75%nat) by reflexivity.
    destruct (IH (skipn Payout.batch_size l0)) as (A & B & C & D); [lia|].
    cbn [concat length]. rewrite A, firstn_skipn.
    split; [reflexivity|]. split; [constructor; [lia | exact B]|]. lia.
Qed.

Lemma check_chunk_sound (resp_items : list Payout.Item) (chunk : list str) :
  forall (j : nat) (total_wei ok_count total' count' : Z),
    Payout.check_chunk resp_items j chunk total_wei ok_count = Ok (total', count') ->
    count' = ok_count + Z.of_nat (length chunk)
    /\ exists values : list Z,
         length values = length chunk
         /\ total' = total_wei + fold_right Z.add 0 values
         /\ forall i v, nth_error values i = Some v ->
                        Payout.direct_ok resp_items (j + i) v.
Proof.
  induction chunk as [|h rest IH]; intros j t c t' c' H; cbn [Payout.check_chunk] in H.
  - injection H as <- <-. split; [cbn; lia|]. exists []. split; [reflexivity|].
    split; [cbn; lia|]. intros [|i] v E; discriminate.
  - cbv zeta in H.
    destruct (Payout.by_id_get (Z.of_nat j * 2) resp_items) as [ti|] eqn:Eti;
      [|discriminate].
    destruct (Payout.item_result ti) as [tx|] eqn:Etx; [|discriminate].
    destruct (Payout.by_id_get (Z.of_nat j * 2 + 1) resp_items) as [ri|] eqn:Eri;
      [|discriminate].
    destruct (Payout.item_result ri) as [receipt|] eqn:Erc; [|discriminate].
    destruct (Payout._receipt_ok (Payout.as_receipt receipt)) as [ok|] eqn:Eok;
      cbn [bind] in H; [|discriminate].
    destruct ok; cbn [negb] in H; [|discriminate].
    destruct (str_eqb (Payout._lower_addr (or_default (Payout.o_from tx) []))
                (Payout._lower_addr Payout.BACKEND_PAYOUT_WALLET)) eqn:Ef;
      cbn [negb] in H; [|discriminate].
    destruct (int16 (or_default (Payout.o_value tx) (txt "0x0"))) as [v0|] eqn:Ev;
      cbn [bind] in H; [|discriminate].
    apply IH in H. destruct H as (Ec & values & Hlen & Et & Hall).
    split; [cbn [length]; lia|].
    exists (v0 :: values). split; [cbn; now rewrite Hlen|].
    split; [cbn [fold_right]; lia|].
    intros [|i] v E; cbn [nth_error] in E.
    + injection E as <-. rewrite Nat.add_0_r.
      exists ti, tx, ri, receipt. apply str_eqb_eq in Ef.
      repeat split; assumption.
    + replace (j + S i)%nat with (S j + i)%nat by lia. now apply Hall.
Qed.

Lemma direct_loop_sound
  (batch : nat -> list str -> result (list Payout.Item)) (chunks : list (list str)) :
  forall (n : nat) (total_wei ok_count total' count' : Z),
    Payout.direct_loop batch n chunks total_wei ok_count = Ok (total', count') ->
    count' = ok_count + Z.of_nat (length (concat chunks))
    /\ exists values : list (list Z),
         length values = length chunks
         /\ total' = total_wei + fold_right Z.add 0 (concat values)
         /\ forall b chunk vs,
              nth_error chunks b = Some chunk -> nth_error values b = Some vs ->
              length vs = length chunk
              /\ exists resp_items,
                   batch (n + b)%nat chunk = Ok resp_items
                   /\ forall i v, nth_error vs i = Some v ->
                                  Payout.direct_ok resp_items i v.
Proof.
  induction chunks as [|chunk rest IH]; intros n t c t' c' H;
    cbn [Payout.direct_loop] in H.
  - injection H as <- <-. split; [cbn; lia|]. exists []. split; [reflexivity|].
    split; [cbn; lia|]. intros [|b] ch vs E; discriminate.
  - destruct (batch n chunk) as [items|] eqn:Eb; cbn [bind] in H; [|discriminate].
    destruct (Payout.check_chunk items 0 chunk t c) as [[t1 c1]|] eqn:Ec;
      cbn [bind fst snd] in H; [|discriminate].
    apply check_chunk_sound in Ec. destruct Ec as (Ec1 & vs0 & Hl0 & Et0 & Hall0).
    apply IH in H. destruct H as (Ec2 & values & Hlen & Et & Hall).
    split; [cbn [concat]; rewrite length_app; lia|].
    exists (vs0 :: values). split; [cbn; now rewrite Hlen|].
    split.
    + cbn [concat]. rewrite fold_right_app.
      assert (G : forall (a : list Z) (z : Z),
                 fold_right Z.add z a = fold_right Z.add 0 a + z).
      { induction a as [|x a IHa]; intro z; cbn [fold_right]; [lia|].
        rewrite IHa. lia. }
      rewrite G. lia.
    + intros [|b] ch vs E1 E2; cbn [nth_error] in E1, E2.
      * injection E1 as <-. injection E2 as <-. split; [exact Hl0|].
        exists items. rewrite Nat.add_0_r. split; [exact Eb | exact Hall0].
      * replace (n + S b)%nat with (S n + b)%nat by lia. now apply (Hall b).
Qed.

(** X14: the direct-transfer check asks for the hashes in consecutive
    batches of at most 75 that make up the list; when it returns, it has
    counted every hash, and the total is the sum of the values it read,
    each from a transaction whose result and receipt were present under
    the ids of its position, whose receipt succeeded and whose sender is
    the backend wallet. *)
Theorem sum_direct_transfers_sound
  (batch : nat -> list str -> result (list Payout.Item)) (tx_hashes : list str)
  (res : Payout.DirectTransferResult) :
  Payout._sum_direct_eth_transfers_from_txhashes batch tx_hashes = Ok res ->
  let chunks := Payout.batches (length tx_hashes) tx_hashes in
  concat chunks = tx_hashes
  /\ Forall (fun c => (0 < length c <= 75)%nat) chunks
  /\ Payout.tx_count res = Z.of_nat (length tx_hashes)
  /\ exists values : list (list Z),
       length values = length chunks
       /\ Payout.dt_total_wei res = fold_right Z.add 0 (concat values)
       /\ forall b chunk vs,
            nth_error chunks b = Some chunk -> nth_error values b = Some vs ->
            length vs = length chunk
            /\ exists resp_items,
                 batch b chunk = Ok resp_items
                 /\ forall i v, nth_error vs i = Some v ->
                                Payout.direct_ok resp_items i v.
Proof.
  intros H chunks. unfold Payout._sum_direct_eth_transfers_from_txhashes in H.
  fold chunks in H.
  destruct (Payout.direct_loop batch 0 chunks 0 0) as [[t c]|] eqn:E;
    cbn [bind fst snd] in H; [|discriminate].
  injection H as <-. cbn [Payout.tx_count Payout.dt_total_wei].
  destruct (batches_spec (length tx_hashes) tx_hashes (Nat.le_refl _)) as (A & B & _).
  fold chunks in A, B.
  apply direct_loop_sound in E. destruct E as (Ec & values & Hlen & Et & Hall).
  split; [exact A|]. split; [exact B|]. split; [rewrite A in Ec; lia|].
  exists values. split; [exact Hlen|]. split; [lia|]. exact Hall.
Qed.

Lemma sum_direct_transfers_sound_witness :
  let items :=
    [Payout.mkItem 1 (Some (Payout.mkObj (Legacy.JStr (txt "0x1")) None None));
     Payout.mkItem 0 (Some (Payout.mkObj Legacy.JNull
                              (Some Payout.BACKEND_PAYOUT_WALLET) (Some (txt "0x05"))))] in
  let batch := fun (_ : nat) (_ : list str) => Ok items in
  Payout._sum_direct_eth_transfers_from_txhashes batch [txt "0xaa"]
  = Ok (Payout.mkDirectTransferResult 1 5)
  /\ Payout.tx_count (Payout.mkDirectTransferResult 1 5)
     = Z.of_nat (length [txt "0xaa"]).
Proof.
  intros items batch.
  assert (H : Payout._sum_direct_eth_transfers_from_txhashes batch [txt "0xaa"]
              = Ok (Payout.mkDirectTransferResult 1 5)) by (vm_compute; reflexivity).
  split; [exact H|].
  destruct (sum_direct_transfers_sound batch [txt "0xaa"] _ H) as (_ & _ & E & _).
  exact E.
Defined.

(* ================================================================== *)
(** * USDC transfers, continued *)

Lemma mapM_In {A B : Type} (f : A -> result B) (xs : list A) :
  forall ys, mapM f xs = Ok ys ->
  forall y, In y ys -> exists x, In x xs /\ f x = Ok y.
Proof.
  induction xs as [|x xs IH]; intros ys H y Hy; cbn [mapM] in H.
  - inversion H; subst. destruct Hy.
  - destruct (f x) as [y0|e] eqn:Ex; cbn [bind] in H; [|discriminate H].
    destruct (mapM f xs) as [ys'|e]; cbn [bind] in H; [|discriminate H].
    inversion H; subst. destruct Hy as [<- | Hy].
    + exists x. split; [now left | exact Ex].
    + destruct (IH ys' eq_refl y Hy) as (x' & Hin & Hx').
      exists x'. split; [now right | exact Hx'].
Qed.

(** A topic that, lower-cased, is the treasury topic decodes to the
    treasury address. *)
Lemma decode_treasury_topic (topic t : str) :
  Usdc._topic_addr Usdc.TREASURY = Ok topic ->
  lower t = topic ->
  Usdc._decode_topic_addr t = Ok Usdc.TREASURY.
Proof.
  intros H E. vm_compute in H. injection H as H.
  unfold Usdc._decode_topic_addr. cbv zeta. rewrite E, <- H. reflexivity.
Qed.

(** X15: when the endpoint honours the topic filters of the two queries,
    every transfer row has the treasury as sender or recipient, so its
    direction is never [other]; it is [out] exactly when only the sender
    is the treasury and [in] exactly when only the recipient is. *)
Theorem direction_never_other
  (eth_getLogs : str -> list (option str) -> result (list Usdc.RawLog))
  (block_timestamp : Z -> result Z)
  (token : Usdc.Token) (topic : str) (out_logs in_logs : list Usdc.RawLog)
  (ts : list Usdc.Transfer) :
  Usdc._topic_addr Usdc.TREASURY = Ok topic ->
  eth_getLogs (Usdc.address token) [Some Usdc.TRANSFER_TOPIC0; Some topic] = Ok out_logs ->
  eth_getLogs (Usdc.address token) [Some Usdc.TRANSFER_TOPIC0; None; Some topic]
    = Ok in_logs ->
  Forall (fun l => lower (nth 1 (Usdc.topics l) []) = topic) out_logs ->
  Forall (fun l => lower (nth 2 (Usdc.topics l) []) = topic) in_logs ->
  Usdc.token_transfers eth_getLogs block_timestamp token = Ok ts ->
  Forall (fun t =>
            (Usdc.from_addr t = Usdc.TREASURY \/ Usdc.to_addr t = Usdc.TREASURY)
            /\ Usdc.direction t <> txt "other"
            /\ (Usdc.direction t = txt "out" <->
                Usdc.from_addr t = Usdc.TREASURY /\ Usdc.to_addr t <> Usdc.TREASURY)
            /\ (Usdc.direction t = txt "in" <->
                Usdc.from_addr t <> Usdc.TREASURY /\ Usdc.to_addr t = Usdc.TREASURY))
         ts.
Proof.
  intros Ht Hout Hin Fo Fi H.
  unfold Usdc.token_transfers, Usdc._fetch_token_transfers in H.
  rewrite Ht in H. cbn [bind] in H. rewrite Hout, Hin in H. cbn [bind] in H.
  apply Forall_forall. intros t Hin_t.
  destruct (mapM_In _ _ _ H t Hin_t) as (l & Hl & Hd).
  destruct (merge_logs_dedup out_logs in_logs) as (_ & _ & Hsrc).
  apply Hsrc in Hl. clear Hsrc.
  assert (Hside : Usdc.from_addr t = Usdc.TREASURY \/ Usdc.to_addr t = Usdc.TREASURY).
  { unfold Usdc.transfer_of_log in Hd. ok_steps Hd. injection Hd as <-. cbn.
    apply in_app_or in Hl. destruct Hl as [Hl | Hl].
    - left. rewrite Forall_forall in Fo. specialize (Fo l Hl).
      destruct (Usdc.topics l) as [|t0 [|t1 r]]; try discriminate.
      cbn [nth] in Fo. rewrite (decode_treasury_topic topic t1 Ht Fo) in E2.
      now injection E2.
    - right. rewrite Forall_forall in Fi. specialize (Fi l Hl).
      destruct (Usdc.topics l) as [|t0 [|t1 [|t2 r]]]; try discriminate.
      cbn [nth] in Fi. rewrite (decode_treasury_topic topic t2 Ht Fi) in E3.
      now injection E3. }
  assert (Hdir : Usdc.direction t = Usdc.direction_of (Usdc.from_addr t) (Usdc.to_addr t)).
  { unfold Usdc.transfer_of_log in Hd. ok_steps Hd. now injection Hd as <-. }
  split; [exact Hside|]. rewrite Hdir. unfold Usdc.direction_of.
  destruct (str_eqb (Usdc.from_addr t) Usdc.TREASURY) eqn:Ef;
    [apply str_eqb_eq in Ef | apply str_eqb_neq in Ef];
    (destruct (str_eqb (Usdc.to_addr t) Usdc.TREASURY) eqn:Et;
     [apply str_eqb_eq in Et | apply str_eqb_neq in Et]); cbn [andb].
  - split; [discriminate|]. split; split; try discriminate; tauto.
  - split; [discriminate|]. split; split; try discriminate; tauto.
  - split; [discriminate|]. split; split; try discriminate; tauto.
  - exfalso. tauto.
Qed.

Lemma direction_never_other_witness :
  let pad a := txt "0x000000000000000000000000" ++ skipn 2 a in
  let other := txt "0x8a8053c21696f27ed305a03bd1efc5d068d91d0e" in
  let a := Usdc.mkRawLog (txt "0xAA") (txt "0x0") (txt "0x10")
             [Usdc.TRANSFER_TOPIC0; pad Usdc.TREASURY; pad other] (txt "0x64") in
  let b := Usdc.mkRawLog (txt "0xcc") (txt "0x2") (txt "0x12")
             [Usdc.TRANSFER_TOPIC0; pad other; pad Usdc.TREASURY] (txt "0x1f4") in
  let getLogs := fun (_ : str) (topics : list (option str)) =>
                   match topics with
                   | [_; _] => Ok [a]
                   | _ => Ok [b]
                   end in
  let timestamp := fun _ : Z => Ok 1700000000 in
  Usdc._topic_addr Usdc.TREASURY = Ok (pad Usdc.TREASURY)
  /\ exists ts,
       Usdc.token_transfers getLogs timestamp Usdc.USDC = Ok ts
       /\ Forall (fun t => Usdc.direction t <> txt "other") ts.
Proof.
  intros pad other a b getLogs timestamp.
  assert (Ht : Usdc._topic_addr Usdc.TREASURY = Ok (pad Usdc.TREASURY)) by reflexivity.
  split; [exact Ht|].
  destruct (Usdc.token_transfers getLogs timestamp Usdc.USDC) as [ts|e] eqn:Hts;
    [|vm_compute in Hts; discriminate Hts].
  exists ts. split; [reflexivity|].
  assert (Fo : Forall (fun l => lower (nth 1 (Usdc.topics l) []) = pad Usdc.TREASURY) [a])
    by (constructor; [reflexivity | constructor]).
  assert (Fi : Forall (fun l => lower (nth 2 (Usdc.topics l) []) = pad Usdc.TREASURY) [b])
    by (constructor; [reflexivity | constructor]).
  pose proof (direction_never_other getLogs timestamp Usdc.USDC (pad Usdc.TREASURY)
                [a] [b] ts Ht eq_refl eq_refl Fo Fi Hts) as F.
  eapply Forall_impl; [|exact F]. intros t (_ & H & _). exact H.
Defined.

(** The keys of [outflows_by_recipient] after a [setdefault] and update. *)
Lemma bump_keys (key : str * str) (fresh : Usdc.Outflow)
  (upd : Usdc.Outflow -> Usdc.Outflow) (d : list ((str * str) * Usdc.Outflow)) :
  forall k, In k (map fst (Usdc.bump key fresh upd d)) <-> k = key \/ In k (map fst d).
Proof.
  induction d as [|[k0 r0] d IH]; intro k; cbn [Usdc.bump map fst In].
  - split; [intros [<- | []]; now left | intros [-> | []]; now left].
  - destruct (Usdc.key_eqb key k0) eqn:E; cbn [map fst In].
    + apply key_eqb_eq in E. subst k0. intuition congruence.
    + rewrite IH. intuition congruence.
Qed.

Lemma bump_NoDup (key : str * str) (fresh : Usdc.Outflow)
  (upd : Usdc.Outflow -> Usdc.Outflow) (d : list ((str * str) * Usdc.Outflow)) :
  NoDup (map fst d) -> NoDup (map fst (Usdc.bump key fresh upd d)).
Proof.
  induction d as [|[k0 r0] d IH]; intro H; cbn [Usdc.bump map fst].
  - constructor; [intros [] | constructor].
  - cbn [map fst] in H. inversion H as [|? ? Hnin Hnd]; subst.
    destruct (Usdc.key_eqb key k0) eqn:E; cbn [map fst].
    + now constructor.
    + constructor; [|now apply IH].
      rewrite bump_keys. intros [-> | Hin]; [|contradiction].
      assert (Usdc.key_eqb key key = true) by now apply key_eqb_eq. congruence.
Qed.

(** A [setdefault] and update adds [delta] to the sum of a figure [g] over
    the rows, when the update adds [delta] to [g] of the row it meets. *)
Lemma bump_sum (g : Usdc.Outflow -> Z) (delta : Z) (key : str * str)
  (fresh : Usdc.Outflow) (upd : Usdc.Outflow -> Usdc.Outflow)
  (d : list ((str * str) * Usdc.Outflow)) :
  g (upd fresh) = delta ->
  (forall r, In (key, r) d -> g (upd r) = g r + delta) ->
  fold_right Z.add 0 (map (fun e => g (snd e)) (Usdc.bump key fresh upd d))
  = fold_right Z.add 0 (map (fun e => g (snd e)) d) + delta.
Proof.
  intros Hf. induction d as [|[k0 r0] d IH]; intro Hu; cbn [Usdc.bump map fold_right snd].
  - cbn. lia.
  - destruct (Usdc.key_eqb key k0) eqn:E; cbn [map fold_right snd].
    + apply key_eqb_eq in E. subst k0. rewrite (Hu r0) by now left. lia.
    + rewrite IH; [lia|]. intros r Hr. apply Hu. now right.
Qed.

(** Every row sits under the key made of its token symbol and recipient. *)
Lemma bump_keyed (key : str * str) (fresh : Usdc.Outflow)
  (upd : Usdc.Outflow -> Usdc.Outflow) (d : list ((str * str) * Usdc.Outflow)) :
  (forall r, Usdc.of_token_symbol (upd r) = Usdc.of_token_symbol r
             /\ Usdc.recipient (upd r) = Usdc.recipient r) ->
  key = (Usdc.of_token_symbol fresh, Usdc.recipient fresh) ->
  Forall Usdc.keyed d -> Forall Usdc.keyed (Usdc.bump key fresh upd d).
Proof.
  intros Hu Hf. induction d as [|[k0 r0] d IH]; intro H; cbn [Usdc.bump].
  - constructor; [|constructor]. unfold Usdc.keyed. cbn [fst snd].
    destruct (Hu fresh) as [-> ->]. exact Hf.
  - apply Forall_cons_iff in H. destruct H as [H0 Hd].
    destruct (Usdc.key_eqb key k0) eqn:E.
    + constructor; [|exact Hd]. unfold Usdc.keyed in *. cbn [fst snd] in *.
      destruct (Hu r0) as [-> ->]. exact H0.
    + constructor; [exact H0 | now apply IH].
Qed.

Lemma sum_filter {A : Type} (g : A -> Z) (p : A -> bool) (l : list A) :
  fold_right Z.add 0 (map g (filter p l))
  = fold_right Z.add 0 (map (fun x => if p x then g x else 0) l).
Proof.
  induction l as [|x l IH]; [reflexivity|].
  cbn [filter map fold_right]. destruct (p x); cbn [map fold_right]; lia.
Qed.

Lemma sum_out_cons (inc : Usdc.Transfer -> Z) (sym : str) (t : Usdc.Transfer)
  (ts : list Usdc.Transfer) :
  Usdc.sum_out inc sym (t :: ts)
  = (if str_eqb (Usdc.token_symbol t) sym && str_eqb (Usdc.direction t) (txt "out")
     then inc t else 0)
    + Usdc.sum_out inc sym ts.
Proof.
  unfold Usdc.sum_out. cbn [filter].
  destruct (str_eqb (Usdc.token_symbol t) sym && str_eqb (Usdc.direction t) (txt "out"));
    reflexivity.
Qed.

(** The four outflow counters of the per-token loop, as sums over the
    token's outgoing transfers. *)
Lemma totals_out_sums (sym : str) (ts : list Usdc.Transfer) :
  forall acc : Usdc.Totals,
    let tt := fold_left (Usdc.add_transfer sym) ts acc in
    let snap (t : Usdc.Transfer) := Usdc.timestamp_utc t <=? Usdc.DOC_SNAPSHOT_UTC in
    Usdc.tout_raw tt = Usdc.tout_raw acc + Usdc.sum_out Usdc.amount_raw sym ts
    /\ Usdc.out_count tt = Usdc.out_count acc + Usdc.sum_out (fun _ => 1) sym ts
    /\ Usdc.tout_snapshot_raw tt
       = Usdc.tout_snapshot_raw acc
         + Usdc.sum_out (fun t => if snap t then Usdc.amount_raw t else 0) sym ts
    /\ Usdc.out_count_snapshot tt
       = Usdc.out_count_snapshot acc
         + Usdc.sum_out (fun t => if snap t then 1 else 0) sym ts.
Proof.
  induction ts as [|t ts IH]; intro acc; cbn [fold_left]; cbv zeta.
  - unfold Usdc.sum_out. cbn. lia.
  - destruct (IH (Usdc.add_transfer sym acc t)) as (A & B & C & D).
    cbv zeta in *. rewrite A, B, C, D, !sum_out_cons. unfold Usdc.add_transfer.
    destruct (str_eqb (Usdc.token_symbol t) sym); cbn [negb andb]; [|lia].
    destruct (str_eqb (Usdc.direction t) (txt "in")) eqn:Ein.
    + apply str_eqb_eq in Ein. rewrite Ein.
      change (str_eqb (txt "in") (txt "out")) with false.
      cbn [Usdc.tout_raw Usdc.out_count Usdc.tout_snapshot_raw Usdc.out_count_snapshot].
      lia.
    + destruct (str_eqb (Usdc.direction t) (txt "out"));
        cbn [Usdc.tout_raw Usdc.out_count Usdc.tout_snapshot_raw Usdc.out_count_snapshot];
        destruct (Usdc.timestamp_utc t <=? Usdc.DOC_SNAPSHOT_UTC); lia.
Qed.

Section OutflowSums.

Variable g : Usdc.Outflow -> Z.
Variable inc : Usdc.Transfer -> Z.
Variable sym : str.

Hypothesis g_fresh : forall s a rc, g (Usdc.mkOutflow s a rc 0 0 0 0) = 0.
Hypothesis g_update :
  forall (t : Usdc.Transfer) (r : Usdc.Outflow),
    g (Usdc.mkOutflow (Usdc.of_token_symbol r) (Usdc.of_token_address r)
         (Usdc.recipient r)
         (Usdc.tx_count_total r + 1) (Usdc.amount_total_raw r + Usdc.amount_raw t)
         (if Usdc.timestamp_utc t <=? Usdc.DOC_SNAPSHOT_UTC
          then Usdc.tx_count_upto_doc_snapshot r + 1
          else Usdc.tx_count_upto_doc_snapshot r)
         (if Usdc.timestamp_utc t <=? Usdc.DOC_SNAPSHOT_UTC
          then Usdc.amount_upto_doc_snapshot_raw r + Usdc.amount_raw t
          else Usdc.amount_upto_doc_snapshot_raw r))
    = g r + inc t.

Lemma add_outflow_sum (token : Usdc.Token) (d : list ((str * str) * Usdc.Outflow))
  (t : Usdc.Transfer) :
  Forall Usdc.keyed d ->
  Forall Usdc.keyed (Usdc.add_outflow token d t)
  /\ Usdc.outflow_sum g sym (Usdc.add_outflow token d t)
     = Usdc.outflow_sum g sym d
       + (if str_eqb (Usdc.symbol token) sym
          then Usdc.sum_out inc sym [t] else 0).
Proof.
  intro K. unfold Usdc.add_outflow.
  assert (Z0 : (if str_eqb (Usdc.symbol token) sym then 0 else 0) = 0)
    by (destruct (str_eqb (Usdc.symbol token) sym); reflexivity).
  rewrite sum_out_cons. unfold Usdc.sum_out at 1. cbn [filter map fold_right].
  rewrite Z.add_0_r.
  destruct (str_eqb (Usdc.token_symbol t) (Usdc.symbol token)) eqn:Et; cbn [negb].
  2:{ split; [exact K|].
      destruct (str_eqb (Usdc.symbol token) sym) eqn:Es; [|lia].
      apply str_eqb_eq in Es. rewrite <- Es, Et. cbn [andb]. lia. }
  apply str_eqb_eq in Et.
  destruct (str_eqb (Usdc.direction t) (txt "in")) eqn:Ein.
  { split; [exact K|]. apply str_eqb_eq in Ein. rewrite Ein.
    change (str_eqb (txt "in") (txt "out")) with false.
    rewrite andb_false_r. rewrite Z0. lia. }
  destruct (str_eqb (Usdc.direction t) (txt "out")) eqn:Eout.
  2:{ split; [exact K|]. rewrite andb_false_r, Z0. lia. }
  rewrite andb_true_r. split.
  - apply bump_keyed; [intro r; now split | reflexivity | exact K].
  - unfold Usdc.outflow_sum.
    rewrite (bump_sum
               (fun r => if str_eqb (Usdc.of_token_symbol r) sym then g r else 0)
               (if str_eqb (Usdc.symbol token) sym then inc t else 0)).
    + f_equal. destruct (str_eqb (Usdc.symbol token) sym) eqn:Es; [|reflexivity].
      apply str_eqb_eq in Es. rewrite Et, Es, str_eqb_refl. reflexivity.
    + pose proof (g_update t (Usdc.mkOutflow (Usdc.symbol token) (Usdc.address token)
                                (Usdc.to_addr t) 0 0 0 0)) as U.
      rewrite g_fresh in U.
      cbn [Usdc.of_token_symbol Usdc.of_token_address Usdc.recipient
           Usdc.tx_count_total Usdc.amount_total_raw
           Usdc.tx_count_upto_doc_snapshot Usdc.amount_upto_doc_snapshot_raw] in U |- *.
      destruct (str_eqb (Usdc.symbol token) sym); [|reflexivity].
      rewrite U. lia.
    + intros r Hr. cbn [Usdc.of_token_symbol].
      rewrite Forall_forall in K. specialize (K _ Hr). unfold Usdc.keyed in K.
      cbn [fst snd] in K. injection K as K1 K2. rewrite K1.
      destruct (str_eqb (Usdc.of_token_symbol r) sym); [|lia].
      apply g_update.
Qed.

Lemma add_outflows_sum (token : Usdc.Token) (ts : list Usdc.Transfer) :
  forall d : list ((str * str) * Usdc.Outflow),
    Forall Usdc.keyed d ->
    Forall Usdc.keyed (fold_left (Usdc.add_outflow token) ts d)
    /\ Usdc.outflow_sum g sym (fold_left (Usdc.add_outflow token) ts d)
       = Usdc.outflow_sum g sym d
         + (if str_eqb (Usdc.symbol token) sym then Usdc.sum_out inc sym ts else 0).
Proof.
  induction ts as [|t ts IH]; intros d K; cbn [fold_left].
  - split; [exact K|]. unfold Usdc.sum_out. cbn.
    destruct (str_eqb (Usdc.symbol token) sym); lia.
  - destruct (add_outflow_sum token d t K) as [K1 E1].
    destruct (IH _ K1) as [K2 E2]. split; [exact K2|].
    rewrite E2, E1, (sum_out_cons inc sym t ts).
    unfold Usdc.sum_out at 1. cbn [filter].
    destruct (str_eqb (Usdc.symbol token) sym); [|lia].
    destruct (str_eqb (Usdc.token_symbol t) sym && str_eqb (Usdc.direction t) (txt "out"));
      cbn [map fold_right]; lia.
Qed.

Lemma tokens_outflows_sum (transfers : list Usdc.Transfer) (tokens : list Usdc.Token) :
  forall d : list ((str * str) * Usdc.Outflow),
    Forall Usdc.keyed d ->
    let d' := fold_left (fun d token => fold_left (Usdc.add_outflow token) transfers d)
                tokens d in
    Forall Usdc.keyed d'
    /\ Usdc.outflow_sum g sym d'
       = Usdc.outflow_sum g sym d
         + Z.of_nat (length (filter (fun tk => str_eqb (Usdc.symbol tk) sym) tokens))
           * Usdc.sum_out inc sym transfers.
Proof.
  induction tokens as [|tk tokens IH]; intros d K; cbn [fold_left filter]; cbv zeta.
  - split; [exact K|]. cbn. lia.
  - destruct (add_outflows_sum tk transfers d K) as [K1 E1].
    destruct (IH _ K1) as [K2 E2]. cbv zeta in E2. split; [exact K2|].
    rewrite E2, E1.
    destruct (str_eqb (Usdc.symbol tk) sym); cbn [length]; lia.
Qed.

Lemma outflows_of_sum (transfers : list Usdc.Transfer) (tokens : list Usdc.Token) :
  fold_right Z.add 0
    (map g (Usdc.outflows_of sym (Usdc.outflows_by_recipient tokens transfers)))
  = Z.of_nat (length (filter (fun tk => str_eqb (Usdc.symbol tk) sym) tokens))
    * Usdc.sum_out inc sym transfers.
Proof.
  destruct (tokens_outflows_sum transfers tokens [] (Forall_nil _)) as [_ E].
  cbv zeta in E. unfold Usdc.outflow_sum in E. cbn [map fold_right] in E.
  rewrite Z.add_0_l in E. rewrite <- E.
  unfold Usdc.outflows_of, Usdc.outflows_by_recipient.
  rewrite sum_filter, map_map. reflexivity.
Qed.

End OutflowSums.

Lemma symbol_once (tokens : list Usdc.Token) (token : Usdc.Token) :
  NoDup (map Usdc.symbol tokens) -> In token tokens ->
  length (filter (fun tk => str_eqb (Usdc.symbol tk) (Usdc.symbol token)) tokens) = 1%nat.
Proof.
  induction tokens as [|tk tokens IH]; intros Hnd Hin; [destruct Hin|].
  cbn [map] in Hnd. apply NoDup_cons_iff in Hnd. destruct Hnd as [Hn Hnd].
  cbn [filter]. destruct Hin as [-> | Hin].
  - rewrite str_eqb_refl. cbn [length]. f_equal.
    destruct (filter _ tokens) as [|x l] eqn:E; [reflexivity|].
    exfalso. assert (Hx : In x (filter (fun tk => str_eqb (Usdc.symbol tk) (Usdc.symbol token)) tokens))
      by (rewrite E; now left).
    apply filter_In in Hx. destruct Hx as [Hx1 Hx2]. apply str_eqb_eq in Hx2.
    apply Hn. rewrite <- Hx2. now apply in_map.
  - destruct (str_eqb (Usdc.symbol tk) (Usdc.symbol token)) eqn:E.
    + exfalso. apply str_eqb_eq in E. apply Hn. rewrite E. now apply in_map.
    + now apply IH.
Qed.

Lemma outflows_keys_NoDup (transfers : list Usdc.Transfer) (tokens : list Usdc.Token) :
  NoDup (map (fun r => (Usdc.of_token_symbol r, Usdc.recipient r))
           (Usdc.outflows_by_recipient tokens transfers)).
Proof.
  unfold Usdc.outflows_by_recipient.
  assert (G : forall d : list ((str * str) * Usdc.Outflow),
             NoDup (map fst d) ->
             Forall Usdc.keyed d ->
             let d' := fold_left (fun d token => fold_left (Usdc.add_outflow token) transfers d)
                         tokens d in
             NoDup (map fst d')
             /\ Forall Usdc.keyed d').
  { induction tokens as [|tk tokens IH]; intros d Hnd K; cbn [fold_left]; cbv zeta.
    - now split.
    - apply IH.
      + clear IH K. revert d Hnd. induction transfers as [|t ts IHt]; intros d Hnd;
          cbn [fold_left]; [exact Hnd|].
        apply IHt. unfold Usdc.add_outflow.
        destruct (negb _); [exact Hnd|].
        destruct (str_eqb _ (txt "in")); [exact Hnd|].
        destruct (str_eqb _ (txt "out")); [|exact Hnd].
        now apply bump_NoDup.
      + exact (proj1 (add_outflows_sum (fun _ => 0) (fun _ => 0) []
                        (fun _ _ _ => eq_refl) (fun _ _ => eq_refl) tk transfers d K)). }
  destruct (G [] (NoDup_nil _) (Forall_nil _)) as [Hnd K]. cbv zeta in *.
  rewrite map_map.
  erewrite map_ext_in; [exact Hnd|].
  intros e He. rewrite Forall_forall in K. symmetry. now apply K.
Qed.

(** X16: the per-recipient table adds up to the summary: for each token of
    a list with distinct symbols, the amounts and counts of its rows, all
    time and up to the snapshot, sum to the outflow total and count of the
    token's summary, and no two rows share token and recipient. *)
Theorem outflows_by_recipient_add_up
  (tokens : list Usdc.Token) (token : Usdc.Token) (transfers : list Usdc.Transfer) :
  NoDup (map Usdc.symbol tokens) -> In token tokens ->
  let rows := Usdc.outflows_by_recipient tokens transfers in
  let mine := Usdc.outflows_of (Usdc.symbol token) rows in
  let tt := Usdc.token_totals (Usdc.symbol token) transfers in
  fold_right Z.add 0 (map Usdc.amount_total_raw mine) = Usdc.tout_raw tt
  /\ fold_right Z.add 0 (map Usdc.tx_count_total mine) = Usdc.out_count tt
  /\ fold_right Z.add 0 (map Usdc.amount_upto_doc_snapshot_raw mine)
     = Usdc.tout_snapshot_raw tt
  /\ fold_right Z.add 0 (map Usdc.tx_count_upto_doc_snapshot mine)
     = Usdc.out_count_snapshot tt
  /\ NoDup (map (fun r => (Usdc.of_token_symbol r, Usdc.recipient r)) rows).
Proof.
  intros Hnd Hin rows mine tt.
  destruct (totals_out_sums (Usdc.symbol token) transfers Usdc.totals0) as (A & B & C & D).
  cbv zeta in A, B, C, D. fold (Usdc.token_totals (Usdc.symbol token) transfers) in A, B, C, D.
  fold tt in A, B, C, D. cbn [Usdc.totals0 Usdc.tout_raw Usdc.out_count
    Usdc.tout_snapshot_raw Usdc.out_count_snapshot] in A, B, C, D.
  pose proof (symbol_once tokens token Hnd Hin) as H1.
  unfold mine, rows.
  split; [|split; [|split; [|split]]].
  - rewrite (outflows_of_sum Usdc.amount_total_raw Usdc.amount_raw (Usdc.symbol token));
      [rewrite H1, A; lia | reflexivity | reflexivity].
  - rewrite (outflows_of_sum Usdc.tx_count_total (fun _ => 1) (Usdc.symbol token));
      [rewrite H1, B; lia | reflexivity | reflexivity].
  - rewrite (outflows_of_sum Usdc.amount_upto_doc_snapshot_raw
               (fun t => if Usdc.timestamp_utc t <=? Usdc.DOC_SNAPSHOT_UTC
                         then Usdc.amount_raw t else 0) (Usdc.symbol token));
      [rewrite H1, C; lia | reflexivity |].
    intros t r. cbn. destruct (Usdc.timestamp_utc t <=? Usdc.DOC_SNAPSHOT_UTC); lia.
  - rewrite (outflows_of_sum Usdc.tx_count_upto_doc_snapshot
               (fun t => if Usdc.timestamp_utc t <=? Usdc.DOC_SNAPSHOT_UTC
                         then 1 else 0) (Usdc.symbol token));
      [rewrite H1, D; lia | reflexivity |].
    intros t r. cbn. destruct (Usdc.timestamp_utc t <=? Usdc.DOC_SNAPSHOT_UTC); lia.
  - apply outflows_keys_NoDup.
Qed.

Lemma outflows_by_recipient_add_up_witness :
  let other := txt "0x8a8053c21696f27ed305a03bd1efc5d068d91d0e" in
  let t1 := Usdc.mkTransfer (txt "USDC") (Usdc.address Usdc.USDC) (txt "0xaa") 16
              1700000000 0 Usdc.TREASURY other (txt "out") 100 (Finite false 1 (-4)) in
  let t2 := Usdc.mkTransfer (txt "USDC") (Usdc.address Usdc.USDC) (txt "0xbb") 17
              1800000000 1 Usdc.TREASURY other (txt "out") 50 (Finite false 5 (-5)) in
  let t3 := Usdc.mkTransfer (txt "USDC") (Usdc.address Usdc.USDC) (txt "0xcc") 18
              1800000000 2 other Usdc.TREASURY (txt "in") 500 (Finite false 5 (-4)) in
  NoDup (map Usdc.symbol Usdc.TOKENS) /\ In Usdc.USDC Usdc.TOKENS
  /\ fold_right Z.add 0
       (map Usdc.amount_total_raw
          (Usdc.outflows_of (txt "USDC")
             (Usdc.outflows_by_recipient Usdc.TOKENS [t1; t2; t3])))
     = Usdc.tout_raw (Usdc.token_totals (txt "USDC") [t1; t2; t3]).
Proof.
  intros other t1 t2 t3.
  assert (Hnd : NoDup (map Usdc.symbol Usdc.TOKENS)).
  { constructor; [intros [H | []]; discriminate H|].
    constructor; [intros [] | constructor]. }
  assert (Hin : In Usdc.USDC Usdc.TOKENS) by (left; reflexivity).
  split; [exact Hnd|]. split; [exact Hin|].
  destruct (outflows_by_recipient_add_up Usdc.TOKENS Usdc.USDC [t1; t2; t3] Hnd Hin)
    as (H & _).
  exact H.
Defined.

(** The counters of the per-token loop on any list of transfers. *)
Lemma totals_counts_bounded (sym : str) (ts : list Usdc.Transfer) :
  forall (acc : Usdc.Totals) (n : Z),
    0 <= Usdc.in_count_snapshot acc <= Usdc.in_count acc ->
    0 <= Usdc.out_count_snapshot acc <= Usdc.out_count acc ->
    Usdc.in_count acc + Usdc.out_count acc <= n ->
    let tt := fold_left (Usdc.add_transfer sym) ts acc in
    0 <= Usdc.in_count_snapshot tt <= Usdc.in_count tt
    /\ 0 <= Usdc.out_count_snapshot tt <= Usdc.out_count tt
    /\ Usdc.in_count tt + Usdc.out_count tt <= n + Z.of_nat (length ts).
Proof.
  induction ts as [|t ts IH]; intros acc n Hi Ho Hn; cbn [fold_left length]; cbv zeta.
  - split; [exact Hi|]. split; [exact Ho|]. lia.
  - replace (n + Z.of_nat (S (length ts))) with ((n + 1) + Z.of_nat (length ts)) by lia.
    apply IH; unfold Usdc.add_transfer;
      cbv zeta;
      destruct (negb (str_eqb (Usdc.token_symbol t) sym)); try lia;
      destruct (Usdc.timestamp_utc t <=? Usdc.DOC_SNAPSHOT_UTC);
      destruct (str_eqb (Usdc.direction t) (txt "in"));
      try (destruct (str_eqb (Usdc.direction t) (txt "out")));
      cbn [Usdc.tin_raw Usdc.tout_raw Usdc.tin_snapshot_raw Usdc.tout_snapshot_raw
           Usdc.out_count Usdc.out_count_snapshot Usdc.in_count Usdc.in_count_snapshot];
      lia.
Qed.

Lemma totals_amounts_bounded (sym : str) (ts : list Usdc.Transfer) :
  Forall (fun t => 0 <= Usdc.amount_raw t) ts ->
  forall acc : Usdc.Totals,
    0 <= Usdc.tin_snapshot_raw acc <= Usdc.tin_raw acc ->
    0 <= Usdc.tout_snapshot_raw acc <= Usdc.tout_raw acc ->
    let tt := fold_left (Usdc.add_transfer sym) ts acc in
    0 <= Usdc.tin_snapshot_raw tt <= Usdc.tin_raw tt
    /\ 0 <= Usdc.tout_snapshot_raw tt <= Usdc.tout_raw tt.
Proof.
  induction 1 as [|t ts Ht _ IH]; intros acc Hi Ho; cbn [fold_left]; cbv zeta.
  - now split.
  - apply IH; unfold Usdc.add_transfer;
      cbv zeta;
      destruct (negb (str_eqb (Usdc.token_symbol t) sym)); try lia;
      destruct (Usdc.timestamp_utc t <=? Usdc.DOC_SNAPSHOT_UTC);
      destruct (str_eqb (Usdc.direction t) (txt "in"));
      try (destruct (str_eqb (Usdc.direction t) (txt "out")));
      cbn [Usdc.tin_raw Usdc.tout_raw Usdc.tin_snapshot_raw Usdc.tout_snapshot_raw
           Usdc.out_count Usdc.out_count_snapshot Usdc.in_count Usdc.in_count_snapshot];
      lia.
Qed.

(** X17: with non-negative amounts the snapshot figures never exceed the
    all-time ones: each snapshot count and total lies between zero and its
    all-time counterpart, and the transfers counted in and out are no more
    than the transfers read. *)
Theorem snapshot_totals_bounded (sym : str) (transfers : list Usdc.Transfer) :
  Forall (fun t => 0 <= Usdc.amount_raw t) transfers ->
  let tt := Usdc.token_totals sym transfers in
  0 <= Usdc.in_count_snapshot tt <= Usdc.in_count tt
  /\ 0 <= Usdc.out_count_snapshot tt <= Usdc.out_count tt
  /\ Usdc.in_count tt + Usdc.out_count tt <= Z.of_nat (length transfers)
  /\ 0 <= Usdc.tin_snapshot_raw tt <= Usdc.tin_raw tt
  /\ 0 <= Usdc.tout_snapshot_raw tt <= Usdc.tout_raw tt.
Proof.
  intros F tt. unfold tt, Usdc.token_totals.
  destruct (totals_counts_bounded sym transfers Usdc.totals0 0) as (A & B & C);
    [cbn; lia | cbn; lia | cbn; lia |].
  destruct (totals_amounts_bounded sym transfers F Usdc.totals0) as (D & E);
    [cbn; lia | cbn; lia |].
  cbv zeta in *. cbn [Z.add] in C. tauto.
Qed.

Lemma snapshot_totals_bounded_witness :
  let other := txt "0x8a8053c21696f27ed305a03bd1efc5d068d91d0e" in
  let t1 := Usdc.mkTransfer (txt "USDC") (Usdc.address Usdc.USDC) (txt "0xaa") 16
              1700000000 0 Usdc.TREASURY other (txt "out") 100 (Finite false 1 (-4)) in
  let t2 := Usdc.mkTransfer (txt "USDC") (Usdc.address Usdc.USDC) (txt "0xbb") 17
              1800000000 1 Usdc.TREASURY other (txt "out") 50 (Finite false 5 (-5)) in
  Forall (fun t => 0 <= Usdc.amount_raw t) [t1; t2]
  /\ 0 <= Usdc.tout_snapshot_raw (Usdc.token_totals (txt "USDC") [t1; t2])
       <= Usdc.tout_raw (Usdc.token_totals (txt "USDC") [t1; t2]).
Proof.
  intros other t1 t2.
  assert (F : Forall (fun t => 0 <= Usdc.amount_raw t) [t1; t2]).
  { constructor; [cbn; lia|]. constructor; [cbn; lia | constructor]. }
  split; [exact F|].
  destruct (snapshot_totals_bounded (txt "USDC") [t1; t2] F) as (_ & _ & _ & _ & H).
  exact H.
Defined.

(* ================================================================== *)
(** * RPC retries *)

Lemma contains_app_r (p a b : str) :
  contains p b = true -> contains p (a ++ b) = true.
Proof.
  intro H. induction a as [|c a IH]; [exact H|].
  cbn [app contains]. rewrite IH. apply orb_true_r.
Qed.

(** The scan reads the message [_curl_rpc] ends with; whether it asks for a
    smaller chunk depends on the last error alone. *)
Lemma oversized_failure_message (last_err : str) :
  Payout.oversized (lower (Rpc.failure_message (txt "eth_getLogs") 8 last_err))
  = Payout.oversized (lower last_err).
Proof.
  unfold Rpc.failure_message. rewrite !lower_app.
  unfold Payout.oversized. cbn. reflexivity.
Qed.

Lemma backoff_ok (n : nat) :
  (n < 1024)%nat -> Rpc.backoff n = Ok (Z.min (2 ^ Z.of_nat n) 12).
Proof.
  intro H. unfold Rpc.backoff.
  destruct (1024 <=? n)%nat eqn:E; [apply Nat.leb_le in E; lia | reflexivity].
Qed.

Lemma curl_loop_success {A : Type} (reply : nat -> Rpc.attempt A) (method : str)
  (retries i : nat) (r : A) :
  (i < 1024)%nat \/ i = 1024%nat ->
  reply i = Rpc.Response None (Some r) ->
  forall (k a : nat) (todo : nat) (last_err : option str) (slept : list Z),
    (a + k = i)%nat -> (k < todo)%nat ->
    (forall j, (a <= j < i)%nat -> Rpc.caught (reply j) <> None) ->
    Rpc.curl_loop reply method retries a todo last_err slept
    = (Ok r, slept ++ map (fun j => Z.min (2 ^ Z.of_nat j) 12) (seq a k)).
Proof.
  intros Hi Hr. induction k as [|k IH]; intros a todo last_err slept Ea Hk Hf;
    (destruct todo as [|todo]; [lia|]); cbn [Rpc.curl_loop].
  - replace a with i by lia. rewrite Hr. cbn. now rewrite app_nil_r.
  - assert (Hc : Rpc.caught (reply a) <> None) by (apply Hf; lia).
    rewrite (backoff_ok a) by lia.
    assert (E : Rpc.curl_loop reply method retries (S a) todo (Rpc.caught (reply a))
                  (slept ++ [Z.min (2 ^ Z.of_nat a) 12])
                = (Ok r, slept ++ map (fun j => Z.min (2 ^ Z.of_nat j) 12) (seq a (S k)))).
    { rewrite (IH (S a)); [|lia|lia|intros j Hj; apply Hf; lia].
      cbn [seq map]. now rewrite <- app_assoc. }
    destruct (reply a) as [e|[e|] [x|]]; try exact E. now elim Hc.
Qed.

Lemma curl_loop_failure {A : Type} (reply : nat -> Rpc.attempt A) (method : str)
  (retries : nat) :
  forall (todo a : nat) (last_err : option str) (slept : list Z),
    (a + todo <= 1024)%nat ->
    (forall j, (a <= j < a + todo)%nat -> Rpc.caught (reply j) <> None) ->
    Rpc.curl_loop reply method retries a todo last_err slept
    = (Raise (RuntimeError
                (Rpc.failure_message method retries
                   (Rpc.err_text (match todo with
                                  | O => last_err
                                  | S n => Rpc.caught (reply (a + n)%nat)
                                  end)))),
       slept ++ map (fun j => Z.min (2 ^ Z.of_nat j) 12) (seq a todo)).
Proof.
  induction todo as [|todo IH]; intros a last_err slept Hb Hf; cbn [Rpc.curl_loop].
  - cbn. now rewrite app_nil_r.
  - assert (Hc : Rpc.caught (reply a) <> None) by (apply Hf; lia).
    rewrite (backoff_ok a) by lia.
    assert (E : Rpc.curl_loop reply method retries (S a) todo (Rpc.caught (reply a))
                  (slept ++ [Z.min (2 ^ Z.of_nat a) 12])
                = (Raise (RuntimeError
                            (Rpc.failure_message method retries
                               (Rpc.err_text (Rpc.caught (reply (a + todo)%nat))))),
                   slept ++ map (fun j => Z.min (2 ^ Z.of_nat j) 12) (seq a (S todo)))).
    { rewrite IH; [|lia|intros j Hj; apply Hf; lia].
      cbn [seq map]. rewrite <- app_assoc. cbn [app]. f_equal.
      destruct todo as [|n]; [now rewrite Nat.add_0_r|].
      now replace (S a + n)%nat with (a + S n)%nat by lia. }
    destruct (reply a) as [e|[e|] [x|]]; try exact E. now elim Hc.
Qed.

Lemma sleeps_bound (a k : nat) :
  0 <= fold_right Z.add 0 (map (fun j => Z.min (2 ^ Z.of_nat j) 12) (seq a k))
    <= 12 * Z.of_nat k.
Proof.
  revert a. induction k as [|k IH]; intro a; cbn [seq map fold_right]; [lia|].
  specialize (IH (S a)).
  assert (0 < 2 ^ Z.of_nat a) by (apply Z.pow_pos_nonneg; lia). lia.
Qed.

(** X18: [_curl_rpc] returns the result of the first attempt that yields
    one, having slept after each failed attempt before it [min(2^n, 12)]
    seconds, at most twelve seconds per failure. *)
Theorem curl_rpc_returns_first_success {A : Type}
  (reply : nat -> Rpc.attempt A) (method : str) (retries i : nat) (r : A) :
  (i < retries)%nat -> (i <= 1024)%nat ->
  (forall j, (j < i)%nat -> Rpc.caught (reply j) <> None) ->
  reply i = Rpc.Response None (Some r) ->
  let slept := map (fun j => Z.min (2 ^ Z.of_nat j) 12) (seq 0 i) in
  Rpc._curl_rpc reply method retries = (Ok r, slept)
  /\ length slept = i
  /\ 0 <= fold_right Z.add 0 slept <= 12 * Z.of_nat i.
Proof.
  intros Hi Hb Hf Hr slept. split; [|split].
  - unfold Rpc._curl_rpc.
    rewrite (curl_loop_success reply method retries i r) with (k := i);
      [reflexivity | lia | exact Hr | lia | exact Hi | intros j Hj; apply Hf; lia].
  - unfold slept. now rewrite length_map, length_seq.
  - apply sleeps_bound.
Qed.

Lemma curl_rpc_returns_first_success_witness :
  let reply := fun n : nat =>
                 match n with
                 | O => Rpc.Failed (txt "curl: (28) Operation timed out")
                 | S O => Rpc.Response (Some (txt "{}")) None
                 | _ => Rpc.Response None (Some (txt "0x10"))
                 end in
  (2 < 6)%nat /\ (2 <= 1024)%nat
  /\ Rpc._curl_rpc reply (txt "eth_blockNumber") 6 = (Ok (txt "0x10"), [1; 2]).
Proof.
  intro reply.
  assert (H1 : (2 < 6)%nat) by lia. assert (H2 : (2 <= 1024)%nat) by lia.
  assert (Hf : forall j, (j < 2)%nat -> Rpc.caught (reply j) <> None).
  { intros [|[|j]] Hj; [discriminate | discriminate | lia]. }
  split; [exact H1|]. split; [exact H2|].
  destruct (curl_rpc_returns_first_success reply (txt "eth_blockNumber") 6 2
              (txt "0x10") H1 H2 Hf eq_refl) as (E & _).
  exact E.
Defined.

(** X19: when every attempt fails, [_curl_rpc] raises [RuntimeError] with
    the number of attempts, the method and the text of the last error,
    after sleeping 1, 2, 4, 8, 12 and 12 seconds for six attempts and
    twice 12 more for eight.
    The message keeps what the scan looks for: it asks for a smaller chunk
    exactly when the last error of [eth_getLogs] does. *)
Theorem curl_rpc_gives_up {A : Type}
  (reply : nat -> Rpc.attempt A) (method : str) (retries : nat) (last_err : str) :
  (0 < retries <= 1024)%nat ->
  (forall j, (j < retries)%nat -> Rpc.caught (reply j) <> None) ->
  Rpc.caught (reply (retries - 1)%nat) = Some last_err ->
  let message :=
    txt "RPC failed after " ++ Rpc.str_of_nat retries ++ txt " attempts: " ++ method
    ++ txt ": " ++ last_err in
  let slept := map (fun j => Z.min (2 ^ Z.of_nat j) 12) (seq 0 retries) in
  Rpc._curl_rpc reply method retries = (Raise (RuntimeError message), slept)
  /\ (retries = 6%nat -> slept = [1; 2; 4; 8; 12; 12])
  /\ (retries = 8%nat -> slept = [1; 2; 4; 8; 12; 12; 12; 12])
  /\ (Payout.oversized (lower last_err) = true ->
      Payout.oversized (lower message) = true)
  /\ (retries = 8%nat -> method = txt "eth_getLogs" ->
      Payout.oversized (lower message) = Payout.oversized (lower last_err)).
Proof.
  intros Hr Hf Hl message slept. split; [|split; [|split; [|split]]].
  - unfold Rpc._curl_rpc.
    rewrite curl_loop_failure; [|lia|intros j Hj; apply Hf; lia].
    destruct retries as [|n]; [lia|].
    replace (S n - 1)%nat with n in Hl by lia. cbn [Nat.add]. rewrite Hl. reflexivity.
  - intros ->. reflexivity.
  - intros ->. reflexivity.
  - intro Ho. unfold message, Payout.oversized in *.
    rewrite !app_assoc. rewrite lower_app.
    apply orb_true_iff in Ho. destruct Ho as [Ho | Ho].
    + apply orb_true_iff in Ho. destruct Ho as [Ho | Ho].
      * now rewrite (contains_app_r _ _ _ Ho).
      * rewrite (contains_app_r _ _ _ Ho). now rewrite orb_true_r.
    + rewrite (contains_app_r _ _ _ Ho). now rewrite orb_true_r.
  - intros -> ->. apply oversized_failure_message.
Qed.

Lemma curl_rpc_gives_up_witness :
  let reply := fun _ : nat =>
                 @Rpc.Response str (Some (txt "query returned more than 10000 results"))
                   None in
  (0 < 8 <= 1024)%nat
  /\ Rpc._curl_rpc reply (txt "eth_getLogs") 8
     = (Raise (RuntimeError
                 (txt "RPC failed after 8 attempts: eth_getLogs: query returned more than 10000 results")),
        [1; 2; 4; 8; 12; 12; 12; 12]).
Proof.
  intro reply.
  assert (H1 : (0 < 8 <= 1024)%nat) by lia.
  assert (Hf : forall j, (j < 8)%nat -> Rpc.caught (reply j) <> None)
    by (intros j _; discriminate).
  split; [exact H1|].
  destruct (curl_rpc_gives_up reply (txt "eth_getLogs") 8
              (txt "query returned more than 10000 results") H1 Hf eq_refl)
    as (E & _).
  exact E.
Defined.

(* ================================================================== *)
(** * The total of the payout script *)

(** A decimal with a non-negative coefficient and an exponent from [-d] to
    zero denotes the integer it scales to, divided by [10^d]. *)
Lemma value_of_scaled (c e d N : Z) :
  0 <= d -> - d <= e <= 0 -> N = c * 10 ^ (e + d) ->
  value false c e == inject_Z N / inject_Z (10 ^ d).
Proof.
  intros Hd He EN. unfold value. rewrite EN, inject_Z_mult.
  rewrite Zpower_Qpower by lia. rewrite (Zpower_Qpower 10 d) by lia.
  rewrite (Qpower_plus _ e d inject_Z_10_nonzero).
  field; try (apply Qpower_not_0; exact inject_Z_10_nonzero).
Qed.

Lemma pow10_split (a b : Z) : 0 <= a -> 0 <= b -> 10 ^ (a + b) = 10 ^ a * 10 ^ b.
Proof. intros Ha Hb. now rewrite Z.pow_add_r. Qed.

(** Two non-negative decimals that count units of [10^-d] add up
    exactly, as long as the sum in these units has at most as many digits
    as the precision less [d]. *)
Lemma add_units_exact (ctx : context) (d c1 e1 c2 e2 : Z) :
  0 <= d -> d + 1 <= prec ctx ->
  Etiny ctx <= - d -> 0 <= Etop ctx -> 0 <= Emax ctx ->
  0 <= c1 -> 0 <= c2 -> - d <= e1 <= 0 -> - d <= e2 <= 0 ->
  c1 * 10 ^ (e1 + d) + c2 * 10 ^ (e2 + d) < 10 ^ (prec ctx - d) ->
  exists c e : Z,
    add ctx (Finite false c1 e1) (Finite false c2 e2) = Ok (Finite false c e)
    /\ 0 <= c /\ - d <= e <= 0
    /\ c * 10 ^ (e + d) = c1 * 10 ^ (e1 + d) + c2 * 10 ^ (e2 + d).
Proof.
  intros Hd Hprec Htiny Htop Hmax Hc1 Hc2 He1 He2 Hsum.
  set (P := prec ctx) in *.
  set (m := Z.min e1 e2).
  assert (Hm : - d <= m <= 0) by (unfold m; lia).
  assert (P1 : 1 <= 10 ^ (e1 + d)) by (pose proof (Z.pow_pos_nonneg 10 (e1 + d)); lia).
  assert (P2 : 1 <= 10 ^ (e2 + d)) by (pose proof (Z.pow_pos_nonneg 10 (e2 + d)); lia).
  assert (Pm : 1 <= 10 ^ (m + d)) by (pose proof (Z.pow_pos_nonneg 10 (m + d)); lia).
  assert (S1 : 10 ^ (e1 + d) = 10 ^ (e1 - m) * 10 ^ (m + d)).
  { rewrite <- pow10_split by (unfold m; lia). f_equal. lia. }
  assert (S2 : 10 ^ (e2 + d) = 10 ^ (e2 - m) * 10 ^ (m + d)).
  { rewrite <- pow10_split by (unfold m; lia). f_equal. lia. }
  assert (Q1 : 1 <= 10 ^ (e1 - m))
    by (pose proof (Z.pow_pos_nonneg 10 (e1 - m)); unfold m in *; lia).
  assert (Q2 : 1 <= 10 ^ (e2 - m))
    by (pose proof (Z.pow_pos_nonneg 10 (e2 - m)); unfold m in *; lia).
  assert (BP : 10 ^ (P - d) <= 10 ^ P) by (apply Z.pow_le_mono_r; lia).
  (* the sum at the common exponent *)
  set (C := c1 * 10 ^ (e1 - m) + c2 * 10 ^ (e2 - m)).
  assert (EC : C * 10 ^ (m + d) = c1 * 10 ^ (e1 + d) + c2 * 10 ^ (e2 + d)).
  { unfold C. rewrite S1, S2. ring. }
  assert (HC0 : 0 <= C) by (unfold C; nia).
  assert (HC : C < 10 ^ (P - d)) by nia.
  assert (Hfit : forall c, 0 < c -> c <= C -> fix_ ctx false c m = Ok (Finite false c m)).
  { intros c Hpos Hle. apply fix_fits; [exact Hpos | fold P; lia | lia]. }
  unfold add. fold m. fold P.
  destruct (c1 =? 0) eqn:Z1; [apply Z.eqb_eq in Z1 | apply Z.eqb_neq in Z1];
    (destruct (c2 =? 0) eqn:Z2; [apply Z.eqb_eq in Z2 | apply Z.eqb_neq in Z2]);
    cbn [andb].
  - (* both zero *)
    exists 0, m. split; [|split; [lia | split; [exact Hm|]]].
    + unfold fix_. cbn [Z.eqb andb]. do 2 f_equal. lia.
    + subst c1 c2. lia.
  - (* the first is zero *)
    replace (Z.max m (e2 - P - 1)) with m by lia.
    exists (c2 * 10 ^ (e2 - m)), m.
    split; [|split; [nia | split; [exact Hm|]]].
    + apply Hfit; [nia | unfold C; nia].
    + rewrite <- EC. unfold C. subst c1. ring.
  - (* the second is zero *)
    replace (Z.max m (e1 - P - 1)) with m by lia.
    exists (c1 * 10 ^ (e1 - m)), m.
    split; [|split; [nia | split; [exact Hm|]]].
    + apply Hfit; [nia | unfold C; nia].
    + rewrite <- EC. unfold C. subst c2. ring.
  - (* neither is zero *)
    assert (D1 : 1 <= ndigits c1 <= P - d).
    { destruct (ndigits_spec c1 ltac:(lia)) as [_ A]. split; [exact A|].
      apply ndigits_le; [lia | nia]. }
    assert (D2 : 1 <= ndigits c2 <= P - d).
    { destruct (ndigits_spec c2 ltac:(lia)) as [_ A]. split; [exact A|].
      apply ndigits_le; [lia | nia]. }
    exists C, m. split; [|split; [exact HC0 | split; [exact Hm | exact EC]]].
    unfold normalize.
    destruct (e1 <? e2) eqn:E12; [apply Z.ltb_lt in E12 | apply Z.ltb_ge in E12].
    + assert ((ndigits c1 + e1 - 1 <? e2 + Z.min (-1) (ndigits c2 - P - 2)) = false)
        as -> by (apply Z.ltb_ge; lia).
      cbn [xorb]. replace e1 with m by (unfold m; lia).
      replace (c1 + c2 * 10 ^ (e2 - m)) with C.
      * apply Hfit; [unfold C; nia | lia].
      * unfold C. replace (m - m) with 0 by lia.
        replace (e1 - m) with 0 by (unfold m; lia). rewrite Z.pow_0_r. ring.
    + assert ((ndigits c2 + e2 - 1 <? e1 + Z.min (-1) (ndigits c1 - P - 2)) = false)
        as -> by (apply Z.ltb_ge; lia).
      cbn [xorb]. replace e2 with m by (unfold m; lia).
      replace (c1 * 10 ^ (e1 - m) + c2) with C.
      * apply Hfit; [unfold C; nia | lia].
      * unfold C. replace (e2 - m) with 0 by (unfold m; lia).
        rewrite Z.pow_0_r. ring.
Qed.

(** A total in wei as the script turns it into ETH. *)
Lemma dec_wei_to_eth_units (w : Z) :
  0 <= w < 10 ^ 60 ->
  exists c e : Z,
    Payout._dec_wei_to_eth w = Ok (Finite false c e)
    /\ 0 <= c /\ -18 <= e <= 0 /\ c * 10 ^ (e + 18) = w.
Proof.
  intro Hw.
  assert (Ha : Z.abs w < 10 ^ prec Payout.ctx).
  { rewrite Z.abs_eq by lia. apply (Z.lt_trans _ (10 ^ 60)); [lia | reflexivity]. }
  destruct (div_pow10_exact Payout.ctx w 18 ltac:(discriminate) ltac:(discriminate)
              ltac:(discriminate) ltac:(discriminate) Ha)
    as (c & e & E & Hc & He & Ec & _).
  assert ((w <? 0) = false) as Hs by (apply Z.ltb_ge; lia).
  rewrite Hs in E. rewrite Z.abs_eq in Ec by lia.
  exists c, e. unfold Payout._dec_wei_to_eth. repeat split; try assumption; lia.
Qed.

(** X20: [total_eth] of the payout script is exact: for five totals in wei,
    each from 0 to below [10^60], the divisions and the four additions
    under the 80-digit context lose nothing, and the decimal they give
    denotes the sum of the five totals divided by [10^18]. *)
Theorem total_eth_exact
  (gateway_total_wei manual_total_wei dec31_total_wei jan22_total_wei
   phase3_total_wei : Z) :
  0 <= gateway_total_wei < 10 ^ 60 -> 0 <= manual_total_wei < 10 ^ 60 ->
  0 <= dec31_total_wei < 10 ^ 60 -> 0 <= jan22_total_wei < 10 ^ 60 ->
  0 <= phase3_total_wei < 10 ^ 60 ->
  exists c e : Z,
    Payout.total_eth gateway_total_wei manual_total_wei dec31_total_wei
      jan22_total_wei phase3_total_wei = Ok (Finite false c e)
    /\ 0 <= c /\ -18 <= e <= 0
    /\ c * 10 ^ (e + 18)
       = gateway_total_wei + manual_total_wei + dec31_total_wei + jan22_total_wei
         + phase3_total_wei
    /\ value false c e
       == inject_Z (gateway_total_wei + manual_total_wei + dec31_total_wei
                    + jan22_total_wei + phase3_total_wei)
          / inject_Z (10 ^ 18).
Proof.
  intros H1 H2 H3 H4 H5.
  assert (B : 5 * 10 ^ 60 < 10 ^ (prec Payout.ctx - 18)) by reflexivity.
  destruct (dec_wei_to_eth_units _ H1) as (c1 & e1 & E1 & C1 & X1 & W1).
  destruct (dec_wei_to_eth_units _ H2) as (c2 & e2 & E2 & C2 & X2 & W2).
  destruct (dec_wei_to_eth_units _ H3) as (c3 & e3 & E3 & C3 & X3 & W3).
  destruct (dec_wei_to_eth_units _ H4) as (c4 & e4 & E4 & C4 & X4 & W4).
  destruct (dec_wei_to_eth_units _ H5) as (c5 & e5 & E5 & C5 & X5 & W5).
  unfold Payout.total_eth. rewrite E1, E2, E3, E4, E5. cbn [bind].
  destruct (add_units_exact Payout.ctx 18 c1 e1 c2 e2 ltac:(discriminate) ltac:(discriminate)
              ltac:(discriminate)
              ltac:(discriminate) ltac:(discriminate) C1 C2 X1 X2 ltac:(lia))
    as (a1 & f1 & A1 & Ca1 & Xa1 & Wa1).
  rewrite A1. cbn [bind].
  destruct (add_units_exact Payout.ctx 18 a1 f1 c3 e3 ltac:(discriminate) ltac:(discriminate)
              ltac:(discriminate)
              ltac:(discriminate) ltac:(discriminate) Ca1 C3 Xa1 X3 ltac:(lia))
    as (a2 & f2 & A2 & Ca2 & Xa2 & Wa2).
  rewrite A2. cbn [bind].
  destruct (add_units_exact Payout.ctx 18 a2 f2 c4 e4 ltac:(discriminate) ltac:(discriminate)
              ltac:(discriminate)
              ltac:(discriminate) ltac:(discriminate) Ca2 C4 Xa2 X4 ltac:(lia))
    as (a3 & f3 & A3 & Ca3 & Xa3 & Wa3).
  rewrite A3. cbn [bind].
  destruct (add_units_exact Payout.ctx 18 a3 f3 c5 e5 ltac:(discriminate) ltac:(discriminate)
              ltac:(discriminate)
              ltac:(discriminate) ltac:(discriminate) Ca3 C5 Xa3 X5 ltac:(lia))
    as (a4 & f4 & A4 & Ca4 & Xa4 & Wa4).
  exists a4, f4. split; [exact A4|]. split; [exact Ca4|]. split; [exact Xa4|].
  assert (W : a4 * 10 ^ (f4 + 18)
              = gateway_total_wei + manual_total_wei + dec31_total_wei
                + jan22_total_wei + phase3_total_wei) by lia.
  split; [exact W|].
  apply (value_of_scaled a4 f4 18); [lia | lia | now symmetry].
Qed.

Lemma total_eth_exact_witness :
  0 <= 9500000000000000000 < 10 ^ 60 /\ 0 <= 12000000000000000 < 10 ^ 60
  /\ 0 <= 0 < 10 ^ 60 /\ 0 <= 250000000000000000 < 10 ^ 60
  /\ 0 <= 1000000000000000001 < 10 ^ 60
  /\ exists c e : Z,
       Payout.total_eth 9500000000000000000 12000000000000000 0
         250000000000000000 1000000000000000001 = Ok (Finite false c e)
       /\ c * 10 ^ (e + 18) = 10762000000000000001.
Proof.
  assert (H1 : 0 <= 9500000000000000000 < 10 ^ 60) by (split; [discriminate | reflexivity]).
  assert (H2 : 0 <= 12000000000000000 < 10 ^ 60) by (split; [discriminate | reflexivity]).
  assert (H3 : 0 <= 0 < 10 ^ 60) by (split; [discriminate | reflexivity]).
  assert (H4 : 0 <= 250000000000000000 < 10 ^ 60) by (split; [discriminate | reflexivity]).
  assert (H5 : 0 <= 1000000000000000001 < 10 ^ 60) by (split; [discriminate | reflexivity]).
  split; [exact H1|]. split; [exact H2|]. split; [exact H3|]. split; [exact H4|].
  split; [exact H5|].
  destruct (total_eth_exact _ _ _ _ _ H1 H2 H3 H4 H5) as (c & e & E & _ & _ & W & _).
  exists c, e. split; [exact E | exact W].
Defined.

(* ================================================================== *)
(** * Errors of the transfer decoder *)

(** X21: [_erc20_transfers_in_receipt] fails exactly when one of the logs
    it selects cannot be decoded - a second or third topic that is not a
    66-character text with the [0x] prefix, or a data text that is not a
    hexadecimal integer - and the exception is then [ValueError]; a log
    it does not select is never decoded, whatever it holds. *)
Theorem erc20_transfers_errors (receipt : Legacy.Receipt) (token : str) :
  (raised (Legacy._erc20_transfers_in_receipt receipt token) = true <->
   exists log, In log (Legacy.rc_logs receipt)
               /\ Legacy.selected token log = true
               /\ raised (Legacy.decode_transfer log) = true)
  /\ (forall e, Legacy._erc20_transfers_in_receipt receipt token = Raise e ->
                e = ValueError)
  /\ (forall log : Legacy.Log,
        raised (Legacy.decode_transfer log) = true <->
        ~ (startswith (txt "0x") (lower (nth 1 (Legacy.log_topics log) [])) = true
           /\ length (nth 1 (Legacy.log_topics log) []) = 66%nat)
        \/ ~ (startswith (txt "0x") (lower (nth 2 (Legacy.log_topics log) [])) = true
              /\ length (nth 2 (Legacy.log_topics log) []) = 66%nat)
        \/ raised (int16 (or_default (Legacy.log_data log) (txt "0x0"))) = true).
Proof.
  assert (E : Legacy._erc20_transfers_in_receipt receipt token
              = (es <- mapM Legacy.decode_transfer
                         (filter (Legacy.selected token) (Legacy.rc_logs receipt)) ;;
                 Ok es)).
  { unfold Legacy._erc20_transfers_in_receipt. rewrite erc20_loop_filter.
    destruct (mapM _ _); reflexivity. }
  assert (K : forall log e, Legacy.decode_transfer log = Raise e -> e = ValueError).
  { intros log e. unfold Legacy.decode_transfer.
    destruct (Legacy._decode_topic_addr (nth 1 (Legacy.log_topics log) [])) as [f|e1] eqn:E1;
      cbn [bind].
    2:{ intro H. injection H as <-. unfold Legacy._decode_topic_addr in E1.
        cbv zeta in E1. destruct (_ || _) in E1; [now injection E1 | discriminate]. }
    destruct (Legacy._decode_topic_addr (nth 2 (Legacy.log_topics log) [])) as [t|e2] eqn:E2;
      cbn [bind].
    2:{ intro H. injection H as <-. unfold Legacy._decode_topic_addr in E2.
        cbv zeta in E2. destruct (_ || _) in E2; [now injection E2 | discriminate]. }
    destruct (int16 _) as [v|e3] eqn:E3; cbn [bind]; [discriminate|].
    intro H. injection H as <-. now apply int16_raises_ValueError in E3. }
  split; [|split].
  - rewrite E. split.
    + destruct (mapM Legacy.decode_transfer _) as [es|e] eqn:Em; cbn [bind raised];
        [discriminate|].
      intros _. destruct (mapM_raise _ _ _ Em) as (log & Hin & Hd).
      apply filter_In in Hin. destruct Hin as [Hin Hsel].
      exists log. split; [exact Hin|]. split; [exact Hsel|]. now rewrite Hd.
    + intros (log & Hin & Hsel & Hr).
      assert (Hm : raised (mapM Legacy.decode_transfer
                             (filter (Legacy.selected token) (Legacy.rc_logs receipt)))
                   = true).
      { apply (mapM_raised _ _ log); [apply filter_In; now split | exact Hr]. }
      destruct (mapM Legacy.decode_transfer _); [discriminate Hm | reflexivity].
  - intros e H. rewrite E in H.
    destruct (mapM Legacy.decode_transfer _) as [es|e0] eqn:Em; cbn [bind] in H;
      [discriminate|].
    injection H as <-. destruct (mapM_raise _ _ _ Em) as (log & _ & Hd).
    exact (K log e0 Hd).
  - intro log. rewrite <- !decode_topic_addr_raises. unfold Legacy.decode_transfer.
    destruct (Legacy._decode_topic_addr (nth 1 (Legacy.log_topics log) [])) as [f|e1];
      cbn [bind raised]; [|split; [now left | reflexivity]].
    destruct (Legacy._decode_topic_addr (nth 2 (Legacy.log_topics log) [])) as [t|e2];
      cbn [bind raised]; [|split; [right; now left | reflexivity]].
    destruct (int16 _) as [v|e3]; cbn [bind raised].
    + split; [discriminate | intros [H | [H | H]]; discriminate].
    + split; [right; now right | reflexivity].
Qed.

(* ================================================================== *)
(** * Expected amounts with at most eighteen decimals *)

(** X22: an expected amount with at most eighteen decimals, and a
    coefficient below [10^42], is converted to raw units without any
    rounding: the raw amount is the amount times [10^18]. *)
Theorem expected_raw_amount_exact (amount_text : str) (neg : bool) (c e : Z) :
  of_str amount_text = Ok (Finite neg c e) ->
  c < 10 ^ 42 -> -18 <= e <= 999940 ->
  Legacy.exp_raw_of amount_text = Ok ((if neg then - c else c) * 10 ^ (e + 18))
  /\ value neg c e * inject_Z (10 ^ 18)
     == inject_Z ((if neg then - c else c) * 10 ^ (e + 18)).
Proof.
  intros Hp Hc He.
  assert (Hc0 : 0 <= c) by exact (of_str_finite_nonneg _ _ _ _ Hp).
  assert (V : value neg c e * inject_Z (10 ^ 18)
              == inject_Z ((if neg then - c else c) * 10 ^ (e + 18))).
  { unfold value. rewrite inject_Z_mult.
    rewrite (Zpower_Qpower 10 18) by lia. rewrite (Zpower_Qpower 10 (e + 18)) by lia.
    rewrite (Qpower_plus _ e 18 inject_Z_10_nonzero). ring. }
  split; [|exact V].
  unfold Legacy.exp_raw_of. rewrite Hp. cbn [bind].
  destruct (raw_of_decimal_half_even neg c e Hc0 Hc ltac:(lia)) as (w & Ew & Hhalf & _).
  rewrite Ew. f_equal.
  assert (E : value neg c e * inject_Z (10 ^ 18) - inject_Z w
              == inject_Z ((if neg then - c else c) * 10 ^ (e + 18) - w) / inject_Z 1).
  { rewrite V. unfold Z.sub. rewrite inject_Z_plus, inject_Z_opp.
    field. }
  rewrite E in Hhalf.
  apply (proj1 (Qabs_fraction_half _ 1 ltac:(lia))) in Hhalf. lia.
Qed.

Lemma expected_raw_amount_exact_witness :
  of_str (txt "0.012") = Ok (Finite false 12 (-3))
  /\ Legacy.exp_raw_of (txt "0.012") = Ok 12000000000000000.
Proof.
  assert (Hp : of_str (txt "0.012") = Ok (Finite false 12 (-3))) by reflexivity.
  split; [exact Hp|].
  destruct (expected_raw_amount_exact (txt "0.012") false 12 (-3) Hp ltac:(reflexivity)
              ltac:(split; discriminate)) as [E _].
  exact E.
Defined.

(* ================================================================== *)
(** * The totals of the legacy summary *)

Lemma sum_dec_from (d : Z) (raws : list Z) (values : list decimal) :
  0 <= d <= 18 ->
  Forall2 (fun raw v => 0 <= raw /\ Legacy._dec raw d = Ok v) raws values ->
  forall c0 e0 : Z,
    0 <= c0 -> - d <= e0 <= 0 ->
    c0 * 10 ^ (e0 + d) + fold_right Z.add 0 raws < 10 ^ (60 - d) ->
    exists c e : Z,
      fold_left (fun acc v => a <- acc ;; add Legacy.ctx a v) values
        (Ok (Finite false c0 e0)) = Ok (Finite false c e)
      /\ 0 <= c /\ - d <= e <= 0
      /\ c * 10 ^ (e + d) = c0 * 10 ^ (e0 + d) + fold_right Z.add 0 raws.
Proof.
  intros Hd F.
  assert (Ht : Etiny Legacy.ctx <= - d).
  { assert (E : Etiny Legacy.ctx = -1000058) by reflexivity. lia. }
  assert (B60 : 10 ^ (60 - d) <= 10 ^ 60) by (apply Z.pow_le_mono_r; lia).
  induction F as [|raw v raws values [Hraw Hv] F IH]; intros c0 e0 Hc0 He0 Hsum;
    cbn [fold_left fold_right] in *.
  - exists c0, e0. repeat split; try lia.
  - assert (Hnn : 0 <= fold_right Z.add 0 raws).
    { clear - F. induction F as [|r v rs vs [Hr _] F IH]; cbn [fold_right]; lia. }
    assert (P0 : 0 <= c0 * 10 ^ (e0 + d)).
    { pose proof (Z.pow_pos_nonneg 10 (e0 + d)). nia. }
    assert (Ha : Z.abs raw < 10 ^ prec Legacy.ctx).
    { rewrite Z.abs_eq by lia. change (prec Legacy.ctx) with 60. lia. }
    destruct (div_pow10_exact Legacy.ctx raw d ltac:(lia) Ht ltac:(discriminate)
                ltac:(discriminate) Ha) as (c1 & e1 & E1 & C1 & X1 & W1 & _).
    fold (Legacy._dec raw d) in E1. rewrite Hv in E1. injection E1 as ->.
    assert ((raw <? 0) = false) as Hs by (apply Z.ltb_ge; lia).
    rewrite Hs. rewrite Z.abs_eq in W1 by lia.
    destruct (add_units_exact Legacy.ctx d c0 e0 c1 e1 ltac:(lia)
                ltac:(change (prec Legacy.ctx) with 60; lia) Ht ltac:(discriminate)
                ltac:(discriminate) Hc0 C1 He0 X1
                ltac:(change (prec Legacy.ctx) with 60; lia))
      as (c2 & e2 & A & C2 & X2 & W2).
    cbn [bind]. rewrite A.
    destruct (IH c2 e2 C2 X2 ltac:(lia)) as (c & e & E & Hc & He & W).
    exists c, e. split; [exact E|]. split; [exact Hc|]. split; [exact He|]. lia.
Qed.

(** X23: the totals of the summary are exact: added up under the 60-digit
    context, the amounts [_dec] gives for non-negative raw amounts of 18
    decimals (or of 6) denote the sum of the raw amounts divided by the
    power of ten, as long as that sum is below [10^42] (or [10^54]); such
    is the total of the funding rows of each kind. *)
Theorem summary_totals_exact (d : Z) (raws : list Z) (values : list decimal) :
  d = 6 \/ d = 18 ->
  Forall2 (fun raw v => 0 <= raw /\ Legacy._dec raw d = Ok v) raws values ->
  fold_right Z.add 0 raws < 10 ^ (60 - d) ->
  exists c e : Z,
    Legacy._sum_dec values = Ok (Finite false c e)
    /\ 0 <= c /\ - d <= e <= 0
    /\ c * 10 ^ (e + d) = fold_right Z.add 0 raws
    /\ value false c e == inject_Z (fold_right Z.add 0 raws) / inject_Z (10 ^ d)
    /\ forall (k : str) (funding_rows : list Legacy.FlowRow),
         values = map Legacy.amount
                    (filter (fun r => str_eqb (Legacy.kind r) k) funding_rows) ->
         Legacy.funding_total k funding_rows = Ok (Finite false c e).
Proof.
  intros Hd F Hsum.
  assert (Hd' : 0 <= d <= 18) by lia.
  destruct (sum_dec_from d raws values Hd' F 0 0 ltac:(lia) ltac:(lia) ltac:(lia))
    as (c & e & E & Hc & He & W).
  exists c, e. unfold Legacy._sum_dec.
  split; [exact E|]. split; [exact Hc|]. split; [exact He|].
  split; [lia|]. split.
  - apply (value_of_scaled c e d); [lia | exact He | lia].
  - intros k rows ->. exact E.
Qed.

Lemma summary_totals_exact_witness :
  let values := [Finite false 15 (-1); Finite false 0 0; Finite false 12 (-3)] in
  Forall2 (fun raw v => 0 <= raw /\ Legacy._dec raw 18 = Ok v)
    [1500000000000000000; 0; 12000000000000000] values
  /\ exists c e : Z,
       Legacy._sum_dec values = Ok (Finite false c e)
       /\ c * 10 ^ (e + 18) = 1512000000000000000.
Proof.
  intro values.
  assert (F : Forall2 (fun raw v => 0 <= raw /\ Legacy._dec raw 18 = Ok v)
                [1500000000000000000; 0; 12000000000000000] values).
  { repeat constructor; try discriminate; vm_compute; reflexivity. }
  split; [exact F|].
  destruct (summary_totals_exact 18 [1500000000000000000; 0; 12000000000000000] values
              (or_intror eq_refl) F ltac:(reflexivity))
    as (c & e & E & _ & _ & W & _).
  exists c, e. split; [exact E | exact W].
Defined.
